(** * Range decomposition and level animation of the Fenwick illustrations

    A shallow embedding of the two scripts of the repository:

    - [animate.py]    : module [Animate]  ([lsb], [into_parts],
                        [round_up_to_pow2], [animate]);
    - [illustrate.py] : module [Illustrate] (class [Drawer] with [_lsb],
                        [_as_level], [_into_parts], [_round_up_to_pow2],
                        [animate]).

    Python integers are unbounded, so they are [Z]; [x & -x] is [Z.land] on
    the (infinite) two's complement representation, which is what both Python
    and [Z.land] implement.  Levels are Python floats in the source; they are
    modelled as rationals kept in lowest terms ([Qred]), which is exact for
    the values the scripts use (small integers and multiples of 1/2 and 1/4).

    The skia canvas is modelled by what is drawn on it: a frame is the list
    of segments passed to the line-drawing call, each with its two positions,
    its level and its colour.  Pixel coordinates, fonts, margins and the
    recorded picture of the spikes are outside the model; of the coordinate
    computations only the divisions are kept, for the [ZeroDivisionError]
    they raise when [max_position] (or the stretched [max_level]) is zero.

    [animate] is a generator in both scripts.  The model runs it to
    exhaustion: the outcome is the list of the frames it yields, or the
    exception that ends it. *)

From Stdlib Require Import ZArith List Bool Lia QArith Qround Lqa Sorted.
Import ListNotations.

Local Open Scope Z_scope.

(** ** Outcomes of Python code *)

(** The exceptions that the modelled code can raise. *)
Inductive exn : Set :=
| AssertionError
| TypeError
| AttributeError
| ZeroDivisionError.

(** A run returns a value, raises, or is still running when the step budget
    of the model is used up. *)
Inductive outcome (A : Type) : Type :=
| Ok (a : A)
| Raise (e : exn)
| OutOfFuel.

Arguments Ok {A} a.
Arguments Raise {A} e.
Arguments OutOfFuel {A}.

Definition bind {A B : Type} (m : outcome A) (k : A -> outcome B) : outcome B :=
  match m with
  | Ok a => k a
  | Raise e => Raise e
  | OutOfFuel => OutOfFuel
  end.

Notation "x <- m ;; k" := (bind m (fun x => k))
  (at level 61, m at next level, right associativity).

(** [while cond: body] run for at most [fuel] evaluations of the condition. *)
Fixpoint while {S : Type} (fuel : nat) (cond : S -> bool) (body : S -> S)
  (s : S) : outcome S :=
  match fuel with
  | O => OutOfFuel
  | Datatypes.S n => if cond s then while n cond body (body s) else Ok s
  end.

(** The same loop with a body that may raise. *)
Fixpoint while_m {S : Type} (fuel : nat) (cond : S -> bool)
  (body : S -> outcome S) (s : S) : outcome S :=
  match fuel with
  | O => OutOfFuel
  | Datatypes.S n =>
      if cond s then s' <- body s ;; while_m n cond body s' else Ok s
  end.

(** [for x in l: f(x)], collecting what each call returns. *)
Fixpoint map_m {A B : Type} (f : A -> outcome B) (l : list A)
  : outcome (list B) :=
  match l with
  | [] => Ok []
  | x :: l' => y <- f x ;; ys <- map_m f l' ;; Ok (y :: ys)
  end.

(** The functions built around the decomposition and the frame loops raise
    three more exceptions. *)
Inductive exception : Set :=
| Exn (e : exn)
| UnboundLocalError
| ValueError
| IndexError.

(** Their runs: a value returned, an exception, or a step budget used up. *)
Inductive result (A : Type) : Type :=
| Done (a : A)
| Failed (e : exception)
| Unfinished.

Arguments Done {A} a.
Arguments Failed {A} e.
Arguments Unfinished {A}.

Definition of_outcome {A : Type} (m : outcome A) : result A :=
  match m with
  | Ok a => Done a
  | Raise e => Failed (Exn e)
  | OutOfFuel => Unfinished
  end.

Definition bind_result {A B : Type} (m : result A) (k : A -> result B)
  : result B :=
  match m with
  | Done a => k a
  | Failed e => Failed e
  | Unfinished => Unfinished
  end.

Notation "x <~ m ;; k" := (bind_result m (fun x => k))
  (at level 61, m at next level, right associativity).

(** [int(x)] of a float: rounding towards zero. *)
Definition py_int_of_float (x : Q) : Z := Z.quot (Qnum x) (Zpos (Qden x)).

(** ** Data model shared by the two scripts *)

(** [first_cut_height: float] holds an integer or [np.inf]. *)
Inductive height_t : Set :=
| Finite (h : Z)
| Inf.

Record Part : Set := mkPart {
  start : Z;
  end_ : Z;
  height : Z;
  is_left : bool
}.

Record Parts : Set := mkParts {
  parts : list Part;
  first_cut_height : height_t
}.

(** [int.bit_length()]: the number of binary digits of the absolute value. *)
Definition bit_length (x : Z) : Z :=
  match x with
  | Z0 => 0
  | Zpos p => Zpos (Pos.size p)
  | Zneg p => Zpos (Pos.size p)
  end.

(** A Python value that is an [int] or [None]. *)
Inductive pyval : Set :=
| PyNone
| PyInt (z : Z).

(** Arithmetic on two Python values: an [int] result when both are [int],
    [TypeError] when one of them is [None]. *)
Definition py_binop (f : Z -> Z -> Z) (x y : pyval) : outcome Z :=
  match x, y with
  | PyInt a, PyInt b => Ok (f a b)
  | _, _ => Raise TypeError
  end.

Definition py_sub : pyval -> pyval -> outcome Z := py_binop Z.sub.
Definition py_mul : pyval -> pyval -> outcome Z := py_binop Z.mul.
Definition py_and : pyval -> pyval -> outcome Z := py_binop Z.land.

(** [x // y] on integers rounds towards minus infinity, as [Z.div] does. *)
Definition py_floordiv (x y : pyval) : outcome Z :=
  match x, y with
  | PyInt a, PyInt b => if b =? 0 then Raise ZeroDivisionError else Ok (a / b)
  | _, _ => Raise TypeError
  end.

(** [x.bit_length()]: [None] has no such attribute. *)
Definition py_bit_length (x : pyval) : outcome Z :=
  match x with
  | PyInt a => Ok (bit_length a)
  | PyNone => Raise AttributeError
  end.

(** Use of a value where the code goes on to compute with an [int]. *)
Definition py_int (x : pyval) : outcome Z :=
  match x with
  | PyInt a => Ok a
  | PyNone => Raise TypeError
  end.

(** Truth value of an [int | None]: [None] and [0] are false. *)
Definition py_truthy (x : pyval) : bool :=
  match x with
  | PyNone => false
  | PyInt a => negb (a =? 0)
  end.

(** Comparisons of levels. *)
Definition Qltb (x y : Q) : bool := negb (Qle_bool y x).

(** [max(a, b)] of Python: [b] when [b > a], otherwise [a]. *)
Definition py_max (a b : Q) : Q := if Qltb a b then b else a.

(** Colours handed to the canvas. *)
Inductive Color : Set :=
| ColorMAGENTA
| ColorBLUE
| ColorRED
| ColorRGB (r g b : Z).

(** One line drawn for a segment: from position [seg_left] to position
    [seg_right], at height [seg_level]. *)
Record Segment : Set := mkSegment {
  seg_left : Z;
  seg_right : Z;
  seg_level : Q;
  seg_color : Color
}.

(** A yielded frame: what was drawn on its canvas, together with the value
    of [level] and of [intact] when it was drawn. *)
Record Frame : Set := mkFrame {
  frame_level : Q;
  frame_intact : bool;
  segments : list Segment
}.

(** An arrow of [draw_segment_tree]: the line from the point
    ([arrow_parent], [arrow_parent_level]) to the point
    ([arrow_child], [arrow_level]). *)
Record Arrow : Set := mkArrow {
  arrow_parent : Z;
  arrow_parent_level : Z;
  arrow_child : Q;
  arrow_level : Z
}.

(** What [draw_segment_tree] puts on its canvas. *)
Inductive Item : Set :=
| DrawnSegment (s : Segment)
| DrawnArrow (a : Arrow).

(** [intact = level > first_cut_level], with [first_cut_level] infinite when
    [first_cut_height] is, and [as_level(first_cut_height)] otherwise. *)
Definition is_intact (as_level : Z -> Z) (split : Parts) (level : Q) : bool :=
  match first_cut_height split with
  | Inf => false
  | Finite h => Qltb (inject_Z (as_level h)) level
  end.

(** ** animate.py *)

Module Animate.

(** [def lsb(x): return x & -x] *)
Definition lsb (x : Z) : Z := Z.land x (- x).

Definition _prev (x : Z) : Z := x - lsb x.
Definition _next (x : Z) : Z := x + lsb x.

(** The first loop of [into_parts]; the state is [(right_parts, right)]. *)
Definition right_cond (left : Z) (s : list Part * Z) : bool :=
  let right := snd s in (0 <? right) && (left <=? _prev right).

Definition right_body (s : list Part * Z) : list Part * Z :=
  let right_parts := fst s in
  let right := snd s in
  (right_parts ++ [mkPart (_prev right) right (lsb right) false], _prev right).

(** The second loop; the state is [(left_parts, left)] and [right] is the
    value the first loop left behind. *)
Definition left_cond (right : Z) (s : list Part * Z) : bool :=
  let left := snd s in (0 <? left) && (_next left <=? right).

Definition left_body (s : list Part * Z) : list Part * Z :=
  let left_parts := fst s in
  let left := snd s in
  (left_parts ++ [mkPart left (_next left) (lsb left) true], _next left).

(** Step budgets: the right cursor is positive and strictly decreasing, the
    left cursor strictly increasing and at most [right]. *)
Definition right_fuel (right : Z) : nat := S (Z.to_nat right).
Definition left_fuel (left right : Z) : nat := S (Z.to_nat (right - left)).

Definition right_loop (left right : Z) : outcome (list Part * Z) :=
  while (right_fuel right) (right_cond left) right_body ([], right).

Definition left_loop (left right : Z) : outcome (list Part * Z) :=
  while (left_fuel left right) (left_cond right) left_body ([], left).

Definition into_parts (left right : Z) : outcome Parts :=
  s <- right_loop left right ;;
  let right_parts := fst s in
  let right := snd s in
  s <- left_loop left right ;;
  let left_parts := fst s in
  let left := snd s in
  if negb (left =? right) then Raise AssertionError else
  let first_cut_height := lsb left in
  let first_cut_height :=
    if first_cut_height =? 0 then Inf else Finite first_cut_height in
  Ok (mkParts (left_parts ++ rev right_parts) first_cut_height).

(** [def round_up_to_pow2(x): return 1 << x.bit_length()] *)
Definition round_up_to_pow2 (x : Z) : Z := Z.shiftl 1 (bit_length x).

(** The local [as_level] of [animate], at an integer. *)
Definition as_level (logarithmic : bool) (x : Z) : Z :=
  if logarithmic then bit_length x else x.

(** The same function at an argument that may be [None]. *)
Definition as_level_dyn (logarithmic : bool) (x : pyval) : outcome pyval :=
  if logarithmic then b <- py_bit_length x ;; Ok (PyInt b) else Ok x.

(** [accelerate_intact], with [1 if logarithmic else 2] put in for [None]. *)
Definition default_accelerate_intact (logarithmic : bool)
  (accelerate_intact : option Q) : Q :=
  match accelerate_intact with
  | None => if logarithmic then 1%Q else 2%Q
  | Some a => a
  end.

(** [height = height or width * as_level(max_position) // max_position] *)
Definition default_height (logarithmic : bool) (width : Z)
  (height max_position : pyval) : outcome Z :=
  if py_truthy height then py_int height
  else
    a <- as_level_dyn logarithmic max_position ;;
    m <- py_mul (PyInt width) a ;;
    py_floordiv (PyInt m) max_position.

(** State of the frame loop: the frames yielded so far, [level], and the
    colour of the one [segment_paint] that every frame draws with. *)
Record LoopState : Set := mkLoopState {
  frames : list Frame;
  level : Q;
  paint : Color
}.

Definition part_color (part : Part) : Color :=
  if is_left part then ColorBLUE else ColorRED.

Definition part_segment (logarithmic : bool) (level : Q) (part : Part)
  : Segment :=
  let actual_level :=
    py_max level (inject_Z (as_level logarithmic (height part))) in
  mkSegment (start part) (end_ part) actual_level (part_color part).

(** One iteration of [while level > 0]. *)
Definition animate_body (logarithmic : bool) (left right : Z) (split : Parts)
  (level_step accelerate_intact : Q) (s : LoopState) : LoopState :=
  let level := level s in
  let intact := is_intact (as_level logarithmic) split level in
  let drawn :=
    if intact then [mkSegment left right level (paint s)]
    else map (part_segment logarithmic level) (parts split) in
  let paint :=
    if intact then paint s
    else last (map part_color (parts split)) (paint s) in
  let level :=
    Qred (level - level_step * (if intact then accelerate_intact else 1))%Q in
  mkLoopState (frames s ++ [mkFrame (Animate.level s) intact drawn]) level paint.

Definition animate_cond (s : LoopState) : bool := Qltb 0 (level s).

(** [max_level = as_level(max_position)] *)
Definition max_level (logarithmic : bool) (max_position : Z) : Z :=
  as_level logarithmic max_position.

(** [for position in range(max_position + 1)]: the lines of the slicers.
    At position 0 the loop divides by [max_position] (and by [max_level],
    which is zero only when [max_position] is); the range is empty when
    [max_position] is negative. *)
Definition draw_slicers (max_position : Z) : outcome unit :=
  if max_position =? 0 then Raise ZeroDivisionError else Ok tt.

(** The generator [animate], run until it is exhausted or [fuel] loop tests
    have been made; an exception is raised before the first frame. *)
Definition animate (left right : Z) (max_position : pyval) (width : Z)
  (height : pyval) (level_step : Q) (accelerate_intact : option Q)
  (logarithmic : bool) (fuel : nat) : outcome (list Frame) :=
  height <- default_height logarithmic width height max_position ;;
  let max_position :=
    match max_position with
    | PyNone => round_up_to_pow2 right
    | PyInt m => m
    end in
  let accelerate_intact :=
    default_accelerate_intact logarithmic accelerate_intact in
  let max_level := max_level logarithmic max_position in
  _ <- draw_slicers max_position ;;
  split <- into_parts left right ;;
  let level := inject_Z (as_level logarithmic max_position) in
  s <- while fuel animate_cond
         (animate_body logarithmic left right split level_step
            accelerate_intact)
         (mkLoopState [] level ColorMAGENTA) ;;
  Ok (frames s).

(** [with_pause_at_end], at the frames of a generator that ends normally.
    The loop variable [frame] is bound by the first iteration only, and
    [last_frame = frame] reads it. *)
Definition with_pause_at_end {A : Type} (frames : list A) (pause_frames : Z)
  : result (list A) :=
  let s :=
    fold_left (fun (s : list A * option A) frame => (fst s ++ [frame], Some frame))
      frames ([], None) in
  match snd s with
  | None => Failed UnboundLocalError
  | Some last_frame =>
      Done (fst s ++ repeat last_frame (Z.to_nat pause_frames))
  end.

(** The inner [_generate] of [generate_segment_tree_frames]:
    [animate(left, right, max_position=max_position,
             logarithmic=logarithmic)] with the other parameters at their
    defaults, then the pause. *)
Definition _generate (max_position : pyval) (pause_frames : Z)
  (logarithmic : bool) (fuel : nat) (left right : Z) : result (list Frame) :=
  frames <~ of_outcome
              (animate left right max_position 1024 PyNone (1 # 2) None
                 logarithmic fuel) ;;
  with_pause_at_end frames pause_frames.

Definition generate_segment_tree_frames (max_position : pyval)
  (pause_frames : Z) (logarithmic : bool) (fuel : nat)
  : result (list Frame) :=
  let _generate := _generate max_position pause_frames logarithmic fuel in
  a <~ _generate 9 29 ;;
  b <~ _generate 3 37 ;;
  c <~ _generate 32 49 ;;
  d <~ _generate 37 64 ;;
  e <~ _generate 0 15 ;;
  f <~ _generate 0 27 ;;
  Done (a ++ b ++ c ++ d ++ e ++ f).

Definition generate_fenwick_tree_frames (max_position : pyval)
  (pause_frames : Z) (fuel : nat) : result (list Frame) :=
  let _generate := _generate max_position pause_frames true fuel 0 in
  a <~ _generate 29 ;;
  b <~ _generate 37 ;;
  c <~ _generate 49 ;;
  d <~ _generate 64 ;;
  e <~ _generate 15 ;;
  f <~ _generate 27 ;;
  Done (a ++ b ++ c ++ d ++ e ++ f).

End Animate.

(** ** illustrate.py *)

Module Illustrate.

(** The attributes of a constructed [Drawer] that the algorithms read.
    [height_px] is [self.height]; the name [height] is that of the field
    of [Part]. *)
Record Drawer : Set := mkDrawer {
  max_position : Z;
  logarithmic : bool;
  max_level : Z;
  width : Z;
  vertical_stretch : Q;
  height_px : Z;
  level_step : Q;
  accelerate_intact : Q;
  intact_color : Color;
  left_color : Color;
  right_color : Color;
  level_ticks : bool
}.

(** [def _lsb(self, x): return x & -x] *)
Definition _lsb (x : Z) : Z := Z.land x (- x).

(** [_as_level] reads [self.logarithmic] only, which [__init__] sets before
    its first call. *)
Definition _as_level (logarithmic : bool) (x : Z) : Z :=
  if logarithmic then bit_length x else x.

(** [_round_up_to_pow2], at the constructor's [max_position], which may be
    [None]:
    [if x & (x - 1) == 0: return x] and [return 1 << x.bit_length()]. *)
Definition _round_up_to_pow2 (x : pyval) : outcome Z :=
  x1 <- py_sub x (PyInt 1) ;;
  a <- py_and x (PyInt x1) ;;
  if a =? 0 then py_int x
  else b <- py_bit_length x ;; Ok (Z.shiftl 1 b).

(** [Drawer.__init__], for the attributes the algorithms read. *)
Definition __init__ (max_position : pyval) (width : Z) (height : pyval)
  (vertical_stretch level_step : Q) (accelerate_intact : option Q)
  (logarithmic : bool) (intact_color left_color right_color : Color)
  (level_ticks : bool) : outcome Drawer :=
  r <- _round_up_to_pow2 max_position ;;
  let max_level := _as_level logarithmic r in
  max_position <- py_int max_position ;;
  height <-
    (if py_truthy height then py_int height
     else if max_position =? 0 then Raise ZeroDivisionError
     else Ok (Qfloor (inject_Z width
                      * (1 + (inject_Z max_level - 1) * vertical_stretch)
                      / inject_Z max_position)%Q)) ;;
  let accelerate_intact :=
    match accelerate_intact with
    | None => if logarithmic then 1%Q else 2%Q
    | Some a => a
    end in
  Ok (mkDrawer max_position logarithmic max_level width vertical_stretch
        height level_step accelerate_intact intact_color left_color
        right_color level_ticks).

Definition right_cond (left : Z) (s : list Part * Z) : bool :=
  let right := snd s in (0 <? right) && (left <=? right - _lsb right).

Definition right_body (s : list Part * Z) : list Part * Z :=
  let right_parts := fst s in
  let right := snd s in
  (right_parts ++ [mkPart (right - _lsb right) right (_lsb right) true],
   right - _lsb right).

Definition left_cond (right : Z) (s : list Part * Z) : bool :=
  let left := snd s in (0 <? left) && (left + _lsb left <=? right).

Definition left_body (s : list Part * Z) : list Part * Z :=
  let left_parts := fst s in
  let left := snd s in
  (left_parts ++ [mkPart left (left + _lsb left) (_lsb left) false],
   left + _lsb left).

Definition right_loop (left right : Z) : outcome (list Part * Z) :=
  while (S (Z.to_nat right)) (right_cond left) right_body ([], right).

Definition left_loop (left right : Z) : outcome (list Part * Z) :=
  while (S (Z.to_nat (right - left))) (left_cond right) left_body ([], left).

Definition _into_parts (self : Drawer) (left right : Z) : outcome Parts :=
  s <- right_loop left right ;;
  let right_parts := fst s in
  let right := snd s in
  s <- left_loop left right ;;
  let left_parts := fst s in
  let left := snd s in
  if negb (left =? right) then Raise AssertionError else
  let first_cut_height := _lsb left in
  let first_cut_height :=
    if first_cut_height =? 0 then Inf else Finite first_cut_height in
  Ok (mkParts (left_parts ++ rev right_parts) first_cut_height).

Definition _get_color (self : Drawer) (is_left : bool) : Color :=
  if is_left then left_color self else right_color self.

(** [_get_point]: the point itself is not modelled, its two divisions are,
    by [self.max_position] and by
    [level_denominator = 1 + (self.max_level - 1) * self.vertical_stretch]. *)
Definition _get_point (self : Drawer) : outcome unit :=
  if max_position self =? 0 then Raise ZeroDivisionError
  else if Qeq_bool (1 + (inject_Z (max_level self) - 1)
                        * vertical_stretch self)%Q 0
       then Raise ZeroDivisionError
       else Ok tt.

(** [_draw_spikes]: a point for each position of
    [range(self.max_position + 1)], then, with [level_ticks], one for each
    level of [range(1, self.max_level + 1)].  The calls of [_get_point] all
    raise or all return, so one call stands for each loop that is not
    empty. *)
Definition _draw_spikes (self : Drawer) : outcome unit :=
  _ <- (if 0 <=? max_position self then _get_point self else Ok tt) ;;
  if level_ticks self && (1 <=? max_level self) then _get_point self
  else Ok tt.

(** [_draw_segment]: the two end points, then the line, which the model
    records. *)
Definition _draw_segment (self : Drawer) (left right : Z) (level : Q)
  (color : Color) : outcome Segment :=
  _ <- _get_point self ;;
  _ <- _get_point self ;;
  Ok (mkSegment left right level color).

(** State of the frame loop: the frames yielded so far and [level]. *)
Record LoopState : Set := mkLoopState {
  frames : list Frame;
  level : Q
}.

(** One iteration of [while level >= 0]. *)
Definition animate_body (self : Drawer) (left right : Z) (split : Parts)
  (s : LoopState) : outcome LoopState :=
  let level := level s in
  let intact := is_intact (_as_level (logarithmic self)) split level in
  drawn <-
    (if intact then
       seg <- _draw_segment self left right level (intact_color self) ;;
       Ok [seg]
     else
       map_m (fun part =>
                let actual_level :=
                  py_max level
                    (inject_Z (_as_level (logarithmic self) (height part))) in
                let color := _get_color self (is_left part) in
                _draw_segment self (start part) (end_ part) actual_level color)
         (parts split)) ;;
  let level :=
    Qred (level
          - level_step self * (if intact then accelerate_intact self else 1))%Q
  in
  Ok (mkLoopState (frames s ++ [mkFrame (Illustrate.level s) intact drawn])
        level).

Definition animate_cond (s : LoopState) : bool := Qle_bool 0 (level s).

(** The generator [Drawer.animate], run until it is exhausted or [fuel] loop
    tests have been made. *)
Definition animate (self : Drawer) (left right : Z) (start_level : option Q)
  (fuel : nat) : outcome (list Frame) :=
  _ <- _draw_spikes self ;;
  split <- _into_parts self left right ;;
  let level :=
    match start_level with
    | None => inject_Z (max_level self)
    | Some l => l
    end in
  s <- while_m fuel animate_cond (animate_body self left right split)
         (mkLoopState [] level) ;;
  Ok (frames s).

(** [draw_left_right]: the segments it draws, in order. *)
Definition draw_left_right (self : Drawer) (position : Z)
  : outcome (list Segment) :=
  let lsb := _lsb position in
  let left := position - lsb in
  let right := position + lsb in
  let level := _as_level (logarithmic self) lsb in
  a <- _draw_segment self left position (inject_Z level) (left_color self) ;;
  b <- _draw_segment self position right (inject_Z level) (right_color self) ;;
  _ <- _draw_spikes self ;;
  Ok [a; b].

(** The loop of [draw_fenwick_update]; the state is [(position, drawn)]. *)
Definition fenwick_update_cond (self : Drawer) (s : Z * list Segment) : bool :=
  fst s <=? max_position self.

Definition fenwick_update_body (self : Drawer) (s : Z * list Segment)
  : outcome (Z * list Segment) :=
  let position := fst s in
  let lsb := _lsb position in
  let left := position - lsb in
  let level := _as_level (logarithmic self) lsb in
  seg <- _draw_segment self left position (inject_Z level) (left_color self) ;;
  Ok (position + lsb, snd s ++ [seg]).

(** [draw_fenwick_update]: the segments it draws, in order, within [fuel]
    tests of its loop. *)
Definition draw_fenwick_update (self : Drawer) (position : Z) (fuel : nat)
  : outcome (list Segment) :=
  drawn <-
    (if negb (position mod 2 =? 0) then
       seg <- _draw_segment self position (position + 1) 1 (right_color self) ;;
       Ok [seg]
     else Ok []) ;;
  let position := position + 1 in
  s <- while_m fuel (fenwick_update_cond self) (fenwick_update_body self)
         (position, drawn) ;;
  _ <- _draw_spikes self ;;
  Ok (snd s).

(** [_get_point] at the two ends of an arrow, from the middle of a parent
    block down to the middle of a child; the arrow head and the shift by
    half a stroke are pixel matters. *)
Definition _draw_arrow (self : Drawer) (parent : Z) (parent_level : Z)
  (child : Q) (level : Z) : outcome Arrow :=
  _ <- _get_point self ;;
  _ <- _get_point self ;;
  Ok (mkArrow parent parent_level child level).

(** The inner loop of [draw_segment_tree], [while True] left by [break]
    when [right > self.max_position]; the state is [(index, drawn)]. *)
Definition segment_tree_cond (self : Drawer) (length : Z)
  (s : Z * list Item) : bool :=
  let index := fst s in
  let left := index * length in
  let right := left + length in
  negb (max_position self <? right).

Definition segment_tree_body (self : Drawer) (arrows fenwick : bool)
  (length : Z) (s : Z * list Item) : outcome (Z * list Item) :=
  let index := fst s in
  let parent_length := length * 2 in
  let level := _as_level (logarithmic self) length in
  let parent_level := _as_level (logarithmic self) parent_length in
  let left := index * length in
  let right := left + length in
  let is_left := index mod 2 =? 0 in
  drawn <-
    (if is_left || negb fenwick then
       seg <- _draw_segment self left right (inject_Z level)
                (_get_color self is_left) ;;
       Ok (snd s ++ [DrawnSegment seg])
     else Ok (snd s)) ;;
  drawn <-
    (if arrows && (level <? max_level self) then
       a <- _draw_arrow self (if is_left then right else left) parent_level
              (Qred ((inject_Z left + inject_Z right) / 2))%Q level ;;
       Ok (drawn ++ [DrawnArrow a])
     else Ok drawn) ;;
  Ok (index + 1, drawn).

(** Step budget of the two loops: [index] and [length] stay positive and
    below [max_position]. *)
Definition segment_tree_fuel (self : Drawer) : nat :=
  S (Z.to_nat (max_position self)).

(** The outer loop, [while length <= self.max_position]; the state is
    [(length, drawn)]. *)
Definition segment_tree_levels_cond (self : Drawer) (s : Z * list Item)
  : bool :=
  fst s <=? max_position self.

Definition segment_tree_levels_body (self : Drawer) (arrows fenwick : bool)
  (s : Z * list Item) : outcome (Z * list Item) :=
  let length := fst s in
  let parent_length := length * 2 in
  r <- while_m (segment_tree_fuel self) (segment_tree_cond self length)
         (segment_tree_body self arrows fenwick length) (0, snd s) ;;
  Ok (parent_length, snd r).

(** [draw_segment_tree]: what it draws, in order. *)
Definition draw_segment_tree (self : Drawer) (arrows fenwick : bool)
  : result (list Item) :=
  if fenwick && arrows then Failed ValueError
  else
    of_outcome
      (s <- while_m (segment_tree_fuel self) (segment_tree_levels_cond self)
              (segment_tree_levels_body self arrows fenwick) (1, []) ;;
       _ <- _draw_spikes self ;;
       Ok (snd s)).

(** [add_pause]: the items, then [None]. *)
Definition add_pause {A : Type} (items : list A) : list (option A) :=
  map Some items ++ [None].

(** One iteration of the loop of [save_animation]; the state is
    [(frames, durations)]. *)
Definition save_animation_step {A : Type} (fps pause_seconds : Q)
  (s : list A * list Z) (frame : option A) : result (list A * list Z) :=
  let frames := fst s in
  let durations := snd s in
  match frame with
  | None =>
      match rev durations with
      | [] => Failed IndexError
      | d :: before =>
          Done (frames,
                rev before ++ [d + py_int_of_float (1000 * pause_seconds)])
      end
  | Some frame =>
      if Qeq_bool fps 0 then Failed (Exn ZeroDivisionError)
      else Done (frames ++ [frame], durations ++ [Qfloor (1000 / fps)])
  end.

Fixpoint save_animation_loop {A : Type} (fps pause_seconds : Q)
  (items : list (option A)) (s : list A * list Z)
  : result (list A * list Z) :=
  match items with
  | [] => Done s
  | frame :: items' =>
      s' <~ save_animation_step fps pause_seconds s frame ;;
      save_animation_loop fps pause_seconds items' s'
  end.

(** [save_animation], at the items of a frame generator that ends
    normally: the frames and durations handed to [imageio.mimwrite]. *)
Definition save_animation {A : Type} (fps pause_seconds : Q)
  (items : list (option A)) : result (list A * list Z) :=
  save_animation_loop fps pause_seconds items ([], []).

Definition generate_segment_tree_frames (drawer : Drawer) (pause_frames : Z)
  (fuel : nat) : outcome (list (option Frame)) :=
  a <- animate drawer 9 29 None fuel ;;
  b <- animate drawer 3 37 None fuel ;;
  c <- animate drawer 32 49 None fuel ;;
  d <- animate drawer 37 64 None fuel ;;
  e <- animate drawer 0 15 None fuel ;;
  f <- animate drawer 0 27 None fuel ;;
  Ok (add_pause a ++ add_pause b ++ add_pause c ++ add_pause d
      ++ add_pause e ++ add_pause f).

Definition generate_fenwick_tree_frames (drawer : Drawer) (pause_frames : Z)
  (fuel : nat) : outcome (list (option Frame)) :=
  a <- animate drawer 0 29 None fuel ;;
  b <- animate drawer 0 37 None fuel ;;
  c <- animate drawer 0 49 None fuel ;;
  d <- animate drawer 0 64 None fuel ;;
  e <- animate drawer 0 15 None fuel ;;
  f <- animate drawer 0 27 None fuel ;;
  Ok (add_pause a ++ add_pause b ++ add_pause c ++ add_pause d
      ++ add_pause e ++ add_pause f).

End Illustrate.

(** The default [intact_color], [left_color] and [right_color]. *)
Definition default_colors
  (k : Color -> Color -> Color -> outcome Illustrate.Drawer)
  : outcome Illustrate.Drawer :=
  k (ColorRGB 241 194 50) (ColorRGB 140 173 237) (ColorRGB 223 129 184).

(** Two drawers built by the script:
    [Drawer(max_position=64, logarithmic=True, vertical_stretch=1.5,
            level_step=0.25)] and [Drawer(max_position=64)]. *)
Definition log_drawer_init : outcome Illustrate.Drawer :=
  default_colors
    (fun intact_color left_color right_color =>
       Illustrate.__init__ (PyInt 64) 1024 PyNone (3 # 2) (1 # 4) None true
         intact_color left_color right_color false).

Definition drawer_init : outcome Illustrate.Drawer :=
  default_colors
    (fun intact_color left_color right_color =>
       Illustrate.__init__ (PyInt 64) 1024 PyNone 1 (1 # 2) None false
         intact_color left_color right_color false).

(** The objects these two calls construct. *)
Definition log_drawer : Illustrate.Drawer :=
  Illustrate.mkDrawer 64 true 7 1024 (3 # 2) 160 (1 # 4) 1
    (ColorRGB 241 194 50) (ColorRGB 140 173 237) (ColorRGB 223 129 184) false.

Definition drawer : Illustrate.Drawer :=
  Illustrate.mkDrawer 64 false 64 1024 1 1024 (1 # 2) 2
    (ColorRGB 241 194 50) (ColorRGB 140 173 237) (ColorRGB 223 129 184) false.

(** * Vocabulary of the properties *)

(** A function applied to the value a run returns. *)
Definition map_outcome {A B : Type} (f : A -> B) (m : outcome A) : outcome B :=
  match m with
  | Ok a => Ok (f a)
  | Raise e => Raise e
  | OutOfFuel => OutOfFuel
  end.

(** [chain a ps b]: the parts [ps] follow one another from [a] to [b]. *)
Fixpoint chain (a : Z) (ps : list Part) (b : Z) : Prop :=
  match ps with
  | [] => a = b
  | p :: ps' => start p = a /\ chain (end_ p) ps' b
  end.

(** [h] is a power of two. *)
Definition is_pow2 (h : Z) : Prop := exists k, 0 <= k /\ h = 2 ^ k.

(** A part is a block: it is as wide as its height, a power of two. *)
Definition block (p : Part) : Prop :=
  end_ p - start p = height p /\ is_pow2 (height p).

(** What a loop emits: blocks, all carrying the same flag. *)
Definition emitted (flag : bool) (p : Part) : Prop :=
  block p /\ is_left p = flag.

(** The value [into_parts] returns once the cursors have met at [m]. *)
Definition cut_height (m : Z) : height_t :=
  if Animate.lsb m =? 0 then Inf else Finite (Animate.lsb m).

(** The same part with the opposite flag. *)
Definition flip_part (p : Part) : Part :=
  mkPart (start p) (end_ p) (height p) (negb (is_left p)).

(** A loop state, and a result, with the flags of all parts negated. *)
Definition flip_state (s : list Part * Z) : list Part * Z :=
  (map flip_part (fst s), snd s).

Definition flip_parts (ps : Parts) : Parts :=
  mkParts (map flip_part (parts ps)) (first_cut_height ps).

(** The triple (start, end, height) of a part. *)
Definition geometry (p : Part) : Z * Z * Z := (start p, end_ p, height p).

(** The tiling property, as the specification words it: the first part
    starts at [l], adjacent parts touch, the last part ends at [r]. *)
Definition tiling (l r : Z) (ps : list Part) : Prop :=
  (forall p, hd_error ps = Some p -> start p = l) /\
  (forall i p q,
      nth_error ps i = Some p -> nth_error ps (S i) = Some q ->
      end_ p = start q) /\
  (forall p, nth_error ps (length ps - 1) = Some p -> end_ p = r).

(** A decomposition that returned normally, with parts tiling [[l, r)]. *)
Definition tiled_result (l r : Z) (res : outcome Parts) : Prop :=
  exists ps fch,
    res = Ok (mkParts ps fch) /\ tiling l r ps /\ Forall block ps /\
    (ps = [] -> l = r).

(** The six blocks of the range [[9, 29)], flagged [a] on the left of the
    meeting point 16 and [b] on its right. *)
Definition parts_9_29 (a b : bool) : list Part :=
  [mkPart 9 10 1 a; mkPart 10 12 2 a; mkPart 12 16 4 a;
   mkPart 16 24 8 b; mkPart 24 28 4 b; mkPart 28 29 1 b].

(** The value of [level] after a frame has been yielded:
    [level -= level_step * (accelerate_intact if intact else 1)]. *)
Definition next_level (level_step accelerate_intact : Q) (f : Frame) : Q :=
  Qred (frame_level f
        - level_step * (if frame_intact f then accelerate_intact else 1))%Q.

(** [countdown next l fs l']: the frames [fs] were yielded at the successive
    values of [level], from [l] on, and [l'] is the value after the last. *)
Fixpoint countdown (next : Frame -> Q) (l : Q) (fs : list Frame) (l' : Q)
  : Prop :=
  match fs with
  | [] => l = l'
  | f :: fs' => frame_level f = l /\ countdown next (next f) fs' l'
  end.

(** The segments of a frame in which the range is cut into [ps]: every part
    at the larger of the frame's level and the part's own level. *)
Definition cut_segments (as_level : Z -> Z) (color : bool -> Color)
  (level : Q) (ps : list Part) : list Segment :=
  map (fun part =>
         mkSegment (start part) (end_ part)
           (py_max level (inject_Z (as_level (height part))))
           (color (is_left part))) ps.

(** One iteration of the frame loop of illustrate.py when no drawing call
    raises. *)
Definition illustrate_step (self : Illustrate.Drawer) (left right : Z)
  (split : Parts) (s : Illustrate.LoopState) : Illustrate.LoopState :=
  let level := Illustrate.level s in
  let as_level := Illustrate._as_level (Illustrate.logarithmic self) in
  let intact := is_intact as_level split level in
  let drawn :=
    if intact then [mkSegment left right level (Illustrate.intact_color self)]
    else cut_segments as_level (Illustrate._get_color self) level
           (parts split) in
  Illustrate.mkLoopState
    (Illustrate.frames s ++ [mkFrame level intact drawn])
    (next_level (Illustrate.level_step self)
       (Illustrate.accelerate_intact self) (mkFrame level intact drawn)).

(** Invariant of the frame loop of illustrate.py, for a lower bound [d] of
    the decrements: the frames yielded so far count down from [level0] to
    the current level, each at a level that is not negative, and [n0]
    bounds the frames yielded plus those still to come. *)
Definition illustrate_inv (self : Illustrate.Drawer) (d level0 : Q) (n0 : nat)
  (s : Illustrate.LoopState) : Prop :=
  let next :=
    next_level (Illustrate.level_step self) (Illustrate.accelerate_intact self)
  in
  countdown next level0 (Illustrate.frames s) (Illustrate.level s) /\
  Forall (fun f => (0 <= frame_level f)%Q /\
                   (next f <= frame_level f - d)%Q)
    (Illustrate.frames s) /\
  (length (Illustrate.frames s)
   + Z.to_nat (Qfloor (Illustrate.level s / d) + 1) <= n0)%nat.

(** The same for animate.py, whose frames are at positive levels. *)
Definition animate_inv (step accel d level0 : Q) (n0 : nat)
  (s : Animate.LoopState) : Prop :=
  let next := next_level step accel in
  countdown next level0 (Animate.frames s) (Animate.level s) /\
  Forall (fun f => (0 < frame_level f)%Q /\
                   (next f <= frame_level f - d)%Q)
    (Animate.frames s) /\
  (length (Animate.frames s)
   + Z.to_nat (Qceiling (Animate.level s / d)) <= n0)%nat.

(** [index % 2 == 0] for the block [part] among the blocks of its size:
    the test by which [draw_segment_tree] colours a block as a left one. *)
Definition left_child (part : Part) : bool :=
  Z.even (start part / height part).

(** A part is aligned: its two ends are multiples of its height. *)
Definition aligned (p : Part) : Prop :=
  (height p | start p) /\ (height p | end_ p).

(** A part is the node of the Fenwick tree that ends at [end_ p]. *)
Definition fenwick_node (p : Part) : Prop :=
  0 < end_ p /\ height p = Animate.lsb (end_ p) /\
  start p = end_ p - Animate.lsb (end_ p).

(** [seg_chain a segs b]: the segments follow one another from [a] to
    [b]. *)
Fixpoint seg_chain (a : Z) (segs : list Segment) (b : Z) : Prop :=
  match segs with
  | [] => a = b
  | s :: segs' => seg_left s = a /\ seg_chain (seg_right s) segs' b
  end.

(** The frames among the items of a generator, and the number of its
    pauses. *)
Definition frames_of {A : Type} (items : list (option A)) : list A :=
  flat_map (fun x => match x with Some a => [a] | None => [] end) items.

Definition pauses_of {A : Type} (items : list (option A)) : Z :=
  Z.of_nat (length (filter (fun x => match x with
                                     | Some _ => false
                                     | None => true
                                     end) items)).

Definition total (durations : list Z) : Z := fold_right Z.add 0 durations.

(** The durations of one animation of [n] frames: [d] for each frame, and
    the pause [p] added to the last. *)
Definition held (d p : Z) (n : nat) : list Z :=
  repeat d (Nat.pred n) ++ [d + p].

(** What a frame shows: the whole range, at levels from 1 up. *)
Definition shows_range (left right : Z) (f : Frame) : Prop :=
  seg_chain left (segments f) right /\
  Forall (fun s => (1 <= seg_level s)%Q) (segments f).

(** The frames split into those of the intact range, each one segment of
    colour [c], and after them those of the parts. *)
Definition intact_then_cut (left right : Z) (c : Color) (fs : list Frame)
  : Prop :=
  exists fs1 fs2,
    fs = fs1 ++ fs2 /\
    Forall (fun f => frame_intact f = true /\
                     segments f = [mkSegment left right (frame_level f) c])
      fs1 /\
    Forall (fun f => frame_intact f = false) fs2.

(** A part drawn at its own level. *)
Definition settled (self : Illustrate.Drawer) (part : Part) : Segment :=
  mkSegment (start part) (end_ part)
    (inject_Z (Illustrate._as_level (Illustrate.logarithmic self)
                 (height part)))
    (Illustrate._get_color self (is_left part)).

(** What [draw_fenwick_update] draws: the cell of an odd [position], and
    the node of the Fenwick tree that ends at [p]. *)
Definition update_cell (self : Illustrate.Drawer) (position : Z)
  : list Segment :=
  if position mod 2 =? 0 then []
  else [mkSegment position (position + 1) 1 (Illustrate.right_color self)].

Definition update_node (self : Illustrate.Drawer) (p : Z) : Segment :=
  mkSegment (p - Illustrate._lsb p) p
    (inject_Z (Illustrate._as_level (Illustrate.logarithmic self)
                 (Illustrate._lsb p)))
    (Illustrate.left_color self).

(** The node that ends at [p] covers the cell [position, position + 1). *)
Definition covers (p position : Z) : Prop :=
  p - Illustrate._lsb p <= position < p.

(** One iteration of the loop of [draw_fenwick_update] when the points are
    defined. *)
Definition fenwick_update_step (self : Illustrate.Drawer)
  (s : Z * list Segment) : Z * list Segment :=
  (fst s + Illustrate._lsb (fst s), snd s ++ [update_node self (fst s)]).

(** Invariant of that loop: the cursor covers the cell, and the nodes drawn
    so far are those below the cursor that cover it. *)
Definition update_inv (self : Illustrate.Drawer) (position : Z)
  (s : Z * list Segment) : Prop :=
  covers (fst s) position /\
  exists ps,
    snd s = update_cell self position ++ map (update_node self) ps /\
    StronglySorted Z.lt ps /\
    (forall p, In p ps <->
               p < fst s /\ p <= Illustrate.max_position self /\
               covers p position) /\
    (ps = [] \/
     2 ^ Z.of_nat (length ps) <= 2 * Illustrate.max_position self) /\
    2 ^ Z.of_nat (length ps) <= Illustrate._lsb (fst s).

(** The block number [index] of the row of blocks of width [length], as
    [draw_segment_tree] draws it. *)
Definition tree_segment (self : Illustrate.Drawer) (length index : Z)
  : Segment :=
  mkSegment (index * length) (index * length + length)
    (inject_Z (Illustrate._as_level (Illustrate.logarithmic self) length))
    (Illustrate._get_color self (index mod 2 =? 0)).

(** A part is the block number [i] of the row of width [2 ^ k]. *)
Definition tree_block (p : Part) (k i : Z) : Prop :=
  0 <= k /\ 0 <= i /\ height p = 2 ^ k /\ start p = i * 2 ^ k /\
  end_ p = (i + 1) * 2 ^ k.

(** The arrow from the parent of that block down to it. *)
Definition tree_arrow (self : Illustrate.Drawer) (length index : Z) : Arrow :=
  mkArrow
    (if index mod 2 =? 0 then index * length + length else index * length)
    (Illustrate._as_level (Illustrate.logarithmic self) (length * 2))
    (Qred ((inject_Z (index * length) + inject_Z (index * length + length))
           / 2))%Q
    (Illustrate._as_level (Illustrate.logarithmic self) length).

(** What one iteration of the inner loop of [draw_segment_tree] draws. *)
Definition node_items (self : Illustrate.Drawer) (arrows fenwick : bool)
  (length index : Z) : list Item :=
  (if (index mod 2 =? 0) || negb fenwick
   then [DrawnSegment (tree_segment self length index)] else [])
  ++ (if arrows
         && (Illustrate._as_level (Illustrate.logarithmic self) length
             <? Illustrate.max_level self)
      then [DrawnArrow (tree_arrow self length index)] else []).

Definition segment_tree_step (self : Illustrate.Drawer)
  (arrows fenwick : bool) (length : Z) (s : Z * list Item) : Z * list Item :=
  (fst s + 1, snd s ++ node_items self arrows fenwick length (fst s)).

(** [range(first, first + count)]. *)
Fixpoint indices (first : Z) (count : nat) : list Z :=
  match count with
  | O => []
  | S count' => first :: indices (first + 1) count'
  end.

(** A whole row of blocks of width [length], and one iteration of the outer
    loop. *)
Definition tree_row (self : Illustrate.Drawer) (arrows fenwick : bool)
  (length : Z) : list Item :=
  flat_map (node_items self arrows fenwick length)
    (indices 0 (Z.to_nat (Illustrate.max_position self / length))).

Definition segment_tree_levels_step (self : Illustrate.Drawer)
  (arrows fenwick : bool) (s : Z * list Item) : Z * list Item :=
  (fst s * 2, snd s ++ tree_row self arrows fenwick (fst s)).

(** The rows of widths [1, 2, 4, ...], as many as [max_position] has
    bits. *)
Definition tree_picture (self : Illustrate.Drawer) (arrows fenwick : bool)
  : list Item :=
  flat_map (fun k => tree_row self arrows fenwick (2 ^ k))
    (indices 0 (Z.to_nat (bit_length (Illustrate.max_position self)))).

(** * Properties *)

(** ** Outcomes and loops *)

(** Total correctness of a loop: an invariant [I] and a measure [m] that
    each iteration decreases give a final state within any budget larger
    than the measure. *)
Lemma while_total {S : Type} (I : S -> Prop) (m : S -> nat)
  (cond : S -> bool) (body : S -> S) :
  (forall s, I s -> cond s = true -> I (body s) /\ (m (body s) < m s)%nat) ->
  forall fuel s, I s -> (m s < fuel)%nat ->
  exists s', while fuel cond body s = Ok s' /\ I s' /\ cond s' = false.
Proof.
  intros Hstep fuel.
  induction fuel as [|fuel IH]; intros s HI Hm; [lia|].
  simpl. destruct (cond s) eqn:Hc.
  - destruct (Hstep s HI Hc) as [HI' Hm'].
    apply IH; [assumption | lia].
  - exists s. auto.
Qed.

(** Partial correctness: an invariant holds of any final state. *)
Lemma while_invariant {S : Type} (I : S -> Prop) (cond : S -> bool)
  (body : S -> S) :
  (forall s, I s -> cond s = true -> I (body s)) ->
  forall fuel s s', I s -> while fuel cond body s = Ok s' ->
                    I s' /\ cond s' = false.
Proof.
  intros Hstep fuel.
  induction fuel as [|fuel IH]; intros s s' HI Hrun; simpl in Hrun;
    [discriminate|].
  destruct (cond s) eqn:Hc.
  - apply (IH (body s)); [now apply Hstep | assumption].
  - injection Hrun as <-. auto.
Qed.

(** Two loops that step in lockstep through states related by [f]. *)
Lemma while_map {S T : Type} (f : S -> T) (cond1 : S -> bool)
  (body1 : S -> S) (cond2 : T -> bool) (body2 : T -> T) :
  (forall s, cond2 (f s) = cond1 s) ->
  (forall s, body2 (f s) = f (body1 s)) ->
  forall fuel s,
    while fuel cond2 body2 (f s) = map_outcome f (while fuel cond1 body1 s).
Proof.
  intros Hc Hb fuel.
  induction fuel as [|fuel IH]; intros s; simpl; [reflexivity|].
  rewrite Hc. destruct (cond1 s); [|reflexivity].
  rewrite Hb. apply IH.
Qed.

(** A loop of the model never raises. *)
Lemma while_no_raise {S : Type} (cond : S -> bool) (body : S -> S) fuel s e :
  while fuel cond body s <> Raise e.
Proof.
  revert s. induction fuel as [|fuel IH]; intros s; simpl; [discriminate|].
  destruct (cond s); [apply IH | discriminate].
Qed.

(** A larger budget does not change a result already reached. *)
Lemma while_fuel_mono {S : Type} (cond : S -> bool) (body : S -> S) :
  forall fuel fuel' s s',
    (fuel <= fuel')%nat ->
    while fuel cond body s = Ok s' -> while fuel' cond body s = Ok s'.
Proof.
  induction fuel as [|fuel IH]; intros fuel' s s' Hle H; simpl in H;
    [discriminate|].
  destruct fuel' as [|fuel']; [lia|]. simpl.
  destruct (cond s); [|assumption].
  apply (IH fuel'); [lia | assumption].
Qed.

(** A loop whose body never raises is a loop with a pure body. *)
Lemma while_m_pure {S : Type} (cond : S -> bool) (body_m : S -> outcome S)
  (body : S -> S) :
  (forall s, body_m s = Ok (body s)) ->
  forall fuel s, while_m fuel cond body_m s = while fuel cond body s.
Proof.
  intros Hb fuel. induction fuel as [|fuel IH]; intros s; simpl;
    [reflexivity|].
  destruct (cond s); [|reflexivity]. rewrite Hb. simpl. apply IH.
Qed.

(** A run that returns went through iterations that all returned. *)
Lemma while_m_ok {S : Type} (cond : S -> bool) (body_m : S -> outcome S)
  (body : S -> S) :
  (forall s s', body_m s = Ok s' -> s' = body s) ->
  forall fuel s s',
    while_m fuel cond body_m s = Ok s' -> while fuel cond body s = Ok s'.
Proof.
  intros Hb fuel. induction fuel as [|fuel IH]; intros s s' H; simpl in *;
    [discriminate|].
  destruct (cond s); [|assumption].
  destruct (body_m s) as [s1| |] eqn:H1; simpl in H; try discriminate.
  rewrite <- (Hb s s1 H1). now apply IH.
Qed.

(** ** The lowest set bit *)

Section Bits.

Import Animate.

Lemma land_even_even a b : Z.land (2 * a) (2 * b) = 2 * Z.land a b.
Proof.
  apply Z.bits_inj'. intros n Hn.
  rewrite Z.land_spec.
  destruct (Z.eq_dec n 0) as [->|Hne].
  - now rewrite !Z.testbit_even_0.
  - replace n with (Z.succ (n - 1)) by lia.
    rewrite !Z.testbit_even_succ by lia.
    now rewrite Z.land_spec.
Qed.

Lemma land_odd_odd a b : Z.land (2 * a + 1) (2 * b + 1) = 2 * Z.land a b + 1.
Proof.
  apply Z.bits_inj'. intros n Hn.
  rewrite Z.land_spec.
  destruct (Z.eq_dec n 0) as [->|Hne].
  - now rewrite !Z.testbit_odd_0.
  - replace n with (Z.succ (n - 1)) by lia.
    rewrite !Z.testbit_odd_succ by lia.
    now rewrite Z.land_spec.
Qed.

Lemma land_odd_even a b : Z.land (2 * a + 1) (2 * b) = 2 * Z.land a b.
Proof.
  apply Z.bits_inj'. intros n Hn.
  rewrite Z.land_spec.
  destruct (Z.eq_dec n 0) as [->|Hne].
  - now rewrite Z.testbit_odd_0, !Z.testbit_even_0.
  - replace n with (Z.succ (n - 1)) by lia.
    rewrite Z.testbit_odd_succ, !Z.testbit_even_succ by lia.
    now rewrite Z.land_spec.
Qed.

Lemma lsb_0 : lsb 0 = 0.
Proof. reflexivity. Qed.

Lemma lsb_double x : lsb (2 * x) = 2 * lsb x.
Proof.
  unfold lsb. replace (- (2 * x)) with (2 * - x) by lia.
  apply land_even_even.
Qed.

Lemma lsb_odd x : lsb (2 * x + 1) = 1.
Proof.
  unfold lsb. replace (- (2 * x + 1)) with (2 * Z.lnot x + 1)
    by (unfold Z.lnot; lia).
  rewrite land_odd_odd, Z.land_lnot_diag. reflexivity.
Qed.

Lemma lsb_opp x : lsb (- x) = lsb x.
Proof. unfold lsb. rewrite Z.opp_involutive. apply Z.land_comm. Qed.

Lemma lsb_mul_pow2 k x : 0 <= k -> lsb (2 ^ k * x) = 2 ^ k * lsb x.
Proof.
  intros Hk. revert x. pattern k. apply natlike_ind; [| |assumption].
  - intros x. rewrite Z.pow_0_r. now rewrite !Z.mul_1_l.
  - intros j Hj IH x. rewrite Z.pow_succ_r by assumption.
    rewrite <- !Z.mul_assoc, lsb_double, IH. reflexivity.
Qed.

(** A positive integer is an odd multiple of its lowest set bit, which is a
    power of two. *)
Lemma lsb_decomp x :
  0 < x -> exists k q, 0 <= k /\ 0 <= q /\ x = 2 ^ k * (2 * q + 1) /\ lsb x = 2 ^ k.
Proof.
  destruct x as [|p|p]; try lia. intros _.
  induction p as [p IH|p IH|].
  - exists 0, (Zpos p). rewrite Pos2Z.inj_xI, lsb_odd. simpl. lia.
  - destruct IH as (k & q & Hk & Hq & Hx & Hl).
    exists (Z.succ k), q. rewrite Pos2Z.inj_xO, lsb_double, Hl.
    rewrite Z.pow_succ_r by assumption. repeat split; try lia.
  - exists 0, 0. repeat split; try lia.
Qed.

Lemma lsb_pos x : 0 < x -> 0 < lsb x <= x.
Proof.
  intros Hx. destruct (lsb_decomp x Hx) as (k & q & Hk & Hq & Hxe & Hl).
  assert (0 < 2 ^ k) by (apply Z.pow_pos_nonneg; lia).
  rewrite Hl. nia.
Qed.

Lemma lsb_pow2 x : 0 < x -> exists k, 0 <= k /\ lsb x = 2 ^ k.
Proof.
  intros Hx. destruct (lsb_decomp x Hx) as (k & q & Hk & _ & _ & Hl).
  exists k. auto.
Qed.

(** The step that makes the two cursors meet: below [r], and above the
    block that ends at [r], every position can jump without passing [r]. *)
Lemma next_below l r :
  0 < l -> l < r -> r - lsb r < l -> l + lsb l <= r.
Proof.
  intros Hl Hlr Hlow.
  destruct (lsb_decomp l Hl) as (kl & ql & Hkl & Hql & Hle & Hll).
  destruct (lsb_decomp r) as (kr & qr & Hkr & Hqr & Hre & Hlr'); [lia|].
  rewrite Hll. rewrite Hlr' in Hlow.
  assert (Hpl : 0 < 2 ^ kl) by (apply Z.pow_pos_nonneg; lia).
  assert (Hpr : 0 < 2 ^ kr) by (apply Z.pow_pos_nonneg; lia).
  destruct (Z_lt_le_dec kl kr) as [Hlt|Hge].
  - assert (Hsplit : 2 ^ kr = 2 ^ kl * 2 ^ (kr - kl)).
    { rewrite <- Z.pow_add_r by lia. f_equal. lia. }
    remember (2 ^ (kr - kl) * (2 * qr + 1)) as N eqn:HN.
    assert (Hr : r = 2 ^ kl * N) by (subst N; rewrite Hre, Hsplit; ring).
    clear HN Hsplit Hre Hlr' Hll Hlow.
    assert (HN : 2 * ql + 1 < N).
    { apply Z.mul_lt_mono_pos_l with (p := 2 ^ kl); lia. }
    subst l r. nia.
  - exfalso.
    assert (Hsplit : 2 ^ kl = 2 ^ kr * 2 ^ (kl - kr)).
    { rewrite <- Z.pow_add_r by lia. f_equal. lia. }
    remember (2 ^ (kl - kr) * (2 * ql + 1)) as M eqn:HM.
    assert (Hl' : l = 2 ^ kr * M) by (subst M; rewrite Hle, Hsplit; ring).
    clear HM Hsplit Hle Hlr' Hll.
    assert (HM : M < 2 * qr + 1).
    { apply Z.mul_lt_mono_pos_l with (p := 2 ^ kr); lia. }
    assert (HM' : 2 * qr < M).
    { apply Z.mul_lt_mono_pos_l with (p := 2 ^ kr); lia. }
    lia.
Qed.

(** A jump of the left cursor at least doubles the lowest set bit. *)
Lemma lsb_next x : 0 < x -> 2 * lsb x <= lsb (_next x).
Proof.
  intros Hx. unfold _next.
  destruct (lsb_decomp x Hx) as (k & q & Hk & Hq & Hxe & Hl).
  rewrite Hl.
  replace (x + 2 ^ k) with (2 ^ k * (2 * (q + 1))) by (rewrite Hxe at 1; ring).
  rewrite lsb_mul_pow2, lsb_double by assumption.
  assert (0 < 2 ^ k) by (apply Z.pow_pos_nonneg; lia).
  pose proof (lsb_pos (q + 1)). nia.
Qed.

(** [x & (x - 1)] clears the lowest set bit. *)
Lemma land_pred x : 0 < x -> Z.land x (x - 1) = x - lsb x.
Proof.
  destruct x as [|p|p]; try lia. intros _.
  induction p as [p IH|p IH|].
  - rewrite Pos2Z.inj_xI, lsb_odd.
    replace (2 * Z.pos p + 1 - 1) with (2 * Z.pos p) by lia.
    rewrite land_odd_even, Z.land_diag. reflexivity.
  - rewrite Pos2Z.inj_xO, lsb_double.
    replace (2 * Z.pos p - 1) with (2 * (Z.pos p - 1) + 1) by lia.
    rewrite (Z.land_comm (2 * Z.pos p)), land_odd_even, Z.land_comm, IH.
    lia.
  - reflexivity.
Qed.

Lemma bit_length_log2 x : 0 < x -> bit_length x = Z.log2 x + 1.
Proof.
  destruct x as [|p|p]; try lia. intros _.
  destruct p; simpl; lia.
Qed.

Lemma bit_length_nonneg x : 0 <= bit_length x.
Proof. destruct x; simpl; lia. Qed.

End Bits.

(** ** Chains of parts *)

Lemma chain_app a ps m qs b :
  chain a ps m -> chain m qs b -> chain a (ps ++ qs) b.
Proof.
  revert a. induction ps as [|p ps IH]; intros a H1 H2; simpl in *.
  - now subst.
  - destruct H1 as [Hs Hc]. split; [assumption | now apply IH].
Qed.

Lemma chain_snoc a ps p b :
  chain a ps (start p) -> end_ p = b -> chain a (ps ++ [p]) b.
Proof.
  intros H1 H2. apply chain_app with (m := start p); [assumption|].
  simpl. auto.
Qed.

Lemma is_pow2_pos h : is_pow2 h -> 0 < h.
Proof. intros (k & Hk & ->). apply Z.pow_pos_nonneg; lia. Qed.

Lemma chain_le a ps b :
  chain a ps b -> Forall block ps -> a <= b /\ (ps <> [] -> a < b).
Proof.
  revert a. induction ps as [|p ps IH]; intros a Hc Hb; simpl in Hc.
  - subst. split; [lia | congruence].
  - destruct Hc as [Hs Hc]. inversion Hb as [|? ? [Hw Hp] Hb']; subst.
    apply is_pow2_pos in Hp. destruct (IH _ Hc Hb') as [Hle _].
    split; [lia | intros _; lia].
Qed.

(** The three statements of the tiling property, read off a chain. *)
Lemma chain_first a ps b p :
  chain a ps b -> hd_error ps = Some p -> start p = a.
Proof. destruct ps; simpl; [discriminate|]. intros [H _] [= ->]. exact H. Qed.

Lemma chain_adjacent a ps b i p q :
  chain a ps b -> nth_error ps i = Some p -> nth_error ps (S i) = Some q ->
  end_ p = start q.
Proof.
  revert a i. induction ps as [|x ps IH]; intros a i Hc Hp Hq.
  - destruct i; discriminate.
  - destruct Hc as [_ Hc]. destruct i as [|i]; simpl in Hp, Hq.
    + injection Hp as ->. destruct ps as [|y ps]; [discriminate|].
      injection Hq as ->. destruct Hc as [Hs _]. now rewrite Hs.
    + apply (IH _ _ Hc Hp Hq).
Qed.

Lemma chain_last a ps b p :
  chain a ps b -> nth_error ps (length ps - 1) = Some p -> ps <> [] ->
  end_ p = b.
Proof.
  revert a. induction ps as [|x ps IH]; intros a Hc Hp Hne; [congruence|].
  destruct Hc as [_ Hc]. destruct ps as [|y ps].
  - simpl in Hp. injection Hp as ->. exact Hc.
  - apply (IH _ Hc); [|discriminate].
    simpl in Hp |- *. now rewrite Nat.sub_0_r in *.
Qed.

(** ** The two loops of [into_parts] (animate.py) *)

Section IntoParts.

Import Animate.

Lemma lsb_block_right x flag :
  0 < x -> emitted flag (mkPart (_prev x) x (lsb x) flag).
Proof.
  intros Hx. split; [split|reflexivity]; simpl.
  - unfold _prev. lia.
  - apply lsb_pow2, Hx.
Qed.

Lemma lsb_block_left x flag :
  0 < x -> emitted flag (mkPart x (_next x) (lsb x) flag).
Proof.
  intros Hx. split; [split|reflexivity]; simpl.
  - unfold _next. lia.
  - apply lsb_pow2, Hx.
Qed.

Lemma right_cond_true l s :
  right_cond l s = true -> 0 < snd s /\ l <= _prev (snd s).
Proof. unfold right_cond. intros H. lia. Qed.

Lemma left_cond_true r s :
  left_cond r s = true -> 0 < snd s /\ _next (snd s) <= r.
Proof. unfold left_cond. intros H. lia. Qed.

(** A loop whose test fails at once leaves its state alone. *)
Lemma right_loop_stop l r :
  right_cond l ([], r) = false -> right_loop l r = Ok ([], r).
Proof. intros H. unfold right_loop, right_fuel. simpl. now rewrite H. Qed.

Lemma left_loop_stop l r :
  left_cond r ([], l) = false -> left_loop l r = Ok ([], l).
Proof. intros H. unfold left_loop, left_fuel. simpl. now rewrite H. Qed.

(** The right cursor stops at a point [m] of [[left, right]] such that the
    block ending at [m] would start before [left]. *)
Lemma right_loop_spec l r :
  0 <= l <= r ->
  exists rp m,
    right_loop l r = Ok (rp, m) /\
    chain m (rev rp) r /\ Forall (emitted false) rp /\
    l <= m <= r /\ (l = 0 -> m = 0) /\ (0 < l -> m - lsb m < l).
Proof.
  intros Hlr. unfold right_loop, right_fuel.
  destruct (while_total
              (fun s => chain (snd s) (rev (fst s)) r /\
                        Forall (emitted false) (fst s) /\ l <= snd s <= r)
              (fun s => Z.to_nat (snd s))
              (right_cond l) right_body) with
    (fuel := S (Z.to_nat r)) (s := (@nil Part, r))
    as ([rp m] & Hrun & (Hc & Hf & Hb) & Hstop).
  - intros [rp x] (Hc & Hf & Hb) Hcond. simpl in *.
    apply right_cond_true in Hcond. simpl in Hcond.
    destruct Hcond as [Hx Hl]. pose proof (lsb_pos x Hx) as Hlsb.
    unfold _prev in *. repeat split; try lia.
    + rewrite rev_unit. simpl. auto.
    + apply Forall_app. split; [assumption|].
      constructor; [apply (lsb_block_right x false Hx) | constructor].
  - simpl. repeat split; auto; lia.
  - simpl. lia.
  - exists rp, m. simpl in *. repeat split; try assumption; try lia.
    + intros ->. unfold right_cond, _prev in Hstop. simpl in Hstop.
      destruct (Z.eq_dec m 0) as [|Hm]; [assumption|].
      pose proof (lsb_pos m). lia.
    + intros Hl. unfold right_cond, _prev in Hstop. simpl in Hstop. lia.
Qed.

(** From there the left cursor climbs exactly to [m]. *)
Lemma left_loop_spec l m :
  0 <= l <= m -> (l = 0 -> m = 0) -> (0 < l -> m - lsb m < l) ->
  exists lp,
    left_loop l m = Ok (lp, m) /\
    chain l lp m /\ Forall (emitted true) lp /\
    (0 < l -> m = l \/ 2 * lsb l <= lsb m).
Proof.
  intros Hlm H0 Hlow. unfold left_loop, left_fuel.
  destruct (while_total
              (fun s => chain l (fst s) (snd s) /\
                        Forall (emitted true) (fst s) /\ l <= snd s <= m /\
                        (0 < l -> snd s = l \/ 2 * lsb l <= lsb (snd s)))
              (fun s => Z.to_nat (m - snd s))
              (left_cond m) left_body) with
    (fuel := S (Z.to_nat (m - l))) (s := (@nil Part, l))
    as ([lp x] & Hrun & (Hc & Hf & Hb & Hg) & Hstop).
  - intros [lp x] (Hc & Hf & Hb & Hg) Hcond. simpl in *.
    apply left_cond_true in Hcond. simpl in Hcond.
    destruct Hcond as [Hx Hn]. pose proof (lsb_pos x Hx) as Hlsb.
    pose proof (lsb_next x Hx) as Hgrow.
    unfold _next in *. repeat split; try lia.
    + apply chain_snoc; simpl; auto.
    + apply Forall_app. split; [assumption|].
      constructor; [apply (lsb_block_left x true Hx) | constructor].
    + intros Hl. right. destruct (Hg Hl) as [->|Hd]; [assumption|].
      pose proof (lsb_pos l Hl). lia.
  - simpl. repeat split; auto; lia.
  - simpl. lia.
  - simpl in *.
    assert (Hx : x = m).
    { destruct (Z.eq_dec l 0) as [->|Hl0].
      - specialize (H0 eq_refl). lia.
      - destruct (Z.eq_dec x m) as [|Hne]; [assumption|]. exfalso.
        assert (Hnext : x + lsb x <= m) by (apply next_below; lia).
        unfold left_cond, _next in Hstop. simpl in Hstop. lia. }
    subst x. exists lp. auto.
Qed.

Lemma into_parts_meet l r rp lp m :
  right_loop l r = Ok (rp, m) -> left_loop l m = Ok (lp, m) ->
  into_parts l r = Ok (mkParts (lp ++ rev rp) (cut_height m)).
Proof.
  intros Hr Hl. unfold into_parts. rewrite Hr. simpl. rewrite Hl. simpl.
  rewrite Z.eqb_refl. reflexivity.
Qed.

Lemma into_parts_miss l r rp lp m x :
  right_loop l r = Ok (rp, m) -> left_loop l m = Ok (lp, x) -> x <> m ->
  into_parts l r = Raise AssertionError.
Proof.
  intros Hr Hl Hne. unfold into_parts. rewrite Hr. simpl. rewrite Hl. simpl.
  apply Z.eqb_neq in Hne. now rewrite Hne.
Qed.

(** Everything the decomposition of a valid range satisfies. *)
Lemma into_parts_spec l r :
  0 <= l <= r ->
  exists lp rp m,
    right_loop l r = Ok (rp, m) /\ left_loop l m = Ok (lp, m) /\
    into_parts l r = Ok (mkParts (lp ++ rev rp) (cut_height m)) /\
    chain l lp m /\ chain m (rev rp) r /\
    Forall (emitted true) lp /\ Forall (emitted false) rp /\
    l <= m <= r /\ (l = 0 -> m = 0) /\
    (0 < l -> m = l \/ 2 * lsb l <= lsb m).
Proof.
  intros Hlr.
  destruct (right_loop_spec l r Hlr)
    as (rp & m & Hr & Hcr & Hfr & Hb & H0 & Hlow).
  destruct (left_loop_spec l m) as (lp & Hl & Hcl & Hfl & Hg);
    [lia | assumption | assumption |].
  exists lp, rp, m. repeat split; try assumption; try lia.
  now apply into_parts_meet.
Qed.

End IntoParts.

(** ** The decomposition of illustrate.py against that of animate.py *)

Lemma geometry_flip ps : map geometry (map flip_part ps) = map geometry ps.
Proof. rewrite map_map. apply map_ext. intros []; reflexivity. Qed.

Lemma flip_part_involutive p : flip_part (flip_part p) = p.
Proof. destruct p as [s e h []]; reflexivity. Qed.

Lemma chain_flip a ps b : chain a (map flip_part ps) b <-> chain a ps b.
Proof.
  revert a. induction ps as [|p ps IH]; intros a; simpl; [tauto|].
  rewrite IH. tauto.
Qed.

Lemma emitted_flip flag ps :
  Forall (emitted flag) ps -> Forall (emitted (negb flag)) (map flip_part ps).
Proof.
  intros H. apply Forall_map. eapply Forall_impl; [|exact H].
  intros p [Hb Hf]. split; [exact Hb | simpl; now rewrite Hf].
Qed.

Lemma illustrate_right_loop l r :
  Illustrate.right_loop l r = map_outcome flip_state (Animate.right_loop l r).
Proof.
  unfold Illustrate.right_loop, Animate.right_loop, Animate.right_fuel.
  change (@nil Part, r) with (flip_state ([], r)).
  apply while_map.
  - intros [ps x]. reflexivity.
  - intros [ps x]. unfold Illustrate.right_body, Animate.right_body, flip_state.
    simpl. rewrite map_app. reflexivity.
Qed.

Lemma illustrate_left_loop l r :
  Illustrate.left_loop l r = map_outcome flip_state (Animate.left_loop l r).
Proof.
  unfold Illustrate.left_loop, Animate.left_loop, Animate.left_fuel.
  change (@nil Part, l) with (flip_state ([], l)).
  apply while_map.
  - intros [ps x]. reflexivity.
  - intros [ps x]. unfold Illustrate.left_body, Animate.left_body, flip_state.
    simpl. rewrite map_app. reflexivity.
Qed.

(** On every input, valid or not, [Drawer._into_parts] behaves as
    [into_parts] with the flags negated. *)
Lemma illustrate_into_parts self l r :
  Illustrate._into_parts self l r =
  map_outcome flip_parts (Animate.into_parts l r).
Proof.
  unfold Illustrate._into_parts, Animate.into_parts.
  rewrite illustrate_right_loop.
  destruct (Animate.right_loop l r) as [[rp m]| |]; simpl; try reflexivity.
  rewrite illustrate_left_loop.
  destruct (Animate.left_loop l m) as [[lp x]| |]; simpl; try reflexivity.
  destruct (x =? m); simpl; [|reflexivity].
  unfold flip_parts. simpl. rewrite map_app, map_rev. reflexivity.
Qed.

(** ** Ranges that are not valid *)

Section InvalidRanges.

Import Animate.

Lemma into_parts_reversed l r : r < l -> into_parts l r = Raise AssertionError.
Proof.
  intros Hrl.
  apply (into_parts_miss l r [] [] r l); [| |lia].
  - apply right_loop_stop. unfold right_cond, _prev. simpl.
    destruct (Z_lt_le_dec 0 r) as [Hr|Hr]; [|lia].
    pose proof (lsb_pos r Hr). lia.
  - apply left_loop_stop. unfold left_cond, _next. simpl.
    destruct (Z_lt_le_dec 0 l) as [Hl|Hl]; [|lia].
    pose proof (lsb_pos l Hl). lia.
Qed.

Lemma into_parts_negative l r :
  l < 0 -> l < r -> into_parts l r = Raise AssertionError.
Proof.
  intros Hl Hlr.
  destruct (while_total (fun s => l < snd s) (fun s => Z.to_nat (snd s))
              (right_cond l) right_body) with
    (fuel := right_fuel r) (s := (@nil Part, r))
    as ([rp m] & Hrun & Hm & _).
  - intros [rp x] Hx Hcond. apply right_cond_true in Hcond.
    simpl in *. destruct Hcond as [Hpos _].
    pose proof (lsb_pos x Hpos). unfold _prev. lia.
  - simpl. lia.
  - unfold right_fuel. simpl. lia.
  - simpl in Hm. apply (into_parts_miss l r rp [] m l); [exact Hrun| |lia].
    apply left_loop_stop. unfold left_cond. simpl. lia.
Qed.

Lemma into_parts_negative_empty l :
  l < 0 -> into_parts l l = Ok (mkParts [] (cut_height l)).
Proof.
  intros Hl.
  apply (into_parts_meet l l [] [] l).
  - apply right_loop_stop. unfold right_cond. simpl. lia.
  - apply left_loop_stop. unfold left_cond. simpl. lia.
Qed.

End InvalidRanges.

(** ** The decomposition of a valid range *)

Lemma chain_tiling l r ps : chain l ps r -> tiling l r ps.
Proof.
  intros Hc. repeat split.
  - intros p. apply (chain_first _ _ _ _ Hc).
  - intros i p q. apply (chain_adjacent _ _ _ _ _ _ Hc).
  - intros p Hp. apply (chain_last _ _ _ _ Hc Hp).
    intros ->. discriminate.
Qed.

Lemma block_flip ps : Forall block ps -> Forall block (map flip_part ps).
Proof.
  intros H. apply Forall_map. eapply Forall_impl; [|exact H].
  intros p Hb. exact Hb.
Qed.

Lemma emitted_block flag ps : Forall (emitted flag) ps -> Forall block ps.
Proof. apply Forall_impl. intros p [Hb _]. exact Hb. Qed.

Lemma drawer_init_ok : drawer_init = Ok drawer.
Proof. reflexivity. Qed.

Lemma log_drawer_init_ok : log_drawer_init = Ok log_drawer.
Proof. reflexivity. Qed.

(** C1. For every range with [0 <= left <= right] (whatever [max_position]
    is), both [into_parts] of animate.py and [Drawer._into_parts] of
    illustrate.py return normally, and the parts they return tile
    [[left, right)]: the first part starts at [left], each part ends where
    the next one starts, the last part ends at [right], and every part has
    [end - start = height] with [height] a power of two. *)
Theorem into_parts_tiles (self : Illustrate.Drawer) (left right : Z) :
  0 <= left <= right ->
  tiled_result left right (Animate.into_parts left right) /\
  tiled_result left right (Illustrate._into_parts self left right).
Proof.
  intros Hlr.
  destruct (into_parts_spec left right Hlr)
    as (lp & rp & m & _ & _ & Hres & Hcl & Hcr & Hfl & Hfr & _).
  assert (Hc : chain left (lp ++ rev rp) right)
    by (apply chain_app with (m := m); assumption).
  assert (Hb : Forall block (lp ++ rev rp)).
  { apply Forall_app. split; [apply (emitted_block true), Hfl|].
    apply Forall_rev, (emitted_block false), Hfr. }
  split.
  - exists (lp ++ rev rp), (cut_height m).
    split; [exact Hres|]. split; [apply chain_tiling, Hc|].
    split; [exact Hb|].
    intros He. rewrite He in Hc. exact Hc.
  - exists (map flip_part (lp ++ rev rp)), (cut_height m).
    rewrite illustrate_into_parts, Hres.
    split; [reflexivity|]. split; [apply chain_tiling, chain_flip, Hc|].
    split; [apply block_flip, Hb|].
    intros He. apply map_eq_nil in He. rewrite He in Hc. exact Hc.
Qed.

Lemma into_parts_tiles_witness :
  0 <= 9 <= 29 /\
  tiled_result 9 29 (Animate.into_parts 9 29) /\
  tiled_result 9 29 (Illustrate._into_parts drawer 9 29).
Proof.
  split; [lia | apply (into_parts_tiles drawer 9 29); lia].
Defined.

(** C2, as stated, fails in both scripts: the decomposition of [[9, 29)]
    does not come with [first_cut_height = 1] (and in illustrate.py the
    flags are the other way round as well). *)
Lemma into_parts_9_29_not_as_stated :
  Animate.into_parts 9 29 <> Ok (mkParts (parts_9_29 true false) (Finite 1)) /\
  Illustrate._into_parts drawer 9 29
    <> Ok (mkParts (parts_9_29 true false) (Finite 1)).
Proof. split; vm_compute; discriminate. Qed.

(** C2, amended.  [into_parts(9, 29)] returns the six blocks
    (9,10,1) (10,12,2) (12,16,4) (16,24,8) (24,28,4) (28,29,1) in this
    order, with [first_cut_height = 16]; in animate.py the first three have
    [is_left] true and the last three false, in illustrate.py the flags are
    the opposite.  In general, for a valid range, animate.py flags every
    part emitted by the left cursor [True] and every part emitted by the
    right cursor [False], and illustrate.py does the reverse; the result is
    the left cursor's parts followed by the right cursor's parts reversed. *)
Theorem into_parts_flags (self : Illustrate.Drawer) :
  Animate.into_parts 9 29 = Ok (mkParts (parts_9_29 true false) (Finite 16)) /\
  Illustrate._into_parts self 9 29
    = Ok (mkParts (parts_9_29 false true) (Finite 16)) /\
  forall left right, 0 <= left <= right ->
    exists m fch,
      (exists left_parts right_parts,
          Animate.right_loop left right = Ok (right_parts, m) /\
          Animate.left_loop left m = Ok (left_parts, m) /\
          Forall (fun p => is_left p = true) left_parts /\
          Forall (fun p => is_left p = false) right_parts /\
          Animate.into_parts left right
            = Ok (mkParts (left_parts ++ rev right_parts) fch)) /\
      (exists left_parts right_parts,
          Illustrate.right_loop left right = Ok (right_parts, m) /\
          Illustrate.left_loop left m = Ok (left_parts, m) /\
          Forall (fun p => is_left p = false) left_parts /\
          Forall (fun p => is_left p = true) right_parts /\
          Illustrate._into_parts self left right
            = Ok (mkParts (left_parts ++ rev right_parts) fch)).
Proof.
  split; [reflexivity|]. split; [reflexivity|].
  intros left right Hlr.
  destruct (into_parts_spec left right Hlr)
    as (lp & rp & m & Hr & Hl & Hres & _ & _ & Hfl & Hfr & _).
  exists m, (cut_height m). split.
  - exists lp, rp. repeat split; try assumption.
    + eapply Forall_impl; [|exact Hfl]. intros p [_ H]. exact H.
    + eapply Forall_impl; [|exact Hfr]. intros p [_ H]. exact H.
  - exists (map flip_part lp), (map flip_part rp).
    rewrite illustrate_right_loop, Hr. simpl.
    rewrite illustrate_left_loop, Hl. simpl.
    repeat split.
    + apply emitted_flip in Hfl. eapply Forall_impl; [|exact Hfl].
      intros p [_ H]. exact H.
    + apply emitted_flip in Hfr. eapply Forall_impl; [|exact Hfr].
      intros p [_ H]. exact H.
    + rewrite illustrate_into_parts, Hres. simpl. unfold flip_parts. simpl.
      rewrite map_app, map_rev. reflexivity.
Qed.

Lemma into_parts_flags_witness :
  0 <= 3 <= 37 /\
  exists m fch,
    (exists left_parts right_parts,
        Animate.right_loop 3 37 = Ok (right_parts, m) /\
        Animate.left_loop 3 m = Ok (left_parts, m) /\
        Forall (fun p => is_left p = true) left_parts /\
        Forall (fun p => is_left p = false) right_parts /\
        Animate.into_parts 3 37
          = Ok (mkParts (left_parts ++ rev right_parts) fch)) /\
    (exists left_parts right_parts,
        Illustrate.right_loop 3 37 = Ok (right_parts, m) /\
        Illustrate.left_loop 3 m = Ok (left_parts, m) /\
        Forall (fun p => is_left p = false) left_parts /\
        Forall (fun p => is_left p = true) right_parts /\
        Illustrate._into_parts drawer 3 37
          = Ok (mkParts (left_parts ++ rev right_parts) fch)).
Proof.
  split; [lia|].
  apply (proj2 (proj2 (into_parts_flags drawer)) 3 37). lia.
Defined.

(** C3, as stated, fails: for the range [[9, 29)] the returned
    [first_cut_height] is 16, not [lsb(9) = 1]. *)
Lemma first_cut_height_not_lsb_left :
  0 < 9 <= 29 /\
  ~ (exists ps,
        Animate.into_parts 9 29 = Ok (mkParts ps (Finite (Animate.lsb 9)))) /\
  ~ (exists ps,
        Illustrate._into_parts drawer 9 29
          = Ok (mkParts ps (Finite (Illustrate._lsb 9)))).
Proof.
  split; [lia|].
  split; intros [ps H]; vm_compute in H; discriminate.
Qed.

(** C3, amended.  For a valid range, [first_cut_height] is computed from
    the point [m] where the two cursors meet, not from [left]: it is
    infinite when [left = 0] (then [m = 0]), and [lsb(m)] when [left > 0].
    [lsb(m)] equals [lsb(left)] when the left cursor emits nothing
    ([m = left]) and is at least twice [lsb(left)] otherwise.  Both scripts
    agree on it. *)
Theorem first_cut_height_is_lsb_of_meeting_point
  (self : Illustrate.Drawer) (left right : Z) :
  0 <= left <= right ->
  exists m ps ps',
    Animate.right_loop left right = Ok (ps, m) /\
    left <= m <= right /\
    Animate.into_parts left right
      = Ok (mkParts ps' (if left =? 0 then Inf else Finite (Animate.lsb m))) /\
    Illustrate._into_parts self left right
      = Ok (mkParts (map flip_part ps')
              (if left =? 0 then Inf else Finite (Animate.lsb m))) /\
    (0 < left -> m = left \/ 2 * Animate.lsb left <= Animate.lsb m).
Proof.
  intros Hlr.
  destruct (into_parts_spec left right Hlr)
    as (lp & rp & m & Hr & Hl & Hres & _ & _ & _ & _ & Hb & H0 & Hg).
  assert (Hfch : cut_height m
                 = if left =? 0 then Inf else Finite (Animate.lsb m)).
  { unfold cut_height. destruct (Z.eqb_spec left 0) as [He|Hne].
    - rewrite (H0 He). reflexivity.
    - pose proof (lsb_pos m). destruct (Z.eqb_spec (Animate.lsb m) 0); [lia|].
      reflexivity. }
  exists m, rp, (lp ++ rev rp). rewrite <- Hfch.
  repeat split; try assumption; try lia.
  rewrite illustrate_into_parts, Hres. reflexivity.
Qed.

Lemma first_cut_height_is_lsb_of_meeting_point_witness :
  0 <= 9 <= 29 /\
  exists m ps ps',
    Animate.right_loop 9 29 = Ok (ps, m) /\
    9 <= m <= 29 /\
    Animate.into_parts 9 29
      = Ok (mkParts ps' (if 9 =? 0 then Inf else Finite (Animate.lsb m))) /\
    Illustrate._into_parts drawer 9 29
      = Ok (mkParts (map flip_part ps')
              (if 9 =? 0 then Inf else Finite (Animate.lsb m))) /\
    (0 < 9 -> m = 9 \/ 2 * Animate.lsb 9 <= Animate.lsb m).
Proof.
  split; [lia|].
  apply (first_cut_height_is_lsb_of_meeting_point drawer 9 29). lia.
Defined.

(** C4. For [0 <= left <= right] the two walks meet: the right cursor stops
    at some [m], the left cursor then stops at the same [m], so the
    assertion [left == right] holds and [into_parts] returns normally, in
    both scripts. *)
Theorem cursors_meet (self : Illustrate.Drawer) (left right : Z) :
  0 <= left <= right ->
  (exists m right_parts left_parts,
      Animate.right_loop left right = Ok (right_parts, m) /\
      Animate.left_loop left m = Ok (left_parts, m)) /\
  (exists m right_parts left_parts,
      Illustrate.right_loop left right = Ok (right_parts, m) /\
      Illustrate.left_loop left m = Ok (left_parts, m)) /\
  (exists res, Animate.into_parts left right = Ok res) /\
  (exists res, Illustrate._into_parts self left right = Ok res).
Proof.
  intros Hlr.
  destruct (into_parts_spec left right Hlr)
    as (lp & rp & m & Hr & Hl & Hres & _).
  repeat split.
  - exists m, rp, lp. auto.
  - exists m, (map flip_part rp), (map flip_part lp).
    rewrite illustrate_right_loop, Hr. simpl.
    rewrite illustrate_left_loop, Hl. simpl. auto.
  - eexists. exact Hres.
  - rewrite illustrate_into_parts, Hres. simpl. eexists. reflexivity.
Qed.

Lemma cursors_meet_witness :
  0 <= 37 <= 64 /\
  (exists m right_parts left_parts,
      Animate.right_loop 37 64 = Ok (right_parts, m) /\
      Animate.left_loop 37 m = Ok (left_parts, m)) /\
  (exists m right_parts left_parts,
      Illustrate.right_loop 37 64 = Ok (right_parts, m) /\
      Illustrate.left_loop 37 m = Ok (left_parts, m)) /\
  (exists res, Animate.into_parts 37 64 = Ok res) /\
  (exists res, Illustrate._into_parts drawer 37 64 = Ok res).
Proof.
  split; [lia | apply (cursors_meet drawer 37 64); lia].
Defined.

(** The step budgets of the two loops are never used up, and the only
    exception of the decomposition is the failed assertion. *)
Lemma into_parts_outcome (left right : Z) :
  (0 <= left <= right \/ (left < 0 /\ left = right)) /\
  (exists res, Animate.into_parts left right = Ok res)
  \/
  (right < left \/ (left < 0 /\ left <> right)) /\
  Animate.into_parts left right = Raise AssertionError.
Proof.
  destruct (Z_lt_le_dec right left) as [Hrl|Hlr].
  - right. split; [lia | now apply into_parts_reversed].
  - destruct (Z_lt_le_dec left 0) as [Hneg|Hpos].
    + destruct (Z.eq_dec left right) as [<-|Hne].
      * left. split; [lia|]. eexists. now apply into_parts_negative_empty.
      * right. split; [lia | apply into_parts_negative; lia].
    + left. split; [lia|].
      destruct (into_parts_spec left right) as (lp & rp & m & _ & _ & H & _);
        [lia|].
      eexists. exact H.
Qed.

Lemma into_parts_terminates (left right : Z) :
  Animate.into_parts left right <> OutOfFuel.
Proof.
  destruct (into_parts_outcome left right) as [[_ [res H]]|[_ H]];
    rewrite H; discriminate.
Qed.

Lemma into_parts_raises_only_then (left right : Z) :
  Animate.into_parts left right = Raise AssertionError ->
  right < left \/ (left < 0 /\ left <> right).
Proof.
  intros H.
  destruct (into_parts_outcome left right) as [[_ [res H']]|[Hc _]];
    [congruence | exact Hc].
Qed.

(** C5, as stated, fails: no exception is raised for [right] beyond
    [max_position] (64 here), nor for a negative [left] equal to [right]. *)
Lemma into_parts_accepts_invalid_ranges :
  (Illustrate.max_position drawer < 100 /\
   exists res, Illustrate._into_parts drawer 0 100 = Ok res) /\
  (exists fs,
      Animate.animate 0 100 (PyInt 64) 1024 PyNone (1 # 2) None false 200
      = Ok fs) /\
  (-4 < 0 /\ exists res, Animate.into_parts (-4) (-4) = Ok res).
Proof.
  split; [split; [reflexivity | eexists; vm_compute; reflexivity]|].
  split; [eexists; vm_compute; reflexivity|].
  split; [reflexivity | eexists; vm_compute; reflexivity].
Qed.

(** C5, amended.  The decomposition has no range check of its own and no
    [InvalidRange] error, and it never looks at [max_position].  What it
    has is the assertion that the cursors met, which fails, with no result
    returned, whenever [left > right], and whenever [left < 0] unless
    [left = right]. *)
Theorem into_parts_assertion_fails (self : Illustrate.Drawer)
  (left right : Z) :
  right < left \/ (left < 0 /\ left <> right) ->
  Animate.into_parts left right = Raise AssertionError /\
  Illustrate._into_parts self left right = Raise AssertionError.
Proof.
  intros Hbad.
  assert (H : Animate.into_parts left right = Raise AssertionError).
  { destruct Hbad as [Hrl|[Hneg Hne]].
    - now apply into_parts_reversed.
    - destruct (Z_lt_le_dec right left).
      + now apply into_parts_reversed.
      + apply into_parts_negative; lia. }
  split; [exact H|].
  rewrite illustrate_into_parts, H. reflexivity.
Qed.

Lemma into_parts_assertion_fails_witness :
  (3 < 5 \/ (5 < 0 /\ 5 <> 3)) /\
  Animate.into_parts 5 3 = Raise AssertionError /\
  Illustrate._into_parts drawer 5 3 = Raise AssertionError.
Proof.
  split; [left; lia | apply (into_parts_assertion_fails drawer 5 3); lia].
Defined.

Lemma flags_flip ps :
  Forall2 (fun p p' => is_left p' = negb (is_left p)) ps (map flip_part ps).
Proof. induction ps as [|p ps IH]; simpl; constructor; auto. Qed.

(** C9. For [0 <= left <= right] the two decompositions return the same
    (start, end, height) triples in the same order and the same
    [first_cut_height], and the flag of each part of illustrate.py is the
    negation of the flag of the corresponding part of animate.py:
    illustrate.py sets [is_left] on the parts of its right cursor and
    clears it on the parts of its left cursor. *)
Theorem into_parts_same_geometry_opposite_flags (self : Illustrate.Drawer)
  (left right : Z) :
  0 <= left <= right ->
  exists ps ps' fch,
    Animate.into_parts left right = Ok (mkParts ps fch) /\
    Illustrate._into_parts self left right = Ok (mkParts ps' fch) /\
    map geometry ps' = map geometry ps /\
    Forall2 (fun p p' => is_left p' = negb (is_left p)) ps ps' /\
    exists m left_parts right_parts,
      Illustrate.right_loop left right = Ok (right_parts, m) /\
      Illustrate.left_loop left m = Ok (left_parts, m) /\
      ps' = left_parts ++ rev right_parts /\
      Forall (fun p => is_left p = true) right_parts /\
      Forall (fun p => is_left p = false) left_parts.
Proof.
  intros Hlr.
  destruct (into_parts_spec left right Hlr)
    as (lp & rp & m & Hr & Hl & H & _ & _ & Hfl & Hfr & _).
  exists (lp ++ rev rp), (map flip_part (lp ++ rev rp)), (cut_height m).
  split; [exact H|]. split; [rewrite illustrate_into_parts, H; reflexivity|].
  split; [apply geometry_flip|]. split; [apply flags_flip|].
  exists m, (map flip_part lp), (map flip_part rp).
  rewrite illustrate_right_loop, Hr. simpl.
  rewrite illustrate_left_loop, Hl. simpl.
  split; [reflexivity|]. split; [reflexivity|].
  split; [now rewrite map_app, map_rev|]. split.
  - apply emitted_flip in Hfr. eapply Forall_impl; [|exact Hfr].
    intros p [_ Hp]. exact Hp.
  - apply emitted_flip in Hfl. eapply Forall_impl; [|exact Hfl].
    intros p [_ Hp]. exact Hp.
Qed.

Lemma into_parts_same_geometry_opposite_flags_witness :
  0 <= 32 <= 49 /\
  exists ps ps' fch,
    Animate.into_parts 32 49 = Ok (mkParts ps fch) /\
    Illustrate._into_parts log_drawer 32 49 = Ok (mkParts ps' fch) /\
    map geometry ps' = map geometry ps /\
    Forall2 (fun p p' => is_left p' = negb (is_left p)) ps ps' /\
    exists m left_parts right_parts,
      Illustrate.right_loop 32 49 = Ok (right_parts, m) /\
      Illustrate.left_loop 32 m = Ok (left_parts, m) /\
      ps' = left_parts ++ rev right_parts /\
      Forall (fun p => is_left p = true) right_parts /\
      Forall (fun p => is_left p = false) left_parts.
Proof.
  split; [lia|].
  apply (into_parts_same_geometry_opposite_flags log_drawer 32 49). lia.
Defined.

(** ** What [first_cut_height] and the flags of illustrate.py stand for *)

Section Meaning.

Import Animate.

Lemma lsb_quotient_odd x : 0 < x -> Z.even (x / lsb x) = false.
Proof.
  intros Hx. destruct (lsb_decomp x Hx) as (k & q & Hk & Hq & Hxe & Hl).
  rewrite Hl. rewrite Hxe at 1.
  assert (2 ^ k <> 0) by (apply Z.pow_nonzero; lia).
  rewrite Z.mul_comm, Z.div_mul by assumption.
  rewrite Z.add_comm, Z.even_add_mul_2. reflexivity.
Qed.

Lemma lsb_quotient_prev_even x : 0 < x -> Z.even (_prev x / lsb x) = true.
Proof.
  intros Hx. destruct (lsb_decomp x Hx) as (k & q & Hk & Hq & Hxe & Hl).
  unfold _prev. rewrite Hl.
  assert (2 ^ k <> 0) by (apply Z.pow_nonzero; lia).
  replace (x - 2 ^ k) with (2 * q * 2 ^ k) by (rewrite Hxe at 1; ring).
  rewrite Z.div_mul by assumption.
  rewrite <- (Z.add_0_l (2 * q)), Z.even_add_mul_2. reflexivity.
Qed.

(** Below a positive [x] that is not a multiple of a power of two, the
    lowest set bit is a smaller power of two. *)
Lemma lsb_between m x :
  0 < m -> 0 < x -> m - lsb m < x < m + lsb m -> x <> m -> lsb x < lsb m.
Proof.
  intros Hm Hx Hb Hne.
  destruct (lsb_decomp m Hm) as (km & qm & Hkm & Hqm & Hme & Hlm).
  destruct (lsb_decomp x Hx) as (kx & qx & Hkx & Hqx & Hxe & Hlx).
  rewrite Hlm in *. rewrite Hlx.
  assert (Hpm : 0 < 2 ^ km) by (apply Z.pow_pos_nonneg; lia).
  destruct (Z_lt_le_dec kx km) as [Hlt|Hge].
  - apply Z.pow_lt_mono_r; lia.
  - exfalso.
    assert (Hsplit : 2 ^ kx = 2 ^ km * 2 ^ (kx - km)).
    { rewrite <- Z.pow_add_r by lia. f_equal. lia. }
    remember (2 ^ (kx - km) * (2 * qx + 1)) as M eqn:HM.
    assert (Hx' : x = 2 ^ km * M) by (subst M; rewrite Hxe, Hsplit; ring).
    clear HM Hsplit Hxe Hlx Hlm.
    assert (H1 : 2 * qm < M).
    { apply Z.mul_lt_mono_pos_l with (p := 2 ^ km); lia. }
    assert (H2 : M < 2 * qm + 2).
    { apply Z.mul_lt_mono_pos_l with (p := 2 ^ km); lia. }
    assert (M = 2 * qm + 1) by lia. subst M. lia.
Qed.

(** A jump of the right cursor at least doubles the lowest set bit. *)
Lemma lsb_prev x : 0 < _prev x -> 2 * lsb x <= lsb (_prev x).
Proof.
  intros Hp. assert (Hx : 0 < x).
  { destruct (Z_lt_le_dec 0 x) as [|Hle]; [assumption|]. exfalso.
    unfold _prev in Hp. destruct (Z.eq_dec x 0) as [->|Hne].
    - rewrite lsb_0 in Hp. lia.
    - pose proof (lsb_pos (- x)) as H. rewrite lsb_opp in H. lia. }
  destruct (lsb_decomp x Hx) as (k & q & Hk & Hq & Hxe & Hl).
  unfold _prev in *. rewrite Hl in *.
  assert (H2k : 0 < 2 ^ k) by (apply Z.pow_pos_nonneg; lia).
  assert (Hq' : 0 < q) by nia.
  replace (x - 2 ^ k) with (2 ^ k * (2 * q)) by (rewrite Hxe at 1; ring).
  rewrite lsb_mul_pow2, lsb_double by assumption.
  pose proof (lsb_pos q Hq'). nia.
Qed.

(** The right cursor never lets [right] get a whole block ahead of it. *)
Lemma right_loop_reach l r rp m :
  0 < l <= r -> right_loop l r = Ok (rp, m) -> r < m + lsb m.
Proof.
  intros Hlr Hrun. unfold right_loop in Hrun.
  apply (while_invariant
           (fun s => 0 < snd s /\ r < snd s + lsb (snd s))
           (right_cond l) right_body) in Hrun.
  - apply Hrun.
  - intros [ps x] [Hx Hr] Hcond. apply right_cond_true in Hcond.
    simpl in *. destruct Hcond as [_ Hl].
    assert (Hp : 0 < _prev x) by lia.
    pose proof (lsb_prev x Hp). split; [assumption|].
    unfold _prev in *. lia.
  - simpl. pose proof (lsb_pos r). lia.
Qed.

(** For [left > 0], the meeting point is the position of the range with
    the largest lowest set bit: [first_cut_height] is the height of the
    tallest spike that the range [left .. right] contains. *)
Lemma first_cut_height_tallest_spike l r :
  0 < l <= r ->
  exists ps m,
    into_parts l r = Ok (mkParts ps (Finite (lsb m))) /\
    l <= m <= r /\
    forall x, l <= x <= r -> x <> m -> lsb x < lsb m.
Proof.
  intros Hlr.
  destruct (right_loop_spec l r) as (rp & m & Hr & _ & _ & Hb & _ & Hlow);
    [lia|].
  destruct (left_loop_spec l m) as (lp & Hl & _); [lia | lia | assumption |].
  pose proof (right_loop_reach l r rp m Hlr Hr) as Hreach.
  exists (lp ++ rev rp), m. split; [|split; [lia|]].
  - rewrite (into_parts_meet l r rp lp m Hr Hl). unfold cut_height.
    pose proof (lsb_pos m). destruct (Z.eqb_spec (lsb m) 0); [lia|].
    reflexivity.
  - intros x Hx Hne. apply lsb_between; lia.
Qed.

Lemma right_loop_children l r rp m :
  right_loop l r = Ok (rp, m) -> Forall (fun p => left_child p = true) rp.
Proof.
  intros Hrun. unfold right_loop in Hrun.
  apply (while_invariant
           (fun s => Forall (fun p => left_child p = true) (fst s))
           (right_cond l) right_body) in Hrun.
  - apply Hrun.
  - intros [ps x] Hf Hcond. apply right_cond_true in Hcond. simpl in *.
    apply Forall_app. split; [assumption|]. constructor; [|constructor].
    unfold left_child. simpl. apply lsb_quotient_prev_even. lia.
  - constructor.
Qed.

Lemma left_loop_children l r lp m :
  left_loop l r = Ok (lp, m) -> Forall (fun p => left_child p = false) lp.
Proof.
  intros Hrun. unfold left_loop in Hrun.
  apply (while_invariant
           (fun s => Forall (fun p => left_child p = false) (fst s))
           (left_cond r) left_body) in Hrun.
  - apply Hrun.
  - intros [ps x] Hf Hcond. apply left_cond_true in Hcond. simpl in *.
    apply Forall_app. split; [assumption|]. constructor; [|constructor].
    unfold left_child. simpl. apply lsb_quotient_odd. lia.
  - constructor.
Qed.

(** In illustrate.py [is_left] says whether the block is a left child in
    the segment tree, which is how [draw_segment_tree] colours blocks. *)
Lemma illustrate_is_left_marks_left_children self l r split :
  Illustrate._into_parts self l r = Ok split ->
  Forall (fun p => is_left p = left_child p) (parts split).
Proof.
  rewrite illustrate_into_parts. unfold into_parts.
  destruct (right_loop l r) as [[rp m]| |] eqn:Hr; simpl; try discriminate.
  destruct (left_loop l m) as [[lp x]| |] eqn:Hl; simpl; try discriminate.
  destruct (x =? m); simpl; [|discriminate].
  intros [= <-]. simpl. apply Forall_map, Forall_app. split.
  - destruct (while_invariant
                (fun s => Forall (fun p => is_left p = true) (fst s))
                (left_cond m) left_body) with
      (fuel := left_fuel l m) (s := (@nil Part, l)) (s' := (lp, x))
      as [Hfl _]; [| constructor | exact Hl |].
    + intros [ps y] Hf _. simpl in *. apply Forall_app.
      split; [assumption | repeat constructor].
    + apply left_loop_children in Hl. simpl in Hfl.
      rewrite Forall_forall in *. intros p Hp. unfold left_child in *.
      simpl. rewrite (Hfl p Hp), (Hl p Hp). reflexivity.
  - apply Forall_rev.
    destruct (while_invariant
                (fun s => Forall (fun p => is_left p = false) (fst s))
                (right_cond l) right_body) with
      (fuel := right_fuel r) (s := (@nil Part, r)) (s' := (rp, m))
      as [Hfr _]; [| constructor | exact Hr |].
    + intros [ps y] Hf _. simpl in *. apply Forall_app.
      split; [assumption | repeat constructor].
    + apply right_loop_children in Hr. simpl in Hfr.
      rewrite Forall_forall in *. intros p Hp. unfold left_child in *.
      simpl. rewrite (Hfr p Hp), (Hr p Hp). reflexivity.
Qed.

End Meaning.

(** ** Rounding up to a power of two, and [max_level] *)

Lemma round_up_int x :
  Illustrate._round_up_to_pow2 (PyInt x)
  = Ok (if Z.land x (x - 1) =? 0 then x else Z.shiftl 1 (bit_length x)).
Proof.
  unfold Illustrate._round_up_to_pow2. simpl.
  destruct (Z.land x (x - 1) =? 0); reflexivity.
Qed.

Lemma lsb_of_pow2 k : 0 <= k -> Animate.lsb (2 ^ k) = 2 ^ k.
Proof.
  intros Hk. rewrite <- (Z.mul_1_r (2 ^ k)) at 1.
  rewrite lsb_mul_pow2 by assumption. change (Animate.lsb 1) with 1. lia.
Qed.

Lemma land_pred_pow2 k : 0 <= k -> Z.land (2 ^ k) (2 ^ k - 1) = 0.
Proof.
  intros Hk. assert (0 < 2 ^ k) by (apply Z.pow_pos_nonneg; lia).
  rewrite land_pred, lsb_of_pow2 by assumption. lia.
Qed.

(** An exact power of two is returned unchanged. *)
Lemma round_up_pow2 k :
  0 <= k -> Illustrate._round_up_to_pow2 (PyInt (2 ^ k)) = Ok (2 ^ k).
Proof.
  intros Hk. rewrite round_up_int, land_pred_pow2 by assumption. reflexivity.
Qed.

(** From 1 on, the result is the least power of two that is not below the
    argument. *)
Lemma round_up_next_pow2 x :
  1 <= x ->
  exists r, Illustrate._round_up_to_pow2 (PyInt x) = Ok r /\
            is_pow2 r /\ x <= r < 2 * x.
Proof.
  intros Hx. rewrite round_up_int.
  destruct (Z.eqb_spec (Z.land x (x - 1)) 0) as [He|Hne].
  - exists x. split; [reflexivity|]. split; [|lia].
    rewrite land_pred in He by lia.
    destruct (lsb_pow2 x) as (k & Hk & Hl); [lia|].
    exists k. split; [assumption | lia].
  - exists (Z.shiftl 1 (bit_length x)). split; [reflexivity|].
    rewrite bit_length_log2 by lia.
    pose proof (Z.log2_nonneg x) as Hnn.
    rewrite Z.shiftl_1_l.
    destruct (Z.log2_spec x) as [Hlo Hhi]; [lia|].
    replace (Z.succ (Z.log2 x)) with (Z.log2 x + 1) in Hhi by lia.
    split; [exists (Z.log2 x + 1); split; [lia | reflexivity]|].
    split; [lia|].
    rewrite Z.pow_add_r, Z.pow_1_r by lia.
    destruct (Z.eq_dec (2 ^ Z.log2 x) x) as [Heq|Hneq]; [|lia].
    exfalso. apply Hne. rewrite <- Heq. now apply land_pred_pow2.
Qed.

Lemma round_up_least x r j :
  1 <= x -> Illustrate._round_up_to_pow2 (PyInt x) = Ok r ->
  0 <= j -> x <= 2 ^ j -> r <= 2 ^ j.
Proof.
  intros Hx Hr Hj Hle.
  destruct (round_up_next_pow2 x Hx) as (r' & Hr' & (k & Hk & ->) & Hb).
  rewrite Hr in Hr'. injection Hr' as ->.
  destruct (Z_lt_le_dec j k) as [Hlt|Hge].
  - exfalso.
    assert (2 * 2 ^ j <= 2 ^ k).
    { rewrite <- Z.pow_succ_r by assumption.
      apply Z.pow_le_mono_r; lia. }
    lia.
  - apply Z.pow_le_mono_r; lia.
Qed.

(** C8, as stated, fails for animate.py, which does not round: with
    [max_position = 75] its [max_level] is [as_level(75)], that is 7 in
    logarithmic mode and 75 in linear mode, while 75 rounded up is 128,
    of level 8 and 128. *)
Lemma animate_max_level_not_rounded :
  Illustrate._round_up_to_pow2 (PyInt 75) = Ok 128 /\
  Animate.round_up_to_pow2 75 = 128 /\
  Animate.max_level true 75 = 7 /\ Animate.as_level true 128 = 8 /\
  Animate.max_level false 75 = 75 /\ Animate.as_level false 128 = 128 /\
  Animate.max_level true 75 <> Animate.as_level true 128 /\
  Animate.max_level false 75 <> Animate.as_level false 128.
Proof. repeat split; vm_compute; discriminate. Qed.

(** C8, amended.  In illustrate.py, in both modes, a constructed [Drawer]
    has [max_level = _as_level(_round_up_to_pow2(max_position))], where
    [_round_up_to_pow2] leaves an exact power of two unchanged and for any
    other [max_position >= 1] returns the least power of two above it.  In
    animate.py [max_level = as_level(max_position)], without rounding; the
    two scripts agree when [max_position] is a power of two. *)
Theorem max_level_of_drawer (max_position width : Z) (height : pyval)
  (vertical_stretch level_step : Q) (accelerate_intact : option Q)
  (logarithmic : bool) (intact_color left_color right_color : Color)
  (level_ticks : bool) (self : Illustrate.Drawer) :
  Illustrate.__init__ (PyInt max_position) width height vertical_stretch
    level_step accelerate_intact logarithmic intact_color left_color
    right_color level_ticks = Ok self ->
  (exists r,
      Illustrate._round_up_to_pow2 (PyInt max_position) = Ok r /\
      Illustrate.max_position self = max_position /\
      Illustrate.logarithmic self = logarithmic /\
      Illustrate.max_level self = Illustrate._as_level logarithmic r /\
      (1 <= max_position ->
       is_pow2 r /\ max_position <= r < 2 * max_position /\
       forall j, 0 <= j -> max_position <= 2 ^ j -> r <= 2 ^ j) /\
      (is_pow2 max_position -> r = max_position /\
       Animate.max_level logarithmic max_position
       = Illustrate.max_level self)) /\
  Animate.max_level logarithmic max_position
  = Animate.as_level logarithmic max_position.
Proof.
  intros Hinit. split; [|reflexivity].
  unfold Illustrate.__init__ in Hinit.
  destruct (Illustrate._round_up_to_pow2 (PyInt max_position)) as [r| |] eqn:Hr;
    simpl in Hinit; try discriminate.
  exists r. split; [reflexivity|].
  assert (Hself : Illustrate.max_position self = max_position /\
                  Illustrate.logarithmic self = logarithmic /\
                  Illustrate.max_level self
                  = Illustrate._as_level logarithmic r).
  { destruct (py_truthy height).
    - destruct height as [|h]; simpl in Hinit; [discriminate|].
      injection Hinit as <-. auto.
    - destruct (max_position =? 0); simpl in Hinit; [discriminate|].
      injection Hinit as <-. auto. }
  destruct Hself as (Hmp & Hlog & Hml).
  split; [exact Hmp|]. split; [exact Hlog|]. split; [exact Hml|]. split.
  - intros Hx.
    destruct (round_up_next_pow2 max_position Hx) as (r' & Hr' & Hp & Hb).
    rewrite Hr in Hr'. injection Hr' as <-.
    split; [exact Hp|]. split; [exact Hb|].
    intros j Hj Hle. now apply (round_up_least max_position r j).
  - intros (k & Hk & ->). rewrite round_up_pow2 in Hr by assumption.
    injection Hr as <-. split; [reflexivity|]. rewrite Hml. reflexivity.
Qed.

Lemma max_level_of_drawer_witness :
  Illustrate.__init__ (PyInt 75) 1024 PyNone (3 # 2) (1 # 4) None true
    (ColorRGB 241 194 50) (ColorRGB 140 173 237) (ColorRGB 223 129 184) false
  = Ok (Illustrate.mkDrawer 75 true 8 1024 (3 # 2) 157 (1 # 4) 1
          (ColorRGB 241 194 50) (ColorRGB 140 173 237) (ColorRGB 223 129 184)
          false)
  /\
  (exists r,
      Illustrate._round_up_to_pow2 (PyInt 75) = Ok r /\
      75 = 75 /\ true = true /\
      8 = Illustrate._as_level true r /\
      (1 <= 75 ->
       is_pow2 r /\ 75 <= r < 2 * 75 /\
       forall j, 0 <= j -> 75 <= 2 ^ j -> r <= 2 ^ j) /\
      (is_pow2 75 -> r = 75 /\ Animate.max_level true 75 = 8)) /\
  Animate.max_level true 75 = Animate.as_level true 75.
Proof.
  split; [reflexivity|].
  exact (max_level_of_drawer 75 1024 PyNone (3 # 2) (1 # 4) None true
           (ColorRGB 241 194 50) (ColorRGB 140 173 237) (ColorRGB 223 129 184)
           false
           (Illustrate.mkDrawer 75 true 8 1024 (3 # 2) 157 (1 # 4) 1
              (ColorRGB 241 194 50) (ColorRGB 140 173 237)
              (ColorRGB 223 129 184) false)
           eq_refl).
Defined.

(** ** [max_position=None] *)

Lemma animate_none_logarithmic left right width level_step accelerate_intact
  fuel :
  Animate.animate left right PyNone width PyNone level_step accelerate_intact
    true fuel = Raise AttributeError.
Proof. reflexivity. Qed.

(** With a [height] given, [None] does reach the check and is replaced by
    [round_up_to_pow2(right)]. *)
Lemma animate_none_with_height left right width h level_step
  accelerate_intact logarithmic fuel :
  h <> 0 ->
  Animate.animate left right PyNone width (PyInt h) level_step
    accelerate_intact logarithmic fuel
  = Animate.animate left right (PyInt (Animate.round_up_to_pow2 right)) width
      (PyInt h) level_step accelerate_intact logarithmic fuel.
Proof.
  intros Hh. unfold Animate.animate, Animate.default_height. simpl.
  apply Z.eqb_neq in Hh. rewrite Hh. reflexivity.
Qed.

(** C10. With [max_position] and [height] both left at [None] (and
    [logarithmic] at its default [False]), [animate] of animate.py raises
    [TypeError] in the line that computes the default height, before the
    [None] check is reached and before any frame; and [Drawer.__init__]
    with [max_position=None] raises [TypeError] inside [_round_up_to_pow2],
    at [x - 1] within [x & (x - 1)]. *)
Theorem max_position_none_is_a_type_error :
  (forall left right width level_step accelerate_intact fuel,
      Animate.default_height false width PyNone PyNone = Raise TypeError /\
      Animate.animate left right PyNone width PyNone level_step
        accelerate_intact false fuel = Raise TypeError) /\
  (forall width height vertical_stretch level_step accelerate_intact
          logarithmic intact_color left_color right_color level_ticks,
      py_sub PyNone (PyInt 1) = Raise TypeError /\
      Illustrate._round_up_to_pow2 PyNone = Raise TypeError /\
      Illustrate.__init__ PyNone width height vertical_stretch level_step
        accelerate_intact logarithmic intact_color left_color right_color
        level_ticks
      = Raise TypeError).
Proof. split; intros; repeat split; reflexivity. Qed.

(** ** The frame loops *)

Lemma countdown_snoc next l fs f :
  countdown next l fs (frame_level f) ->
  countdown next l (fs ++ [f]) (next f).
Proof.
  revert l. induction fs as [|g fs IH]; intros l H; simpl in *.
  - auto.
  - destruct H as [Hg H]. split; [assumption | now apply IH].
Qed.

Section Levels.

Local Open Scope Q_scope.

Lemma Qltb_true x y : Qltb x y = true <-> x < y.
Proof.
  unfold Qltb. rewrite negb_true_iff, <- not_true_iff_false, Qle_bool_iff.
  split; [apply Qnot_le_lt | apply Qlt_not_le].
Qed.

Lemma Qltb_false x y : Qltb x y = false <-> y <= x.
Proof. unfold Qltb. rewrite negb_false_iff. apply Qle_bool_iff. Qed.

Lemma Qle_bool_false x y : Qle_bool x y = false <-> y < x.
Proof.
  rewrite <- not_true_iff_false, Qle_bool_iff.
  split; [apply Qnot_le_lt | apply Qlt_not_le].
Qed.

(** [py_max] is the maximum. *)
Lemma py_max_spec a b :
  a <= py_max a b /\ b <= py_max a b /\ (py_max a b = a \/ py_max a b = b).
Proof.
  unfold py_max. destruct (Qltb a b) eqn:H.
  - apply Qltb_true in H. repeat split; auto; lra.
  - apply Qltb_false in H. repeat split; auto; lra.
Qed.

(** Each frame lowers the level by at least [d], when [d] is below both
    possible decrements. *)
Lemma next_level_le step accel d f :
  d <= step -> d <= step * accel ->
  next_level step accel f <= frame_level f - d.
Proof.
  intros Hs Ha. unfold next_level. rewrite Qred_correct.
  destruct (frame_intact f); lra.
Qed.

Lemma div_step a b d : 0 < d -> a <= b - d -> a / d + 1 <= b / d.
Proof.
  intros Hd Hab.
  setoid_replace (a / d + 1) with ((a + d) / d) by (field; lra).
  unfold Qdiv. apply Qmult_le_compat_r; [lra|].
  apply Qinv_le_0_compat. lra.
Qed.

Lemma floor_step a b d :
  0 < d -> a <= b - d -> (Qfloor (a / d) + 1 <= Qfloor (b / d))%Z.
Proof.
  intros Hd Hab. pose proof (div_step a b d Hd Hab) as H.
  rewrite <- (Qfloor_Z (Qfloor (a / d) + 1)).
  apply Qfloor_resp_le. rewrite inject_Z_plus.
  pose proof (Qfloor_le (a / d)). change (inject_Z 1) with 1. lra.
Qed.

Lemma ceiling_step a b d :
  0 < d -> a <= b - d -> (Qceiling (a / d) + 1 <= Qceiling (b / d))%Z.
Proof.
  intros Hd Hab. pose proof (div_step a b d Hd Hab) as H.
  pose proof (Qceiling_lt (a / d)) as Hlt.
  pose proof (Qle_ceiling (b / d)) as Hle.
  assert (Hz : inject_Z (Qceiling (a / d) - 1) + 1 < inject_Z (Qceiling (b / d)))
    by lra.
  change 1 with (inject_Z 1) in Hz.
  rewrite <- inject_Z_plus, <- Zlt_Qlt in Hz. lia.
Qed.

Lemma floor_div_nonneg b d : 0 <= b -> 0 < d -> (0 <= Qfloor (b / d))%Z.
Proof.
  intros Hb Hd. rewrite <- (Qfloor_Z 0). apply Qfloor_resp_le.
  change (inject_Z 0) with 0.
  apply Qle_shift_div_l; [assumption | lra].
Qed.

Lemma ceiling_div_pos b d : 0 < b -> 0 < d -> (1 <= Qceiling (b / d))%Z.
Proof.
  intros Hb Hd. pose proof (Qle_ceiling (b / d)) as Hle.
  assert (H : 0 < b / d) by (apply Qlt_shift_div_l; [assumption | lra]).
  assert (Hz : inject_Z 0 < inject_Z (Qceiling (b / d))).
  { change (inject_Z 0) with 0. lra. }
  rewrite <- Zlt_Qlt in Hz. lia.
Qed.

End Levels.

(** *** [Drawer.animate] (illustrate.py) *)

Section IllustrateLoop.

Local Open Scope Q_scope.

Variables (self : Illustrate.Drawer) (left right : Z) (split : Parts).

Local Abbreviation step := (Illustrate.level_step self).
Local Abbreviation accel := (Illustrate.accelerate_intact self).
Local Abbreviation next := (next_level step accel).
Local Abbreviation body := (illustrate_step self left right split).
Local Abbreviation as_level := (Illustrate._as_level (Illustrate.logarithmic self)).

(** What one iteration does: it yields one frame, drawn at the current
    level, and lowers the level. *)
Lemma illustrate_body_spec s :
  exists f,
    Illustrate.frames (body s) = Illustrate.frames s ++ [f] /\
    frame_level f = Illustrate.level s /\
    Illustrate.level (body s) = next f /\
    frame_intact f = is_intact as_level split (Illustrate.level s) /\
    segments f =
      if frame_intact f
      then [mkSegment left right (Illustrate.level s)
              (Illustrate.intact_color self)]
      else cut_segments as_level (Illustrate._get_color self)
             (Illustrate.level s) (parts split).
Proof.
  eexists. split; [reflexivity|]. simpl.
  split; [reflexivity|]. split; [reflexivity|]. split; [reflexivity|].
  destruct (is_intact as_level split (Illustrate.level s)); reflexivity.
Qed.

Lemma illustrate_inv_step d level0 n0 s :
  0 < d -> d <= step -> d <= step * accel ->
  illustrate_inv self d level0 n0 s -> Illustrate.animate_cond s = true ->
  illustrate_inv self d level0 n0 (body s) /\
  (Z.to_nat (Qfloor (Illustrate.level (body s) / d) + 1)
   < Z.to_nat (Qfloor (Illustrate.level s / d) + 1))%nat.
Proof.
  intros Hd Hs Ha (Hc & Hf & Hn) Hcond.
  apply Qle_bool_iff in Hcond.
  destruct (illustrate_body_spec s) as (f & Hfr & Hfl & Hlv & _).
  pose proof (next_level_le step accel d f Hs Ha) as Hnext.
  pose proof (floor_div_nonneg _ d Hcond Hd) as Hnn.
  assert (Hfloor : (Qfloor (next f / d) + 1
                    <= Qfloor (Illustrate.level s / d))%Z).
  { apply floor_step; [assumption|]. now rewrite <- Hfl. }
  rewrite Hlv. split; [|lia].
  unfold illustrate_inv. cbv zeta. rewrite Hfr, Hlv, length_app.
  cbn [length].
  split; [|split].
  - apply countdown_snoc. now rewrite Hfl.
  - apply Forall_app. split; [assumption|].
    constructor; [|constructor]. split; [now rewrite Hfl | assumption].
  - lia.
Qed.

Lemma illustrate_inv_init d level0 :
  illustrate_inv self d level0 (Z.to_nat (Qfloor (level0 / d) + 1))
    (Illustrate.mkLoopState [] level0).
Proof. unfold illustrate_inv. simpl. auto. Qed.

(** The loop ends, within a budget read off the starting level. *)
Lemma illustrate_loop_total d level0 :
  0 < d -> d <= step -> d <= step * accel ->
  exists s,
    while (S (Z.to_nat (Qfloor (level0 / d) + 1))) Illustrate.animate_cond
      body (Illustrate.mkLoopState [] level0) = Ok s /\
    illustrate_inv self d level0 (Z.to_nat (Qfloor (level0 / d) + 1)) s /\
    Illustrate.level s < 0.
Proof.
  intros Hd Hs Ha.
  destruct (while_total
              (illustrate_inv self d level0 (Z.to_nat (Qfloor (level0 / d) + 1)))
              (fun s => Z.to_nat (Qfloor (Illustrate.level s / d) + 1))
              Illustrate.animate_cond body) with
    (fuel := S (Z.to_nat (Qfloor (level0 / d) + 1)))
    (s := Illustrate.mkLoopState [] level0)
    as (s & Hrun & Hinv & Hstop).
  - intros s Hinv Hcond. now apply illustrate_inv_step.
  - apply illustrate_inv_init.
  - simpl. lia.
  - exists s. split; [assumption|]. split; [assumption|].
    now apply Qle_bool_false in Hstop.
Qed.

(** Whatever the budget, a finished run satisfies the invariant. *)
Lemma illustrate_loop_partial d level0 fuel s :
  0 < d -> d <= step -> d <= step * accel ->
  while fuel Illustrate.animate_cond body (Illustrate.mkLoopState [] level0)
  = Ok s ->
  illustrate_inv self d level0 (Z.to_nat (Qfloor (level0 / d) + 1)) s.
Proof.
  intros Hd Hs Ha Hrun.
  apply (while_invariant
           (illustrate_inv self d level0 (Z.to_nat (Qfloor (level0 / d) + 1)))
           Illustrate.animate_cond body) in Hrun.
  - apply Hrun.
  - intros s0 Hinv Hcond. now apply illustrate_inv_step.
  - apply illustrate_inv_init.
Qed.

(** In every frame that is not intact, each part is drawn at the larger of
    the frame's level and its own level. *)
Lemma illustrate_loop_frames fuel level0 s :
  while fuel Illustrate.animate_cond body (Illustrate.mkLoopState [] level0)
  = Ok s ->
  Forall (fun f => frame_intact f = false ->
                   segments f = cut_segments as_level
                                  (Illustrate._get_color self)
                                  (frame_level f) (parts split))
    (Illustrate.frames s).
Proof.
  intros Hrun.
  apply (while_invariant
           (fun s => Forall (fun f => frame_intact f = false ->
                                      segments f = cut_segments as_level
                                        (Illustrate._get_color self)
                                        (frame_level f) (parts split))
                       (Illustrate.frames s))
           Illustrate.animate_cond body) in Hrun.
  - apply Hrun.
  - intros s0 Hinv _.
    destruct (illustrate_body_spec s0) as (f & Hfr & Hfl & _ & _ & Hseg).
    rewrite Hfr. apply Forall_app. split; [assumption|].
    constructor; [|constructor]. intros Hi. rewrite Hi in Hseg.
    now rewrite Hfl.
  - constructor.
Qed.

End IllustrateLoop.

(** The iteration of the source is [illustrate_step], unless a drawing call
    raises. *)
Lemma get_point_ok (self : Illustrate.Drawer) :
  Illustrate.max_position self <> 0 ->
  ~ (1 + (inject_Z (Illustrate.max_level self) - 1)
         * Illustrate.vertical_stretch self == 0)%Q ->
  Illustrate._get_point self = Ok tt.
Proof.
  intros Hmp Hden. unfold Illustrate._get_point.
  apply Z.eqb_neq in Hmp. rewrite Hmp.
  destruct (Qeq_bool _ 0) eqn:He; [|reflexivity].
  apply Qeq_bool_iff in He. contradiction.
Qed.

Lemma draw_spikes_ok (self : Illustrate.Drawer) :
  Illustrate._get_point self = Ok tt -> Illustrate._draw_spikes self = Ok tt.
Proof.
  intros H. unfold Illustrate._draw_spikes. rewrite H.
  destruct (0 <=? Illustrate.max_position self); simpl;
    destruct (Illustrate.level_ticks self && (1 <=? Illustrate.max_level self));
    reflexivity.
Qed.

Lemma draw_segment_ok (self : Illustrate.Drawer) l r level color seg :
  Illustrate._draw_segment self l r level color = Ok seg ->
  seg = mkSegment l r level color.
Proof.
  unfold Illustrate._draw_segment.
  destruct (Illustrate._get_point self) as [[]| |]; simpl; congruence.
Qed.

Lemma draw_segment_defined (self : Illustrate.Drawer) l r level color :
  Illustrate._get_point self = Ok tt ->
  Illustrate._draw_segment self l r level color
  = Ok (mkSegment l r level color).
Proof. intros H. unfold Illustrate._draw_segment. now rewrite H. Qed.

Lemma map_m_ok {A B : Type} (f : A -> outcome B) (g : A -> B) :
  (forall x y, f x = Ok y -> y = g x) ->
  forall l r, map_m f l = Ok r -> r = map g l.
Proof.
  intros Hf l. induction l as [|x l IH]; intros r H; simpl in *.
  - congruence.
  - destruct (f x) as [y| |] eqn:Hx; simpl in H; try discriminate.
    destruct (map_m f l) as [ys| |]; simpl in H; try discriminate.
    injection H as <-. now rewrite (Hf x y Hx), (IH ys eq_refl).
Qed.

Lemma map_m_defined {A B : Type} (f : A -> outcome B) (g : A -> B) :
  (forall x, f x = Ok (g x)) -> forall l, map_m f l = Ok (map g l).
Proof.
  intros Hf l. induction l as [|x l IH]; simpl; [reflexivity|].
  now rewrite Hf, IH.
Qed.

Lemma illustrate_body_ok (self : Illustrate.Drawer) left right split s s' :
  Illustrate.animate_body self left right split s = Ok s' ->
  s' = illustrate_step self left right split s.
Proof.
  unfold Illustrate.animate_body, illustrate_step. cbv zeta.
  destruct (is_intact _ split (Illustrate.level s)).
  - destruct (Illustrate._draw_segment _ _ _ _ _) as [seg| |] eqn:Hd;
      cbn [bind]; try discriminate.
    apply draw_segment_ok in Hd. subst seg. intros [= <-]. reflexivity.
  - destruct (map_m _ (parts split)) as [drawn| |] eqn:Hd;
      cbn [bind]; try discriminate.
    apply (map_m_ok _
             (fun part =>
                mkSegment (start part) (end_ part)
                  (py_max (Illustrate.level s)
                     (inject_Z
                        (Illustrate._as_level (Illustrate.logarithmic self)
                           (height part))))
                  (Illustrate._get_color self (is_left part)))) in Hd.
    + subst drawn. intros [= <-]. reflexivity.
    + intros part seg. apply draw_segment_ok.
Qed.

Lemma illustrate_body_defined (self : Illustrate.Drawer) left right split s :
  Illustrate._get_point self = Ok tt ->
  Illustrate.animate_body self left right split s
  = Ok (illustrate_step self left right split s).
Proof.
  intros Hg. unfold Illustrate.animate_body, illustrate_step. cbv zeta.
  destruct (is_intact _ split (Illustrate.level s)).
  - rewrite (draw_segment_defined _ _ _ _ _ Hg). reflexivity.
  - rewrite (map_m_defined _
               (fun part =>
                  mkSegment (start part) (end_ part)
                    (py_max (Illustrate.level s)
                       (inject_Z
                          (Illustrate._as_level (Illustrate.logarithmic self)
                             (height part))))
                    (Illustrate._get_color self (is_left part)))).
    + reflexivity.
    + intros part. now apply draw_segment_defined.
Qed.

(** *** [animate] (animate.py) *)

Section AnimateLoop.

Local Open Scope Q_scope.

Variables (logarithmic : bool) (left right : Z) (split : Parts)
          (step accel : Q).

Local Abbreviation next := (next_level step accel).
Local Abbreviation body :=
  (Animate.animate_body logarithmic left right split step accel).
Local Abbreviation as_level := (Animate.as_level logarithmic).

Lemma animate_body_spec s :
  exists f,
    Animate.frames (body s) = Animate.frames s ++ [f] /\
    frame_level f = Animate.level s /\
    Animate.level (body s) = next f /\
    frame_intact f = is_intact as_level split (Animate.level s) /\
    segments f =
      if frame_intact f
      then [mkSegment left right (Animate.level s) (Animate.paint s)]
      else cut_segments as_level
             (fun is_left => if is_left then ColorBLUE else ColorRED)
             (Animate.level s) (parts split).
Proof.
  eexists. split; [reflexivity|]. simpl.
  split; [reflexivity|]. split; [reflexivity|]. split; [reflexivity|].
  destruct (is_intact as_level split (Animate.level s)); reflexivity.
Qed.

Lemma animate_inv_step d level0 n0 s :
  0 < d -> d <= step -> d <= step * accel ->
  animate_inv step accel d level0 n0 s -> Animate.animate_cond s = true ->
  animate_inv step accel d level0 n0 (body s) /\
  (Z.to_nat (Qceiling (Animate.level (body s) / d))
   < Z.to_nat (Qceiling (Animate.level s / d)))%nat.
Proof.
  intros Hd Hs Ha (Hc & Hf & Hn) Hcond.
  apply Qltb_true in Hcond.
  destruct (animate_body_spec s) as (f & Hfr & Hfl & Hlv & _).
  pose proof (next_level_le step accel d f Hs Ha) as Hnext.
  pose proof (ceiling_div_pos _ d Hcond Hd) as Hnn.
  assert (Hceil : (Qceiling (next f / d) + 1
                   <= Qceiling (Animate.level s / d))%Z).
  { apply ceiling_step; [assumption|]. now rewrite <- Hfl. }
  rewrite Hlv. split; [|lia].
  unfold animate_inv. cbv zeta. rewrite Hfr, Hlv, length_app.
  cbn [length].
  split; [|split].
  - apply countdown_snoc. now rewrite Hfl.
  - apply Forall_app. split; [assumption|].
    constructor; [|constructor]. split; [now rewrite Hfl | assumption].
  - lia.
Qed.

Lemma animate_inv_init d level0 c :
  animate_inv step accel d level0 (Z.to_nat (Qceiling (level0 / d)))
    (Animate.mkLoopState [] level0 c).
Proof. unfold animate_inv. simpl. auto. Qed.

Lemma animate_loop_total d level0 c :
  0 < d -> d <= step -> d <= step * accel ->
  exists s,
    while (S (Z.to_nat (Qceiling (level0 / d)))) Animate.animate_cond
      body (Animate.mkLoopState [] level0 c) = Ok s /\
    animate_inv step accel d level0 (Z.to_nat (Qceiling (level0 / d))) s /\
    Animate.level s <= 0.
Proof.
  intros Hd Hs Ha.
  destruct (while_total
              (animate_inv step accel d level0 (Z.to_nat (Qceiling (level0 / d))))
              (fun s => Z.to_nat (Qceiling (Animate.level s / d)))
              Animate.animate_cond body) with
    (fuel := S (Z.to_nat (Qceiling (level0 / d))))
    (s := Animate.mkLoopState [] level0 c)
    as (s & Hrun & Hinv & Hstop).
  - intros s Hinv Hcond. now apply animate_inv_step.
  - apply animate_inv_init.
  - simpl. lia.
  - exists s. split; [assumption|]. split; [assumption|].
    now apply Qltb_false in Hstop.
Qed.

Lemma animate_loop_partial d level0 c fuel s :
  0 < d -> d <= step -> d <= step * accel ->
  while fuel Animate.animate_cond body (Animate.mkLoopState [] level0 c)
  = Ok s ->
  animate_inv step accel d level0 (Z.to_nat (Qceiling (level0 / d))) s.
Proof.
  intros Hd Hs Ha Hrun.
  apply (while_invariant
           (animate_inv step accel d level0 (Z.to_nat (Qceiling (level0 / d))))
           Animate.animate_cond body) in Hrun.
  - apply Hrun.
  - intros s0 Hinv Hcond. now apply animate_inv_step.
  - apply animate_inv_init.
Qed.

(** Frames are yielded at positive levels only, and in those that are not
    intact each part is drawn at the larger of the frame's level and its
    own level. *)
Lemma animate_loop_frames fuel level0 c s :
  while fuel Animate.animate_cond body (Animate.mkLoopState [] level0 c)
  = Ok s ->
  Forall (fun f =>
            0 < frame_level f /\
            (frame_intact f = false ->
             segments f = cut_segments as_level
                            (fun is_left =>
                               if is_left then ColorBLUE else ColorRED)
                            (frame_level f) (parts split)))
    (Animate.frames s).
Proof.
  intros Hrun.
  apply (while_invariant
           (fun s =>
              Forall (fun f =>
                        0 < frame_level f /\
                        (frame_intact f = false ->
                         segments f = cut_segments as_level
                                        (fun is_left =>
                                           if is_left then ColorBLUE
                                           else ColorRED)
                                        (frame_level f) (parts split)))
                (Animate.frames s))
           Animate.animate_cond body) in Hrun.
  - apply Hrun.
  - intros s0 Hinv Hcond. apply Qltb_true in Hcond.
    destruct (animate_body_spec s0) as (f & Hfr & Hfl & _ & _ & Hseg).
    rewrite Hfr. apply Forall_app. split; [assumption|].
    constructor; [|constructor]. rewrite Hfl. split; [assumption|].
    intros Hi. now rewrite Hi in Hseg.
  - constructor.
Qed.

End AnimateLoop.

(** ** Termination and number of frames *)

Section Termination.

Local Open Scope Q_scope.

Lemma positive_decrement step accel :
  0 < step -> 0 < accel ->
  exists d, 0 < d /\ d <= step /\ d <= step * accel.
Proof.
  intros Hs Ha. pose proof (Qmult_lt_0_compat _ _ Hs Ha) as Hp.
  destruct (Qlt_le_dec 1 accel) as [H1|H1].
  - exists step. split; [assumption|]. split; [lra|]. nra.
  - exists (step * accel). split; [assumption|]. split; [nra | lra].
Qed.

Lemma into_parts_returns (self : Illustrate.Drawer) (left right : Z) :
  (0 <= left <= right)%Z ->
  exists split,
    Animate.into_parts left right = Ok split /\
    Illustrate._into_parts self left right = Ok (flip_parts split).
Proof.
  intros Hlr.
  destruct (into_parts_spec left right Hlr) as (lp & rp & m & _ & _ & H & _).
  eexists. split; [exact H|]. rewrite illustrate_into_parts, H. reflexivity.
Qed.

(** [Drawer.animate] on a valid range, with positive [level_step] and
    [accelerate_intact], for a drawer whose points are defined. *)
Lemma illustrate_animate_terminates (self : Illustrate.Drawer)
  (left right : Z) (start_level : option Q) :
  (0 <= left <= right)%Z ->
  Illustrate._get_point self = Ok tt ->
  0 < Illustrate.level_step self -> 0 < Illustrate.accelerate_intact self ->
  let step := Illustrate.level_step self in
  let accel := Illustrate.accelerate_intact self in
  let level0 := match start_level with
                | None => inject_Z (Illustrate.max_level self)
                | Some l => l
                end in
  exists fuel fs final,
    Illustrate.animate self left right start_level fuel = Ok fs /\
    countdown (next_level step accel) level0 fs final /\
    final < 0 /\
    Forall (fun f => 0 <= frame_level f /\
                     next_level step accel f < frame_level f) fs /\
    (1 <= accel ->
     (length fs <= Z.to_nat (Qfloor (level0 / step) + 1))%nat).
Proof.
  intros Hlr Hg Hs Ha. cbv zeta.
  set (level0 := match start_level with
                 | None => inject_Z (Illustrate.max_level self)
                 | Some l => l
                 end).
  destruct (positive_decrement _ _ Hs Ha) as (d & Hd & Hds & Hda).
  destruct (into_parts_returns self left right Hlr) as (split0 & _ & Hsplit).
  destruct (illustrate_loop_total self left right (flip_parts split0) d
              level0 Hd Hds Hda)
    as (s & Hrun & (Hc & Hf & _) & Hfinal).
  exists (S (Z.to_nat (Qfloor (level0 / d) + 1))), (Illustrate.frames s),
    (Illustrate.level s).
  split.
  { unfold Illustrate.animate. rewrite (draw_spikes_ok self Hg). cbn [bind].
    rewrite Hsplit. cbn [bind]. fold level0.
    rewrite (while_m_pure _ _
               (illustrate_step self left right (flip_parts split0))
               (fun s0 => illustrate_body_defined self left right
                            (flip_parts split0) s0 Hg)).
    rewrite Hrun. reflexivity. }
  split; [exact Hc|]. split; [exact Hfinal|]. split.
  - eapply Forall_impl; [|exact Hf]. intros f [H0 Hn]. split; [exact H0|].
    lra.
  - intros H1.
    assert (Hsa : Illustrate.level_step self
                  <= Illustrate.level_step self
                     * Illustrate.accelerate_intact self) by nra.
    destruct (illustrate_loop_partial self left right (flip_parts split0)
                (Illustrate.level_step self) level0 _ s Hs (Qle_refl _) Hsa
                Hrun)
      as (_ & _ & Hn).
    lia.
Qed.

Lemma default_height_ok logarithmic width height max_position :
  max_position <> 0%Z ->
  exists h,
    Animate.default_height logarithmic width height (PyInt max_position)
    = Ok h.
Proof.
  intros Hmp. unfold Animate.default_height.
  apply Z.eqb_neq in Hmp.
  destruct height as [|h]; simpl.
  - destruct logarithmic; simpl; rewrite Hmp; eexists; reflexivity.
  - destruct (h =? 0)%Z; simpl; [|eexists; reflexivity].
    destruct logarithmic; simpl; rewrite Hmp; eexists; reflexivity.
Qed.

(** [animate] of animate.py on a valid range. *)
Lemma animate_animate_terminates (left right max_position width : Z)
  (height : pyval) (level_step : Q) (accelerate_intact : option Q)
  (logarithmic : bool) :
  (0 <= left <= right)%Z -> max_position <> 0%Z ->
  0 < level_step ->
  0 < Animate.default_accelerate_intact logarithmic accelerate_intact ->
  let accel := Animate.default_accelerate_intact logarithmic accelerate_intact
  in
  let level0 := inject_Z (Animate.max_level logarithmic max_position) in
  exists fuel fs final,
    Animate.animate left right (PyInt max_position) width height level_step
      accelerate_intact logarithmic fuel = Ok fs /\
    countdown (next_level level_step accel) level0 fs final /\
    final <= 0 /\
    Forall (fun f => 0 < frame_level f /\
                     next_level level_step accel f < frame_level f) fs /\
    (1 <= accel ->
     (length fs <= Z.to_nat (Qceiling (level0 / level_step)))%nat).
Proof.
  intros Hlr Hmp Hs Ha. cbv zeta.
  set (accel := Animate.default_accelerate_intact logarithmic
                  accelerate_intact) in *.
  set (level0 := inject_Z (Animate.max_level logarithmic max_position)).
  destruct (positive_decrement level_step accel Hs Ha)
    as (d & Hd & Hds & Hda).
  destruct (into_parts_returns drawer left right Hlr) as (split & Hsplit & _).
  destruct (default_height_ok logarithmic width height max_position Hmp)
    as [h Hh].
  destruct (animate_loop_total logarithmic left right split level_step accel
              d level0 ColorMAGENTA Hd Hds Hda)
    as (s & Hrun & (Hc & Hf & _) & Hfinal).
  exists (S (Z.to_nat (Qceiling (level0 / d)))), (Animate.frames s),
    (Animate.level s).
  split.
  { unfold Animate.animate. rewrite Hh. cbn [bind].
    unfold Animate.draw_slicers. apply Z.eqb_neq in Hmp. rewrite Hmp.
    cbn [bind]. rewrite Hsplit. cbn [bind]. fold accel. fold (Animate.max_level logarithmic max_position).
    fold level0. rewrite Hrun. reflexivity. }
  split; [exact Hc|]. split; [exact Hfinal|]. split.
  - eapply Forall_impl; [|exact Hf]. intros f [H0 Hn]. split; [exact H0|].
    lra.
  - intros H1.
    assert (Hsa : level_step <= level_step * accel) by nra.
    destruct (animate_loop_partial logarithmic left right split level_step
                accel level_step level0 ColorMAGENTA _ s Hs (Qle_refl _) Hsa
                Hrun)
      as (_ & _ & Hn).
    lia.
Qed.

End Termination.

Lemma while_unfold {S : Type} fuel (cond : S -> bool) (body : S -> S) s :
  while (Datatypes.S fuel) cond body s
  = if cond s then while fuel cond body (body s) else Ok s.
Proof. reflexivity. Qed.

(** With [accelerate_intact=0] the level of an intact range never moves. *)
Lemma animate_stuck_loop fuel fs :
  while fuel Animate.animate_cond
    (Animate.animate_body false 9 29
       (mkParts (parts_9_29 true false) (Finite 16)) (1 # 2) 0)
    (Animate.mkLoopState fs 64 ColorMAGENTA) = OutOfFuel.
Proof.
  revert fs. induction fuel as [|fuel IH]; intros fs; [reflexivity|].
  rewrite while_unfold.
  change (Animate.animate_cond (Animate.mkLoopState fs 64 ColorMAGENTA))
    with true.
  cbv iota.
  change (Animate.animate_body false 9 29
            (mkParts (parts_9_29 true false) (Finite 16)) (1 # 2) 0
            (Animate.mkLoopState fs 64 ColorMAGENTA))
    with (Animate.mkLoopState
            (fs ++ [mkFrame 64 true [mkSegment 9 29 64 ColorMAGENTA]])
            64 ColorMAGENTA).
  apply IH.
Qed.




(** ** Levels at which the parts are drawn *)

(** The frame that the logarithmic drawer of the script yields at level 0
    for the range [[9, 29)]. *)
Lemma log_drawer_last_frame_9_29 :
  exists fs,
    Illustrate.animate log_drawer 9 29 None 40 = Ok fs /\
    last fs (mkFrame 0 false [])
    = mkFrame 0 false
        [mkSegment 9 10 1 (ColorRGB 223 129 184);
         mkSegment 10 12 2 (ColorRGB 223 129 184);
         mkSegment 12 16 3 (ColorRGB 223 129 184);
         mkSegment 16 24 4 (ColorRGB 140 173 237);
         mkSegment 24 28 3 (ColorRGB 140 173 237);
         mkSegment 28 29 1 (ColorRGB 140 173 237)].
Proof. eexists. split; vm_compute; reflexivity. Qed.

(** C7, as stated, fails: in the frame at level 0 the part (16,24,h=8) is
    drawn at level [bit_length(8) = 4], not 3. *)
Lemma part_of_height_8_not_at_level_3 :
  Illustrate._as_level true 8 = 4 /\
  exists fs f,
    Illustrate.animate log_drawer 9 29 None 40 = Ok fs /\
    In f fs /\ frame_level f = 0%Q /\ frame_intact f = false /\
    In (mkSegment 16 24 4 (ColorRGB 140 173 237)) (segments f) /\
    forall s, In s (segments f) -> seg_left s = 16 -> seg_right s = 24 ->
              ~ (seg_level s == 3)%Q.
Proof.
  split; [reflexivity|].
  destruct log_drawer_last_frame_9_29 as (fs & Hrun & Hlast).
  exists fs, (last fs (mkFrame 0 false [])).
  split; [exact Hrun|]. split.
  { vm_compute in Hrun. injection Hrun as <-. vm_compute. tauto. }
  rewrite Hlast. split; [reflexivity|]. split; [reflexivity|]. split.
  { simpl. tauto. }
  intros s Hin Hl Hr. simpl in Hin.
  destruct Hin as [<-|[<-|[<-|[<-|[<-|[<-|[]]]]]]]; simpl in Hl, Hr;
    discriminate.
Qed.

Lemma illustrate_animate_frames (self : Illustrate.Drawer) (left right : Z)
  (start_level : option Q) (fuel : nat) (fs : list Frame) :
  Illustrate.animate self left right start_level fuel = Ok fs ->
  exists split,
    Illustrate._into_parts self left right = Ok split /\
    Forall (fun f =>
              frame_intact f = false ->
              segments f
              = cut_segments (Illustrate._as_level (Illustrate.logarithmic self))
                  (Illustrate._get_color self) (frame_level f) (parts split))
      fs.
Proof.
  unfold Illustrate.animate. intros H.
  destruct (Illustrate._draw_spikes self) as [[]| |];
    cbn [bind] in H; try discriminate.
  destruct (Illustrate._into_parts self left right) as [split| |];
    cbn [bind] in H; try discriminate.
  match type of H with
  | bind ?w _ = _ => destruct w as [s| |] eqn:Hrun
  end; cbn [bind] in H; try discriminate.
  injection H as <-. exists split. split; [reflexivity|].
  apply (while_m_ok _ _ (illustrate_step self left right split)) in Hrun.
  - apply (illustrate_loop_frames _ _ _ _ _ _ _ Hrun).
  - intros s0 s1. apply illustrate_body_ok.
Qed.

Lemma animate_animate_frames (left right : Z) (max_position : pyval)
  (width : Z) (height : pyval) (level_step : Q)
  (accelerate_intact : option Q) (logarithmic : bool) (fuel : nat)
  (fs : list Frame) :
  Animate.animate left right max_position width height level_step
    accelerate_intact logarithmic fuel = Ok fs ->
  exists split,
    Animate.into_parts left right = Ok split /\
    Forall (fun f =>
              (0 < frame_level f)%Q /\
              (frame_intact f = false ->
               segments f
               = cut_segments (Animate.as_level logarithmic)
                   (fun is_left => if is_left then ColorBLUE else ColorRED)
                   (frame_level f) (parts split)))
      fs.
Proof.
  unfold Animate.animate. intros H.
  destruct (Animate.default_height logarithmic width height max_position)
    as [h| |]; cbn [bind] in H; try discriminate.
  destruct (Animate.draw_slicers _) as [[]| |];
    cbn [bind] in H; try discriminate.
  destruct (Animate.into_parts left right) as [split| |];
    cbn [bind] in H; try discriminate.
  match type of H with
  | bind ?w _ = _ => destruct w as [s| |] eqn:Hrun
  end; cbn [bind] in H; try discriminate.
  injection H as <-. exists split. split; [reflexivity|].
  apply (animate_loop_frames _ _ _ _ _ _ _ _ _ _ Hrun).
Qed.

(** C7, amended.  In logarithmic mode, for the range [[9, 29)], the drawer
    of illustrate.py yields a frame at level 0, and there the part
    (28,29,h=1) is drawn at level 1 and the part (16,24,h=8) at level
    [bit_length(8) = 4]; the levels of the six parts are 1, 2, 3, 4, 3, 1.
    In every frame that is not intact, in both scripts, each part is drawn
    from [start] to [end] at [max(level, as_level(height))].  The loop of
    animate.py yields frames at positive levels only, so none at level 0. *)
Theorem parts_drawn_at_max_of_levels :
  (exists fs,
      Illustrate.animate log_drawer 9 29 None 40 = Ok fs /\
      last fs (mkFrame 0 false [])
      = mkFrame 0 false
          [mkSegment 9 10 1 (ColorRGB 223 129 184);
           mkSegment 10 12 2 (ColorRGB 223 129 184);
           mkSegment 12 16 3 (ColorRGB 223 129 184);
           mkSegment 16 24 4 (ColorRGB 140 173 237);
           mkSegment 24 28 3 (ColorRGB 140 173 237);
           mkSegment 28 29 1 (ColorRGB 140 173 237)]) /\
  (forall a b,
      (a <= py_max a b)%Q /\ (b <= py_max a b)%Q /\
      (py_max a b = a \/ py_max a b = b)) /\
  (forall self left right start_level fuel fs,
      Illustrate.animate self left right start_level fuel = Ok fs ->
      exists split,
        Illustrate._into_parts self left right = Ok split /\
        Forall (fun f =>
                  frame_intact f = false ->
                  segments f
                  = map (fun part =>
                           mkSegment (start part) (end_ part)
                             (py_max (frame_level f)
                                (inject_Z
                                   (Illustrate._as_level
                                      (Illustrate.logarithmic self)
                                      (height part))))
                             (Illustrate._get_color self (is_left part)))
                      (parts split))
          fs) /\
  (forall left right max_position width height' level_step accelerate_intact
          logarithmic fuel fs,
      Animate.animate left right max_position width height' level_step
        accelerate_intact logarithmic fuel = Ok fs ->
      exists split,
        Animate.into_parts left right = Ok split /\
        Forall (fun f =>
                  (0 < frame_level f)%Q /\
                  (frame_intact f = false ->
                   segments f
                   = map (fun part =>
                            mkSegment (start part) (end_ part)
                              (py_max (frame_level f)
                                 (inject_Z
                                    (Animate.as_level logarithmic
                                       (height part))))
                              (if is_left part then ColorBLUE else ColorRED))
                       (parts split)))
          fs).
Proof.
  split; [exact log_drawer_last_frame_9_29|].
  split; [exact py_max_spec|].
  split.
  - intros self left right start_level fuel fs H.
    exact (illustrate_animate_frames self left right start_level fuel fs H).
  - intros left right max_position width height level_step accelerate_intact
           logarithmic fuel fs H.
    exact (animate_animate_frames left right max_position width height
             level_step accelerate_intact logarithmic fuel fs H).
Qed.

Lemma parts_drawn_at_max_of_levels_witness :
  exists fs split,
    Animate.animate 9 29 (PyInt 64) 1024 PyNone (1 # 2) None true 40 = Ok fs /\
    Animate.into_parts 9 29 = Ok split /\
    Forall (fun f =>
              (0 < frame_level f)%Q /\
              (frame_intact f = false ->
               segments f
               = map (fun part =>
                        mkSegment (start part) (end_ part)
                          (py_max (frame_level f)
                             (inject_Z (Animate.as_level true (height part))))
                          (if is_left part then ColorBLUE else ColorRED))
                   (parts split)))
      fs.
Proof.
  destruct parts_drawn_at_max_of_levels as (_ & _ & _ & H).
  eexists.
  assert (Hrun : Animate.animate 9 29 (PyInt 64) 1024 PyNone (1 # 2) None
                   true 40 = Ok _) by (vm_compute; reflexivity).
  destruct (H _ _ _ _ _ _ _ _ _ _ Hrun) as (split & Hs & Hf).
  exists split. split; [exact Hrun|]. split; [exact Hs | exact Hf].
Defined.

(** * Further properties of the two scripts *)

(** ** More on the decomposition *)

Section IntoPartsMore.

Import Animate.

(** What holds of every part either loop can emit holds of every part of
    a result. *)
Lemma into_parts_forall (P : Part -> Prop) :
  (forall x flag, 0 < x -> P (mkPart (_prev x) x (lsb x) flag)) ->
  (forall x flag, 0 < x -> P (mkPart x (_next x) (lsb x) flag)) ->
  forall l r split, into_parts l r = Ok split -> Forall P (parts split).
Proof.
  intros Hright Hleft l r split. unfold into_parts.
  destruct (right_loop l r) as [[rp m]| |] eqn:Hr; simpl; try discriminate.
  destruct (left_loop l m) as [[lp x]| |] eqn:Hl; simpl; try discriminate.
  destruct (x =? m); simpl; [|discriminate].
  intros [= <-]. simpl. apply Forall_app. split.
  - unfold left_loop in Hl.
    apply (while_invariant (fun s => Forall P (fst s))
             (left_cond m) left_body) in Hl; [apply Hl | | constructor].
    intros [ps y] Hf Hcond. apply left_cond_true in Hcond. simpl in *.
    apply Forall_app. split; [assumption|].
    constructor; [apply Hleft; lia | constructor].
  - apply Forall_rev. unfold right_loop in Hr.
    apply (while_invariant (fun s => Forall P (fst s))
             (right_cond l) right_body) in Hr; [apply Hr | | constructor].
    intros [ps y] Hf Hcond. apply right_cond_true in Hcond. simpl in *.
    apply Forall_app. split; [assumption|].
    constructor; [apply Hright; lia | constructor].
Qed.

Lemma lsb_divides x : 0 < x -> (lsb x | x).
Proof.
  intros Hx. destruct (lsb_decomp x Hx) as (k & q & _ & _ & Hxe & Hl).
  rewrite Hl. exists (2 * q + 1). lia.
Qed.

Lemma flip_parts_forall (P : Part -> Prop) split :
  (forall p, P p -> P (flip_part p)) ->
  Forall P (parts split) -> Forall P (parts (flip_parts split)).
Proof.
  intros Hflip H. unfold flip_parts. simpl. apply Forall_map.
  eapply Forall_impl; [|exact H]. exact Hflip.
Qed.

(** A result of illustrate.py is a result of animate.py, flipped. *)
Lemma illustrate_into_parts_ok self l r split :
  Illustrate._into_parts self l r = Ok split ->
  exists split0, into_parts l r = Ok split0 /\ split = flip_parts split0.
Proof.
  rewrite illustrate_into_parts.
  destruct (into_parts l r) as [split0| |]; simpl; try discriminate.
  intros [= <-]. exists split0. auto.
Qed.

(** X1. Whenever the decomposition returns, in either script, every part
    is an aligned block: its height divides its start and its end. *)
Theorem into_parts_aligned (self : Illustrate.Drawer) (left right : Z)
  (split : Parts) :
  into_parts left right = Ok split \/
  Illustrate._into_parts self left right = Ok split ->
  Forall aligned (parts split).
Proof.
  assert (Hanimate : forall split0,
             into_parts left right = Ok split0 ->
             Forall aligned (parts split0)).
  { apply into_parts_forall; intros x flag Hx; split; simpl.
    - apply Z.divide_sub_r; [apply lsb_divides, Hx | apply Z.divide_refl].
    - apply lsb_divides, Hx.
    - apply lsb_divides, Hx.
    - apply Z.divide_add_r; [apply lsb_divides, Hx | apply Z.divide_refl]. }
  intros [H|H]; [now apply Hanimate|].
  apply illustrate_into_parts_ok in H. destruct H as (split0 & H0 & ->).
  apply flip_parts_forall; [|now apply Hanimate].
  intros p Hp. exact Hp.
Qed.

Lemma into_parts_aligned_witness :
  (into_parts 3 37
   = Ok (mkParts [mkPart 3 4 1 true; mkPart 4 8 4 true; mkPart 8 16 8 true;
                  mkPart 16 32 16 true; mkPart 32 36 4 false;
                  mkPart 36 37 1 false] (Finite 32)) \/
   Illustrate._into_parts drawer 3 37
   = Ok (mkParts [mkPart 3 4 1 true; mkPart 4 8 4 true; mkPart 8 16 8 true;
                  mkPart 16 32 16 true; mkPart 32 36 4 false;
                  mkPart 36 37 1 false] (Finite 32))) /\
  Forall aligned
    [mkPart 3 4 1 true; mkPart 4 8 4 true; mkPart 8 16 8 true;
     mkPart 16 32 16 true; mkPart 32 36 4 false; mkPart 36 37 1 false].
Proof.
  assert (H : into_parts 3 37
              = Ok (mkParts [mkPart 3 4 1 true; mkPart 4 8 4 true;
                             mkPart 8 16 8 true; mkPart 16 32 16 true;
                             mkPart 32 36 4 false; mkPart 36 37 1 false]
                      (Finite 32))) by reflexivity.
  split; [left; exact H|].
  exact (into_parts_aligned drawer 3 37 _ (or_introl H)).
Defined.

End IntoPartsMore.

Section IntoPartsSize.

Import Animate.

Lemma pow2_le_bit_length n y :
  0 <= n -> 2 ^ n <= y -> n + 1 <= bit_length y.
Proof.
  intros Hn Hy. assert (0 < 2 ^ n) by (apply Z.pow_pos_nonneg; lia).
  rewrite bit_length_log2 by lia.
  apply Z.log2_le_mono in Hy. rewrite Z.log2_pow2 in Hy by assumption. lia.
Qed.

(** The blocks a cursor emits at least double in height, so a cursor that
    stays within a range emits at most as many as its length has bits. *)
Lemma right_loop_length l r rp m :
  right_loop l r = Ok (rp, m) ->
  m <= r /\ Z.of_nat (length rp) <= bit_length (r - l).
Proof.
  intros Hrun. unfold right_loop in Hrun.
  apply (while_invariant
           (fun s => snd s <= r /\
                     Z.of_nat (length (fst s)) <= bit_length (r - l) /\
                     (0 < snd s ->
                      2 ^ Z.of_nat (length (fst s)) <= lsb (snd s)))
           (right_cond l) right_body) in Hrun.
  - simpl in Hrun. lia.
  - intros [ps x] (Hx & Hn & Hp) Hcond. apply right_cond_true in Hcond.
    simpl in *. destruct Hcond as [Hpos Hl].
    pose proof (lsb_pos x Hpos) as Hlsb. specialize (Hp Hpos).
    rewrite length_app. simpl. unfold _prev in *.
    split; [lia|]. split.
    + rewrite Nat2Z.inj_add. simpl. apply pow2_le_bit_length; lia.
    + intros Hp'. pose proof (lsb_prev x Hp') as Hd. unfold _prev in Hd.
      rewrite Nat2Z.inj_add, Z.pow_add_r by lia. simpl. lia.
  - simpl. split; [lia|]. split; [apply bit_length_nonneg|].
    intros Hr. pose proof (lsb_pos r Hr). lia.
Qed.

Lemma left_loop_length l m r lp x :
  m <= r -> left_loop l m = Ok (lp, x) ->
  Z.of_nat (length lp) <= bit_length (r - l).
Proof.
  intros Hmr Hrun. unfold left_loop in Hrun.
  apply (while_invariant
           (fun s => l <= snd s /\
                     Z.of_nat (length (fst s)) <= bit_length (r - l) /\
                     (0 < snd s ->
                      2 ^ Z.of_nat (length (fst s)) <= lsb (snd s)))
           (left_cond m) left_body) in Hrun.
  - simpl in Hrun. lia.
  - intros [ps y] (Hy & Hn & Hp) Hcond. apply left_cond_true in Hcond.
    simpl in *. destruct Hcond as [Hpos Hl].
    pose proof (lsb_pos y Hpos) as Hlsb. specialize (Hp Hpos).
    pose proof (lsb_next y Hpos) as Hd.
    rewrite length_app. simpl. unfold _next in *.
    split; [lia|]. split.
    + rewrite Nat2Z.inj_add. simpl. apply pow2_le_bit_length; lia.
    + intros _. rewrite Nat2Z.inj_add, Z.pow_add_r by lia. simpl. lia.
  - simpl. split; [lia|]. split; [apply bit_length_nonneg|].
    intros Hl. pose proof (lsb_pos l Hl). lia.
Qed.

(** X2. The decomposition is logarithmic: whenever it returns, in either
    script, it has at most [2 * bit_length(right - left)] parts. *)
Theorem into_parts_logarithmic (self : Illustrate.Drawer) (left right : Z)
  (split : Parts) :
  into_parts left right = Ok split \/
  Illustrate._into_parts self left right = Ok split ->
  Z.of_nat (length (parts split)) <= 2 * bit_length (right - left).
Proof.
  assert (Hanimate : forall split0,
             into_parts left right = Ok split0 ->
             Z.of_nat (length (parts split0))
             <= 2 * bit_length (right - left)).
  { intros split0. unfold into_parts.
    destruct (right_loop left right) as [[rp m]| |] eqn:Hr;
      cbn [bind fst snd]; try discriminate.
    destruct (left_loop left m) as [[lp x]| |] eqn:Hl;
      cbn [bind fst snd]; try discriminate.
    destruct (x =? m); cbn [negb]; [|discriminate].
    intros [= <-]. cbn [parts].
    destruct (right_loop_length _ _ _ _ Hr) as [Hm Hrp].
    pose proof (left_loop_length _ _ right _ _ Hm Hl) as Hlp.
    rewrite length_app, length_rev. lia. }
  intros [H|H]; [now apply Hanimate|].
  apply illustrate_into_parts_ok in H. destruct H as (split0 & H0 & ->).
  unfold flip_parts. cbn [parts]. rewrite length_map. now apply Hanimate.
Qed.

Lemma into_parts_logarithmic_witness :
  (into_parts 9 29 = Ok (mkParts (parts_9_29 true false) (Finite 16)) \/
   Illustrate._into_parts drawer 9 29
   = Ok (mkParts (parts_9_29 true false) (Finite 16))) /\
  Z.of_nat (length (parts_9_29 true false)) <= 2 * bit_length (29 - 9).
Proof.
  assert (H : into_parts 9 29
              = Ok (mkParts (parts_9_29 true false) (Finite 16)))
    by reflexivity.
  split; [left; exact H|].
  exact (into_parts_logarithmic drawer 9 29 _ (or_introl H)).
Defined.

(** What a returned decomposition always satisfies, valid range or not. *)
Lemma into_parts_ok_facts l r split :
  into_parts l r = Ok split ->
  l <= r /\ chain l (parts split) r /\ Forall block (parts split) /\
  (forall c, first_cut_height split = Finite c -> 0 < c).
Proof.
  intros H.
  destruct (into_parts_outcome l r) as [[Hv _]|[_ Hraise]];
    [|congruence].
  destruct Hv as [Hv|[Hneg <-]].
  - destruct (into_parts_spec l r Hv)
      as (lp & rp & m & _ & _ & Hres & Hcl & Hcr & Hfl & Hfr & Hb & _).
    rewrite Hres in H. injection H as <-. simpl.
    split; [lia|]. split; [apply chain_app with (m := m); assumption|].
    split.
    + apply Forall_app. split; [apply (emitted_block true), Hfl|].
      apply Forall_rev, (emitted_block false), Hfr.
    + unfold cut_height. intros c.
      destruct (Z.eqb_spec (lsb m) 0) as [|Hne]; [discriminate|].
      intros [= <-].
      destruct (Z.eq_dec m 0) as [->|Hm]; [rewrite lsb_0 in Hne; lia|].
      pose proof (lsb_pos m). lia.
  - rewrite (into_parts_negative_empty l Hneg) in H. injection H as <-.
    simpl. split; [lia|]. split; [reflexivity|]. split; [constructor|].
    unfold cut_height. intros c.
    pose proof (lsb_pos (- l)) as Hp. rewrite lsb_opp in Hp.
    destruct (Z.eqb_spec (lsb l) 0); [lia|]. intros [= <-]. lia.
Qed.

(** X3. Whenever the decomposition returns, in either script, it has no
    part exactly when the range is empty ([left = right]). *)
Theorem into_parts_empty_iff (self : Illustrate.Drawer) (left right : Z)
  (split : Parts) :
  into_parts left right = Ok split \/
  Illustrate._into_parts self left right = Ok split ->
  (parts split = [] <-> left = right).
Proof.
  assert (Hanimate : forall split0,
             into_parts left right = Ok split0 ->
             (parts split0 = [] <-> left = right)).
  { intros split0 H.
    destruct (into_parts_ok_facts _ _ _ H) as (_ & Hc & Hb & _).
    destruct (chain_le _ _ _ Hc Hb) as [_ Hlt]. split.
    - intros He. rewrite He in Hc. exact Hc.
    - intros ->. destruct (parts split0) as [|p ps]; [reflexivity|].
      exfalso. assert (right < right) by (apply Hlt; discriminate). lia. }
  intros [H|H]; [now apply Hanimate|].
  apply illustrate_into_parts_ok in H. destruct H as (split0 & H0 & ->).
  rewrite <- (Hanimate split0 H0). unfold flip_parts. simpl.
  split; [apply map_eq_nil | intros ->; reflexivity].
Qed.

Lemma into_parts_empty_iff_witness :
  (into_parts 12 12 = Ok (mkParts [] (Finite 4)) \/
   Illustrate._into_parts drawer 12 12 = Ok (mkParts [] (Finite 4))) /\
  (@nil Part = [] <-> 12 = 12).
Proof.
  assert (H : into_parts 12 12 = Ok (mkParts [] (Finite 4))) by reflexivity.
  split; [left; exact H|].
  exact (into_parts_empty_iff drawer 12 12 _ (or_introl H)).
Defined.

(** The right cursor emits the nodes of the Fenwick tree on its way. *)
Lemma right_loop_fenwick l r rp m :
  right_loop l r = Ok (rp, m) -> Forall fenwick_node rp.
Proof.
  intros Hrun. unfold right_loop in Hrun.
  apply (while_invariant (fun s => Forall fenwick_node (fst s))
           (right_cond l) right_body) in Hrun; [apply Hrun | | constructor].
  intros [ps x] Hf Hcond. apply right_cond_true in Hcond. simpl in *.
  apply Forall_app. split; [assumption|].
  constructor; [|constructor]. unfold fenwick_node, _prev. simpl. lia.
Qed.

(** X4. A prefix [0 .. right] is decomposed by the right cursor alone: the
    parts are nodes of the Fenwick tree (each is the block of height
    [lsb(end)] that ends at [end]), the first one starts at 0 and the last
    one ends at [right], and [first_cut_height] is infinite.  In animate.py
    all have [is_left] false, in illustrate.py all have it true. *)
Theorem into_parts_of_prefix (self : Illustrate.Drawer) (right : Z) :
  0 <= right ->
  exists ps,
    into_parts 0 right = Ok (mkParts ps Inf) /\
    Illustrate._into_parts self 0 right = Ok (mkParts (map flip_part ps) Inf)
    /\
    chain 0 ps right /\
    Forall (fun p => fenwick_node p /\ is_left p = false) ps.
Proof.
  intros Hr.
  destruct (into_parts_spec 0 right)
    as (lp & rp & m & Hrun & _ & Hres & Hcl & Hcr & Hfl & Hfr & _ & H0 & _);
    [lia|].
  specialize (H0 eq_refl). subst m.
  assert (Hlp : lp = []).
  { destruct lp as [|p lp]; [reflexivity|]. exfalso.
    destruct (chain_le _ _ _ Hcl (emitted_block true _ Hfl)) as [_ Hlt].
    assert (0 < 0) by (apply Hlt; discriminate). lia. }
  subst lp. simpl in Hres. change (cut_height 0) with Inf in Hres.
  exists (rev rp). split; [exact Hres|].
  split; [rewrite illustrate_into_parts, Hres; reflexivity|].
  split; [exact Hcr|].
  apply Forall_rev. pose proof (right_loop_fenwick _ _ _ _ Hrun) as Hfen.
  rewrite Forall_forall in *. intros p Hp.
  split; [apply Hfen, Hp | apply (Hfr p Hp)].
Qed.

Lemma into_parts_of_prefix_witness :
  0 <= 27 /\
  exists ps,
    into_parts 0 27 = Ok (mkParts ps Inf) /\
    Illustrate._into_parts drawer 0 27 = Ok (mkParts (map flip_part ps) Inf)
    /\
    chain 0 ps 27 /\
    Forall (fun p => fenwick_node p /\ is_left p = false) ps.
Proof.
  split; [lia | apply (into_parts_of_prefix drawer 27); lia].
Defined.

End IntoPartsSize.

(** ** [round_up_to_pow2] of animate.py *)

(** X5. For [x >= 0], [round_up_to_pow2(x)] of animate.py is the least
    power of two strictly above [x] (so an exact power of two is doubled,
    unlike in illustrate.py), and it is at most [2 * x] from 1 on. *)
Theorem round_up_to_pow2_strictly_above (x : Z) :
  0 <= x ->
  is_pow2 (Animate.round_up_to_pow2 x) /\
  x < Animate.round_up_to_pow2 x <= Z.max 1 (2 * x) /\
  (forall j, 0 <= j -> x < 2 ^ j -> Animate.round_up_to_pow2 x <= 2 ^ j).
Proof.
  intros Hx. unfold Animate.round_up_to_pow2. rewrite Z.shiftl_1_l.
  destruct (Z.eq_dec x 0) as [->|Hne].
  - simpl. split; [exists 0; split; [lia | reflexivity]|]. split; [lia|].
    intros j Hj _. change 1 with (2 ^ 0). apply Z.pow_le_mono_r; lia.
  - rewrite bit_length_log2 by lia.
    pose proof (Z.log2_nonneg x) as Hnn.
    destruct (Z.log2_spec x) as [Hlo Hhi]; [lia|].
    replace (Z.succ (Z.log2 x)) with (Z.log2 x + 1) in Hhi by lia.
    split; [exists (Z.log2 x + 1); split; [lia | reflexivity]|].
    split.
    + split; [lia|]. rewrite Z.pow_add_r, Z.pow_1_r by lia. lia.
    + intros j Hj Hlt. apply Z.pow_le_mono_r; [lia|].
      assert (Z.log2 x < j); [|lia].
      apply (Z.pow_lt_mono_r_iff 2); lia.
Qed.

Lemma round_up_to_pow2_strictly_above_witness :
  0 <= 64 /\
  is_pow2 (Animate.round_up_to_pow2 64) /\
  64 < Animate.round_up_to_pow2 64 <= Z.max 1 (2 * 64) /\
  (forall j, 0 <= j -> 64 < 2 ^ j -> Animate.round_up_to_pow2 64 <= 2 ^ j).
Proof.
  split; [lia | apply (round_up_to_pow2_strictly_above 64); lia].
Defined.

(** ** What the frames show *)

Section FramesShow.

Lemma as_level_positive logarithmic h :
  0 < h -> 1 <= Animate.as_level logarithmic h.
Proof.
  intros Hh. unfold Animate.as_level. destruct logarithmic; [|lia].
  destruct h; simpl; lia.
Qed.

Lemma one_le_inject_Z a : 1 <= a -> (1 <= inject_Z a)%Q.
Proof. intros H. change 1%Q with (inject_Z 1). now rewrite <- Zle_Qle. Qed.

Lemma seg_chain_cut_segments as_level color level a ps b :
  chain a ps b -> seg_chain a (cut_segments as_level color level ps) b.
Proof.
  revert a. induction ps as [|p ps IH]; intros a H; simpl in *; [exact H|].
  destruct H as [Hs Hc]. split; [exact Hs | now apply IH].
Qed.

Lemma cut_segments_levels logarithmic color level ps :
  Forall block ps ->
  Forall (fun s => (1 <= seg_level s)%Q)
    (cut_segments (Animate.as_level logarithmic) color level ps).
Proof.
  intros Hb. unfold cut_segments. apply Forall_map.
  eapply Forall_impl; [|exact Hb]. intros p [_ Hp]. simpl.
  apply is_pow2_pos in Hp.
  pose proof (one_le_inject_Z _ (as_level_positive logarithmic _ Hp)) as H1.
  destruct (py_max_spec level
              (inject_Z (Animate.as_level logarithmic (height p))))
    as (_ & Hge & _).
  lra.
Qed.

Lemma intact_level logarithmic split level :
  (forall c, first_cut_height split = Finite c -> 0 < c) ->
  is_intact (Animate.as_level logarithmic) split level = true ->
  (1 <= level)%Q.
Proof.
  intros Hc. unfold is_intact.
  destruct (first_cut_height split) as [c|]; [|discriminate].
  intros H. apply Qltb_true in H.
  pose proof (one_le_inject_Z _ (as_level_positive logarithmic c
                                   (Hc c eq_refl))).
  lra.
Qed.

Lemma frame_shows_range logarithmic left right split level color paint f :
  chain left (parts split) right -> Forall block (parts split) ->
  (forall c, first_cut_height split = Finite c -> 0 < c) ->
  frame_intact f = is_intact (Animate.as_level logarithmic) split level ->
  segments f =
    (if frame_intact f then [mkSegment left right level paint]
     else cut_segments (Animate.as_level logarithmic) color level
            (parts split)) ->
  shows_range left right f.
Proof.
  intros Hc Hb Hcut Hi Hseg. unfold shows_range. rewrite Hseg.
  destruct (frame_intact f).
  - split; [simpl; auto|]. constructor; [|constructor]. simpl.
    apply (intact_level logarithmic split); auto.
  - split; [now apply seg_chain_cut_segments|].
    now apply cut_segments_levels.
Qed.

(** X6. Every frame of [animate], in either script, shows the whole range
    and nothing else: its segments follow one another from [left] to
    [right] (one segment while the range is intact, one per part after),
    and every segment is drawn at a level of at least 1, never between the
    base line and level 1. *)
Theorem frames_show_the_range (self : Illustrate.Drawer) (left right : Z)
  (start_level : option Q) (max_position : pyval) (width : Z)
  (height' : pyval) (level_step : Q) (accelerate_intact : option Q)
  (logarithmic : bool) (fuel : nat) (fs : list Frame) :
  Animate.animate left right max_position width height' level_step
    accelerate_intact logarithmic fuel = Ok fs \/
  Illustrate.animate self left right start_level fuel = Ok fs ->
  Forall (shows_range left right) fs.
Proof.
  intros [H|H].
  - unfold Animate.animate in H.
    destruct (Animate.default_height _ _ _ _) as [h| |];
      cbn [bind] in H; try discriminate.
    destruct (Animate.draw_slicers _) as [[]| |];
      cbn [bind] in H; try discriminate.
    destruct (Animate.into_parts left right) as [split| |] eqn:Hs;
      cbn [bind] in H; try discriminate.
    destruct (into_parts_ok_facts _ _ _ Hs) as (_ & Hc & Hb & Hcut).
    match type of H with
    | bind ?w _ = _ => destruct w as [s| |] eqn:Hrun
    end; cbn [bind] in H; try discriminate.
    injection H as <-.
    apply (while_invariant
             (fun s => Forall (shows_range left right) (Animate.frames s)))
      in Hrun; [apply Hrun | | constructor].
    intros s0 Hf _.
    destruct (animate_body_spec logarithmic left right split level_step
                (Animate.default_accelerate_intact logarithmic
                   accelerate_intact) s0)
      as (f & Hfr & _ & _ & Hi & Hseg).
    rewrite Hfr. apply Forall_app. split; [assumption|].
    constructor; [|constructor].
    eapply frame_shows_range; eassumption.
  - unfold Illustrate.animate in H.
    destruct (Illustrate._draw_spikes self) as [[]| |];
      cbn [bind] in H; try discriminate.
    destruct (Illustrate._into_parts self left right) as [split| |] eqn:Hs;
      cbn [bind] in H; try discriminate.
    apply illustrate_into_parts_ok in Hs. destruct Hs as (split0 & Hs & ->).
    destruct (into_parts_ok_facts _ _ _ Hs) as (_ & Hc & Hb & Hcut).
    match type of H with
    | bind ?w _ = _ => destruct w as [s| |] eqn:Hrun
    end; cbn [bind] in H; try discriminate.
    injection H as <-.
    apply (while_m_ok _ _
             (illustrate_step self left right (flip_parts split0))) in Hrun;
      [|intros s0 s1; apply illustrate_body_ok].
    apply (while_invariant
             (fun s => Forall (shows_range left right) (Illustrate.frames s)))
      in Hrun; [apply Hrun | | constructor].
    intros s0 Hf _.
    destruct (illustrate_body_spec self left right (flip_parts split0) s0)
      as (f & Hfr & _ & _ & Hi & Hseg).
    rewrite Hfr. apply Forall_app. split; [assumption|].
    constructor; [|constructor].
    apply (frame_shows_range (Illustrate.logarithmic self) left right
             (flip_parts split0) (Illustrate.level s0)
             (Illustrate._get_color self) (Illustrate.intact_color self) f);
      try assumption.
    + unfold flip_parts. simpl. now apply chain_flip.
    + unfold flip_parts. simpl. now apply block_flip.
Qed.

Lemma frames_show_the_range_witness :
  exists fs,
    (Animate.animate 9 29 (PyInt 64) 1024 PyNone (1 # 2) None true 40 = Ok fs
     \/ Illustrate.animate log_drawer 9 29 None 40 = Ok fs) /\
    Forall (shows_range 9 29) fs.
Proof.
  eexists.
  assert (H : Illustrate.animate log_drawer 9 29 None 40 = Ok _)
    by (vm_compute; reflexivity).
  split; [right; exact H|].
  exact (frames_show_the_range log_drawer 9 29 None (PyInt 64) 1024 PyNone
           (1 # 2) None true 40 _ (or_intror H)).
Defined.

End FramesShow.

Section IntactFirst.

Local Open Scope Q_scope.

Lemma is_intact_mono as_level split l l' :
  l' <= l -> is_intact as_level split l = false ->
  is_intact as_level split l' = false.
Proof.
  intros Hle. unfold is_intact.
  destruct (first_cut_height split) as [c|]; [|reflexivity].
  rewrite !Qltb_false. lra.
Qed.

Lemma next_level_le_level step accel f :
  0 <= step -> 0 <= accel -> next_level step accel f <= frame_level f.
Proof.
  intros Hs Ha. unfold next_level. rewrite Qred_correct.
  destruct (frame_intact f); nra.
Qed.

(** X7. With [level_step >= 0] and [accelerate_intact >= 0], the frames of
    animate.py are first those of the intact range and then those of the
    parts, never an intact one after a cut one; so the one paint object
    that the loop recolours for the parts still has its first colour,
    magenta, whenever the intact range is drawn. *)
Theorem animate_intact_frames_first (left right : Z) (max_position : pyval)
  (width : Z) (height' : pyval) (level_step : Q)
  (accelerate_intact : option Q) (logarithmic : bool) (fuel : nat)
  (fs : list Frame) :
  0 <= level_step ->
  0 <= Animate.default_accelerate_intact logarithmic accelerate_intact ->
  Animate.animate left right max_position width height' level_step
    accelerate_intact logarithmic fuel = Ok fs ->
  intact_then_cut left right ColorMAGENTA fs.
Proof.
  intros Hs Ha H. unfold Animate.animate in H.
  destruct (Animate.default_height _ _ _ _) as [h| |];
    cbn [bind] in H; try discriminate.
  destruct (Animate.draw_slicers _) as [[]| |];
    cbn [bind] in H; try discriminate.
  destruct (Animate.into_parts left right) as [split| |];
    cbn [bind] in H; try discriminate.
  match type of H with
  | bind ?w _ = _ => destruct w as [s| |] eqn:Hrun
  end; cbn [bind] in H; try discriminate.
  injection H as <-.
  set (accel := Animate.default_accelerate_intact logarithmic
                  accelerate_intact) in *.
  apply (while_invariant
           (fun s =>
              exists fs1 fs2,
                Animate.frames s = fs1 ++ fs2 /\
                Forall (fun f => frame_intact f = true /\
                                 segments f
                                 = [mkSegment left right (frame_level f)
                                      ColorMAGENTA]) fs1 /\
                Forall (fun f => frame_intact f = false) fs2 /\
                (fs2 = [] -> Animate.paint s = ColorMAGENTA) /\
                (fs2 <> [] ->
                 is_intact (Animate.as_level logarithmic) split
                   (Animate.level s) = false)))
    in Hrun.
  - destruct Hrun as [(fs1 & fs2 & He & H1 & H2 & _) _].
    exists fs1, fs2. auto.
  - intros s0 (fs1 & fs2 & He & H1 & H2 & Hp & Hi) _.
    destruct (animate_body_spec logarithmic left right split level_step
                accel s0) as (f & Hfr & Hfl & Hlv & Hfi & Hseg).
    assert (Hpaint : frame_intact f = true ->
                     Animate.paint
                       (Animate.animate_body logarithmic left right split
                          level_step accel s0) = Animate.paint s0).
    { rewrite Hfi. unfold Animate.animate_body. cbv zeta.
      cbn [Animate.paint]. intros ->. reflexivity. }
    destruct (frame_intact f) eqn:Hint.
    + assert (Hfs2 : fs2 = []).
      { destruct fs2 as [|g fs2]; [reflexivity|]. exfalso.
        rewrite Hi in Hfi by discriminate. discriminate. }
      subst fs2. exists (fs1 ++ [f]), [].
      rewrite Hfr, He, !app_nil_r.
      split; [reflexivity|]. split.
      * apply Forall_app. split; [assumption|].
        constructor; [|constructor].
        split; [assumption|]. rewrite Hseg, Hfl, (Hp eq_refl). reflexivity.
      * split; [constructor|]. split; [|congruence].
        intros _. rewrite (Hpaint eq_refl). now apply Hp.
    + exists fs1, (fs2 ++ [f]). rewrite Hfr, He, app_assoc.
      split; [reflexivity|]. split; [assumption|]. split.
      * apply Forall_app. split; [assumption|]. repeat constructor.
        assumption.
      * split; [intros Hnil; destruct fs2; discriminate|].
        intros _. rewrite Hlv.
        apply is_intact_mono with (l := Animate.level s0).
        -- rewrite <- Hfl. now apply next_level_le_level.
        -- now rewrite <- Hfi.
  - exists [], []. repeat split; auto. congruence.
Qed.

Lemma animate_intact_frames_first_witness :
  0 <= 1 # 2 /\
  0 <= Animate.default_accelerate_intact false None /\
  exists fs,
    Animate.animate 9 29 (PyInt 64) 1024 PyNone (1 # 2) None false 200
    = Ok fs /\
    intact_then_cut 9 29 ColorMAGENTA fs.
Proof.
  assert (Hs : 0 <= 1 # 2) by discriminate.
  assert (Ha : 0 <= Animate.default_accelerate_intact false None)
    by discriminate.
  split; [exact Hs|]. split; [exact Ha|].
  eexists.
  assert (H : Animate.animate 9 29 (PyInt 64) 1024 PyNone (1 # 2) None false
                200 = Ok _) by (vm_compute; reflexivity).
  split; [exact H|].
  exact (animate_intact_frames_first 9 29 (PyInt 64) 1024 PyNone (1 # 2) None
           false 200 _ Hs Ha H).
Defined.

End IntactFirst.

Section SplitPicture.

Local Open Scope Q_scope.

Lemma py_max_low level a :
  level < 1 -> (1 <= a)%Z -> py_max level (inject_Z a) = inject_Z a.
Proof.
  intros Hl Ha. unfold py_max.
  destruct (Qltb level (inject_Z a)) eqn:Hlt; [reflexivity|].
  apply Qltb_false in Hlt. apply one_le_inject_Z in Ha. lra.
Qed.

Lemma cut_segments_settled self level ps :
  level < 1 -> Forall block ps ->
  cut_segments (Illustrate._as_level (Illustrate.logarithmic self))
    (Illustrate._get_color self) level ps
  = map (settled self) ps.
Proof.
  intros Hl Hb. unfold cut_segments. apply map_ext_in.
  intros p Hp. rewrite Forall_forall in Hb.
  destruct (Hb p Hp) as [_ Hpow]. apply is_pow2_pos in Hpow.
  unfold settled. f_equal. apply py_max_low; [assumption|].
  apply (as_level_positive (Illustrate.logarithmic self)), Hpow.
Qed.

Lemma not_intact_below_1 (as_level : Z -> Z) split level :
  (forall c, first_cut_height split = Finite c -> (1 <= as_level c)%Z) ->
  level < 1 ->
  is_intact as_level split level = false.
Proof.
  intros Hc Hl. unfold is_intact.
  destruct (first_cut_height split) as [c|] eqn:Hf; [|reflexivity].
  apply Qltb_false.
  pose proof (one_le_inject_Z _ (Hc c eq_refl)). lra.
Qed.



End SplitPicture.

(** ** The drivers of animate.py *)

Section Pause.

Lemma last_default {A : Type} (l : list A) (x d d' : A) :
  last (x :: l) d = last (x :: l) d'.
Proof.
  revert x. induction l as [|y l IH]; intros x; [reflexivity|].
  change (last (y :: l) d = last (y :: l) d'). apply IH.
Qed.

Lemma with_pause_fold {A : Type} (frames : list A) acc (o : option A) :
  fold_left (fun (s : list A * option A) frame => (fst s ++ [frame], Some frame))
    frames (acc, o)
  = (acc ++ frames,
     match frames with
     | [] => o
     | f :: _ => Some (last frames f)
     end).
Proof.
  revert acc o. induction frames as [|f frames IH]; intros acc o; simpl.
  - now rewrite app_nil_r.
  - rewrite IH. rewrite <- app_assoc. simpl. f_equal.
    destruct frames as [|g frames]; [reflexivity|].
    f_equal. apply last_default.
Qed.

Lemma with_pause_at_end_eq {A : Type} (frames : list A) (pause_frames : Z) :
  Animate.with_pause_at_end frames pause_frames
  = match frames with
    | [] => Failed UnboundLocalError
    | f :: _ =>
        Done (frames ++ repeat (last frames f) (Z.to_nat pause_frames))
    end.
Proof.
  unfold Animate.with_pause_at_end. rewrite with_pause_fold.
  destruct frames as [|f frames]; reflexivity.
Qed.

(** X9. [with_pause_at_end] on a generator that yields nothing raises
    [UnboundLocalError], whatever [pause_frames] is (its [last_frame =
    frame] reads a loop variable that was never bound); otherwise it yields
    the frames and then the last one [pause_frames] more times, none when
    [pause_frames] is negative. *)
Theorem with_pause_at_end_spec {A : Type} (frames : list A)
  (pause_frames : Z) :
  Animate.with_pause_at_end frames pause_frames
  = match frames with
    | [] => Failed UnboundLocalError
    | f :: _ =>
        Done (frames ++ repeat (last frames f) (Z.to_nat pause_frames))
    end.
Proof. apply with_pause_at_end_eq. Qed.

End Pause.

Section AnimateDrivers.

Local Open Scope Q_scope.

Lemma animate_fuel_mono left right max_position width height' level_step
  accelerate_intact logarithmic fuel fuel' fs :
  (fuel <= fuel')%nat ->
  Animate.animate left right max_position width height' level_step
    accelerate_intact logarithmic fuel = Ok fs ->
  Animate.animate left right max_position width height' level_step
    accelerate_intact logarithmic fuel' = Ok fs.
Proof.
  intros Hle. unfold Animate.animate.
  destruct (Animate.default_height _ _ _ _) as [h| |];
    cbn [bind]; try discriminate.
  destruct (Animate.draw_slicers _) as [[]| |];
    cbn [bind]; try discriminate.
  destruct (Animate.into_parts left right) as [split| |];
    cbn [bind]; try discriminate.
  match goal with
  | |- bind ?w _ = _ -> _ => destruct w as [s| |] eqn:Hrun
  end; cbn [bind]; try discriminate.
  intros [= <-]. now rewrite (while_fuel_mono _ _ _ _ _ _ Hle Hrun).
Qed.

(** One animation of the drivers, for a positive [max_position]: it
    returns, within any budget from some size on, and is not empty. *)
Lemma animate_default_run left right max_position logarithmic :
  (0 <= left <= right)%Z -> (0 < max_position)%Z ->
  exists fuel frames,
    frames <> [] /\
    forall fuel', (fuel <= fuel')%nat ->
      Animate.animate left right (PyInt max_position) 1024 PyNone (1 # 2)
        None logarithmic fuel' = Ok frames.
Proof.
  intros Hlr Hmp.
  destruct (animate_animate_terminates left right max_position 1024 PyNone
              (1 # 2) None logarithmic Hlr)
    as (fuel & fs & final & Hrun & Hc & Hfinal & _).
  - lia.
  - reflexivity.
  - destruct logarithmic; reflexivity.
  - exists fuel, fs. split.
    + intros ->. simpl in Hc. subst final.
      pose proof (one_le_inject_Z _
                    (as_level_positive logarithmic max_position Hmp)).
      unfold Animate.max_level in Hfinal. lra.
    + intros fuel' Hle. now apply (animate_fuel_mono _ _ _ _ _ _ _ _ fuel).
Qed.

Lemma generate_run (left right max_position : Z)
  (pause_frames : Z) (logarithmic : bool) :
  (0 <= left <= right)%Z -> (0 < max_position)%Z ->
  exists fuel frames,
    frames <> [] /\
    forall fuel', (fuel <= fuel')%nat ->
      Animate.animate left right (PyInt max_position) 1024 PyNone (1 # 2)
        None logarithmic fuel' = Ok frames /\
      Animate._generate (PyInt max_position) pause_frames logarithmic fuel'
        left right
      = Done (frames
              ++ repeat (last frames (mkFrame 0 false []))
                   (Z.to_nat pause_frames)).
Proof.
  intros Hlr Hmp.
  destruct (animate_default_run left right max_position logarithmic Hlr Hmp)
    as (fuel & frames & Hne & Hrun).
  exists fuel, frames. split; [exact Hne|].
  intros fuel' Hle. split; [now apply Hrun|].
  unfold Animate._generate. rewrite (Hrun fuel' Hle). cbn [of_outcome bind_result].
  rewrite with_pause_at_end_eq.
  destruct frames as [|f frames]; [congruence|].
  now rewrite (last_default frames f f (mkFrame 0 false [])).
Qed.



Lemma generate_returns max_position pause_frames logarithmic left right :
  (0 <= left <= right)%Z -> (0 < max_position)%Z ->
  exists fuel,
    forall fuel', (fuel <= fuel')%nat ->
      exists fs,
        Animate._generate (PyInt max_position) pause_frames logarithmic
          fuel' left right = Done fs /\
        (Z.max 0 pause_frames < Z.of_nat (length fs))%Z.
Proof.
  intros Hlr Hmp.
  destruct (generate_run left right max_position
              pause_frames logarithmic Hlr Hmp)
    as (fuel & frames & Hne & Hrun).
  exists fuel. intros fuel' Hle. destruct (Hrun fuel' Hle) as [_ H].
  eexists. split; [exact H|].
  rewrite length_app, repeat_length.
  destruct frames; [congruence|]. simpl length. lia.
Qed.

End AnimateDrivers.

Section AnimateDriversEdges.

Local Open Scope Z_scope.

Lemma generate_lengths (a b c d e f : list Frame) n :
  n < Z.of_nat (length a) -> n < Z.of_nat (length b) ->
  n < Z.of_nat (length c) -> n < Z.of_nat (length d) ->
  n < Z.of_nat (length e) -> n < Z.of_nat (length f) ->
  6 * (n + 1) <= Z.of_nat (length (a ++ b ++ c ++ d ++ e ++ f)).
Proof. intros. rewrite !length_app. lia. Qed.



(** In linear mode a negative [max_position] is a level that is already
    below the loop's test: the animation yields nothing. *)
Lemma animate_negative_linear left right max_position split fuel :
  max_position < 0 -> Animate.into_parts left right = Ok split ->
  Animate.animate left right (PyInt max_position) 1024 PyNone (1 # 2) None
    false (S fuel) = Ok [].
Proof.
  intros Hmp Hs. unfold Animate.animate, Animate.default_height,
    Animate.draw_slicers. cbn [py_truthy Animate.as_level_dyn bind py_mul
                                 py_binop py_floordiv].
  assert (Hne : (max_position =? 0) = false) by (apply Z.eqb_neq; lia).
  rewrite Hne. cbn [bind]. rewrite Hs. cbn [bind].
  rewrite while_unfold.
  assert (Hc : Animate.animate_cond
                 (Animate.mkLoopState []
                    (inject_Z (Animate.as_level false max_position))
                    ColorMAGENTA) = false).
  { unfold Animate.animate_cond. cbn [Animate.level Animate.as_level].
    apply Qltb_false. change 0%Q with (inject_Z 0). rewrite <- Zle_Qle. lia. }
  rewrite Hc. reflexivity.
Qed.

(** X12. What the segment-tree driver of animate.py does with a
    [max_position] that is not positive: [None] is a [TypeError] in linear
    mode and an [AttributeError] in logarithmic mode, 0 is a
    [ZeroDivisionError], and in linear mode a negative value makes the
    first animation empty, so that [with_pause_at_end] fails with
    [UnboundLocalError]. *)
Theorem animate_driver_errors (pause_frames : Z) (fuel : nat) :
  Animate.generate_segment_tree_frames PyNone pause_frames false fuel
  = Failed (Exn TypeError) /\
  Animate.generate_segment_tree_frames PyNone pause_frames true fuel
  = Failed (Exn AttributeError) /\
  (forall logarithmic,
      Animate.generate_segment_tree_frames (PyInt 0) pause_frames
        logarithmic fuel = Failed (Exn ZeroDivisionError)) /\
  (forall max_position,
      max_position < 0 ->
      Animate.generate_segment_tree_frames (PyInt max_position) pause_frames
        false (S fuel) = Failed UnboundLocalError).
Proof.
  split; [reflexivity|]. split; [reflexivity|]. split.
  - intros []; reflexivity.
  - intros max_position Hmp.
    unfold Animate.generate_segment_tree_frames. cbv zeta.
    unfold Animate._generate at 1.
    rewrite (animate_negative_linear 9 29 max_position
               (mkParts (parts_9_29 true false) (Finite 16)) fuel Hmp eq_refl).
    reflexivity.
Qed.

Lemma animate_driver_errors_witness :
  -3 < 0 /\
  Animate.generate_segment_tree_frames (PyInt (-3)) 25 false 1
  = Failed UnboundLocalError.
Proof.
  split; [lia|].
  apply (proj2 (proj2 (proj2 (animate_driver_errors 25 0))) (-3)). lia.
Defined.

End AnimateDriversEdges.

(** ** [add_pause] and [save_animation] (illustrate.py) *)

Section SaveAnimation.

Context {A : Type}.
Variables (fps pause_seconds : Q).

Local Abbreviation frame_ms := (Qfloor (1000 / fps)).
Local Abbreviation pause_ms := (py_int_of_float (1000 * pause_seconds)).

Lemma total_app l1 l2 : total (l1 ++ l2) = total l1 + total l2.
Proof. unfold total. induction l1 as [|x l1 IH]; simpl; lia. Qed.

Lemma total_single x : total [x] = x.
Proof. unfold total. simpl. lia. Qed.

Lemma rev_cons_eq (l : list Z) x before :
  rev l = x :: before -> l = rev before ++ [x].
Proof.
  intros H. rewrite <- (rev_involutive l), H. reflexivity.
Qed.

Lemma frames_of_cons (x : option A) items :
  frames_of (x :: items) = frames_of [x] ++ frames_of items.
Proof. unfold frames_of. simpl. now rewrite app_nil_r. Qed.

Lemma pauses_of_cons (x : option A) items :
  pauses_of (x :: items) = pauses_of [x] + pauses_of items.
Proof. unfold pauses_of. destruct x; cbn [filter length]; lia. Qed.

(** One iteration: lengths stay equal, a frame is appended or a pause is
    added to the last duration. *)
Lemma save_animation_step_spec (fr : list A) du x fr' du' :
  Illustrate.save_animation_step fps pause_seconds (fr, du) x
  = Done (fr', du') ->
  length fr = length du ->
  fr' = fr ++ frames_of [x] /\ length fr' = length du' /\ du' <> [] /\
  total du' = total du + Z.of_nat (length (frames_of [x])) * frame_ms
              + pauses_of [x] * pause_ms.
Proof.
  unfold Illustrate.save_animation_step. cbn [fst snd].
  remember (Qfloor (1000 / fps)) as dd eqn:Hdd.
  remember (py_int_of_float (1000 * pause_seconds)) as pp eqn:Hpp.
  destruct x as [a|].
  - destruct (Qeq_bool fps 0); [discriminate|].
    intros [= <- <-] Hlen.
    change (frames_of [Some a]) with [a].
    change (pauses_of [@Some A a]) with 0.
    split; [reflexivity|].
    split; [rewrite !length_app; simpl; lia|].
    split; [intros H; apply app_eq_nil in H; destruct H; discriminate|].
    rewrite total_app, total_single.
    change (Z.of_nat (length [a])) with 1. lia.
  - destruct (rev du) as [|x before] eqn:Hrev; [discriminate|].
    apply rev_cons_eq in Hrev. subst du.
    intros [= <- <-] Hlen.
    change (frames_of [@None A]) with (@nil A).
    change (pauses_of [@None A]) with 1.
    split; [now rewrite app_nil_r|].
    split; [rewrite !length_app in *; simpl in *; lia|].
    split; [intros H; apply app_eq_nil in H; destruct H; discriminate|].
    rewrite !total_app, !total_single.
    change (Z.of_nat (length (@nil A))) with 0. lia.
Qed.

Lemma save_animation_loop_spec items :
  forall (fr : list A) du fr' du',
    Illustrate.save_animation_loop fps pause_seconds items (fr, du)
    = Done (fr', du') ->
    length fr = length du ->
    fr' = fr ++ frames_of items /\ length fr' = length du' /\
    total du' = total du + Z.of_nat (length (frames_of items)) * frame_ms
                + pauses_of items * pause_ms.
Proof.
  induction items as [|x items IH]; intros fr du fr' du' H Hlen.
  - simpl in H. injection H as <- <-. unfold frames_of, pauses_of. simpl.
    rewrite app_nil_r. repeat split; try assumption. lia.
  - simpl in H.
    destruct (Illustrate.save_animation_step fps pause_seconds (fr, du) x)
      as [[fr1 du1]| |] eqn:Hstep; cbn [bind_result] in H; try discriminate.
    destruct (save_animation_step_spec _ _ _ _ _ Hstep Hlen)
      as (Hfr1 & Hlen1 & _ & Ht1).
    destruct (IH _ _ _ _ H Hlen1) as (Hfr' & Hlen' & Ht').
    split; [|split; [assumption|]].
    + rewrite Hfr', Hfr1, <- app_assoc, <- frames_of_cons. reflexivity.
    + rewrite Ht', Ht1, (frames_of_cons x items), (pauses_of_cons x items).
      rewrite length_app, Nat2Z.inj_add. lia.
Qed.

Lemma save_animation_returns items (frames : list A) durations :
  Illustrate.save_animation fps pause_seconds items = Done (frames, durations)
  ->
  frames = frames_of items /\
  length frames = length durations /\
  total durations
  = Z.of_nat (length frames) * frame_ms + pauses_of items * pause_ms.
Proof.
  intros H. unfold Illustrate.save_animation in H.
  destruct (save_animation_loop_spec items [] [] frames durations H eq_refl)
    as (Hf & Hl & Ht).
  simpl in Hf. subst frames.
  split; [reflexivity|]. split; [assumption|].
  rewrite Ht. unfold total. simpl. lia.
Qed.

(** Once a duration is there, no later pause can fail. *)
Lemma save_animation_loop_no_index_error items :
  forall (fr : list A) du,
    du <> [] -> length fr = length du ->
    Illustrate.save_animation_loop fps pause_seconds items (fr, du)
    <> Failed IndexError.
Proof.
  induction items as [|x items IH]; intros fr du Hne Hlen; simpl;
    [discriminate|].
  destruct (Illustrate.save_animation_step fps pause_seconds (fr, du) x)
    as [[fr1 du1]|e|] eqn:Hstep; cbn [bind_result]; try discriminate.
  - destruct (save_animation_step_spec _ _ _ _ _ Hstep Hlen)
      as (_ & Hlen1 & Hne1 & _).
    now apply IH.
  - unfold Illustrate.save_animation_step in Hstep. cbn [fst snd] in Hstep.
    destruct x as [a|].
    + destruct (Qeq_bool fps 0); [|discriminate]. congruence.
    + destruct (rev du) as [|y before] eqn:Hrev; [|discriminate].
      apply (f_equal (@rev Z)) in Hrev. rewrite rev_involutive in Hrev.
      simpl in Hrev. contradiction.
Qed.

Lemma save_animation_index_error_iff (items : list (option A)) :
  Illustrate.save_animation fps pause_seconds items = Failed IndexError
  <-> exists rest, items = None :: rest.
Proof.
  unfold Illustrate.save_animation. split.
  - destruct items as [|[a|] items]; simpl.
    + discriminate.
    + unfold Illustrate.save_animation_step. cbn [fst snd].
      destruct (Qeq_bool fps 0); cbn [bind_result]; [discriminate|].
      intros H. exfalso. revert H.
      apply save_animation_loop_no_index_error; [discriminate | reflexivity].
    + intros _. now exists items.
  - intros [rest ->]. reflexivity.
Qed.

Lemma save_animation_loop_failures items :
  forall (s : list A * list Z) e,
    Illustrate.save_animation_loop fps pause_seconds items s = Failed e ->
    e = IndexError \/ (e = Exn ZeroDivisionError /\ Qeq_bool fps 0 = true).
Proof.
  induction items as [|x items IH]; intros s e; cbn [Illustrate.save_animation_loop];
    [discriminate|].
  destruct (Illustrate.save_animation_step fps pause_seconds s x)
    as [s1|e1|] eqn:Hstep; cbn [bind_result]; try discriminate.
  - apply IH.
  - intros [= <-]. unfold Illustrate.save_animation_step in Hstep.
    destruct x as [a|].
    + destruct (Qeq_bool fps 0) eqn:Hfps; [|discriminate].
      injection Hstep as <-. right. split; reflexivity.
    + destruct (rev (snd s)); [|discriminate].
      injection Hstep as <-. now left.
Qed.

Lemma save_animation_zero_division_iff (items : list (option A)) :
  Illustrate.save_animation fps pause_seconds items
  = Failed (Exn ZeroDivisionError)
  <-> Qeq_bool fps 0 = true /\ exists a rest, items = Some a :: rest.
Proof.
  split.
  - intros H.
    destruct (save_animation_loop_failures _ _ _ H) as [|[_ Hfps]];
      [discriminate|].
    split; [exact Hfps|].
    destruct items as [|[a|] rest]; [discriminate | now exists a, rest |].
    discriminate.
  - intros (Hfps & a & rest & ->). unfold Illustrate.save_animation.
    cbn [Illustrate.save_animation_loop]. unfold Illustrate.save_animation_step.
    now rewrite Hfps.
Qed.

(** The frames of one animation, each with the duration of a frame. *)
Lemma save_animation_loop_frames (a : list A) :
  Qeq_bool fps 0 = false ->
  forall items fr du,
    Illustrate.save_animation_loop fps pause_seconds (map Some a ++ items)
      (fr, du)
    = Illustrate.save_animation_loop fps pause_seconds items
        (fr ++ a, du ++ repeat frame_ms (length a)).
Proof.
  intros Hfps. induction a as [|x a IH]; intros items fr du.
  - cbn [map app length repeat]. now rewrite !app_nil_r.
  - cbn [map app length repeat Illustrate.save_animation_loop].
    unfold Illustrate.save_animation_step. cbn [fst snd].
    rewrite Hfps. cbn [bind_result]. rewrite IH, <- !app_assoc.
    reflexivity.
Qed.

(** An animation that is not empty, then its pause: the last duration is
    the one that grows. *)
Lemma save_animation_loop_add_pause (a : list A) :
  Qeq_bool fps 0 = false -> a <> [] ->
  forall items fr du,
    Illustrate.save_animation_loop fps pause_seconds
      (Illustrate.add_pause a ++ items) (fr, du)
    = Illustrate.save_animation_loop fps pause_seconds items
        (fr ++ a, du ++ held frame_ms pause_ms (length a)).
Proof.
  intros Hfps Hne items fr du. unfold Illustrate.add_pause.
  rewrite <- app_assoc, save_animation_loop_frames by assumption.
  cbn [app Illustrate.save_animation_loop].
  unfold Illustrate.save_animation_step. cbn [fst snd].
  destruct a as [|x a]; [congruence|].
  cbn [length repeat]. rewrite repeat_cons, app_assoc, rev_app_distr.
  cbn [rev app bind_result]. rewrite rev_involutive.
  unfold held. cbn [Nat.pred]. now rewrite <- app_assoc.
Qed.

Lemma save_animation_loop_animations (anims : list (list A)) :
  Qeq_bool fps 0 = false -> Forall (fun a => a <> []) anims ->
  forall fr du,
    Illustrate.save_animation_loop fps pause_seconds
      (concat (map Illustrate.add_pause anims)) (fr, du)
    = Done (fr ++ concat anims,
            du ++ concat (map (fun a => held frame_ms pause_ms (length a))
                            anims)).
Proof.
  intros Hfps Hall. induction Hall as [|a anims Ha _ IH]; intros fr du.
  - cbn [map concat Illustrate.save_animation_loop]. now rewrite !app_nil_r.
  - cbn [map concat].
    rewrite save_animation_loop_add_pause, IH, <- !app_assoc by assumption.
    reflexivity.
Qed.

End SaveAnimation.

(** X13. When [save_animation] of illustrate.py gets through the items of
    its generator, the frames it stores are the items that are not [None],
    in order, there is one duration for each frame, and the durations add
    up to [1000 // fps] for each frame and [int(1000 * pause_seconds)] for
    each [None]. *)
Theorem save_animation_frames_and_durations {A : Type} (fps pause_seconds : Q)
  (items : list (option A)) (frames : list A) (durations : list Z) :
  Illustrate.save_animation fps pause_seconds items = Done (frames, durations)
  ->
  frames = frames_of items /\
  length frames = length durations /\
  total durations
  = Z.of_nat (length frames) * Qfloor (1000 / fps)
    + pauses_of items * py_int_of_float (1000 * pause_seconds).
Proof. apply save_animation_returns. Qed.

Lemma save_animation_frames_and_durations_witness :
  Illustrate.save_animation 25 1 [Some 7; Some 8; None; Some 9; None]
  = Done ([7; 8; 9], [40; 1040; 1040]) /\
  [7; 8; 9] = frames_of [Some 7; Some 8; None; Some 9; None] /\
  length [7; 8; 9] = length [40; 1040; 1040] /\
  total [40; 1040; 1040]
  = Z.of_nat (length [7; 8; 9]) * Qfloor (1000 / 25)
    + pauses_of [Some 7; Some 8; None; Some 9; None]
      * py_int_of_float (1000 * 1).
Proof.
  split; [reflexivity|].
  apply (save_animation_frames_and_durations 25 1
           [Some 7; Some 8; None; Some 9; None]).
  reflexivity.
Defined.

(** X14. [save_animation] of illustrate.py fails in two ways only: with an
    [IndexError] exactly when the first item of the generator is [None],
    the pause that has no frame before it, and with a [ZeroDivisionError]
    exactly when [fps] is zero and the first item is a frame. *)
Theorem save_animation_failures {A : Type} (fps pause_seconds : Q)
  (items : list (option A)) :
  (Illustrate.save_animation fps pause_seconds items = Failed IndexError
   <-> exists rest, items = None :: rest) /\
  (Illustrate.save_animation fps pause_seconds items
   = Failed (Exn ZeroDivisionError)
   <-> Qeq_bool fps 0 = true /\ exists a rest, items = Some a :: rest) /\
  (forall e,
      Illustrate.save_animation fps pause_seconds items = Failed e ->
      e = IndexError \/ e = Exn ZeroDivisionError).
Proof.
  split; [apply save_animation_index_error_iff|].
  split; [apply save_animation_zero_division_iff|].
  intros e H.
  destruct (save_animation_loop_failures _ _ _ _ _ H) as [|[? _]]; auto.
Qed.

(** X15. [add_pause] and [save_animation] of illustrate.py together: for
    animations that are not empty and [fps] that is not zero, the stream
    of the animations, each passed through [add_pause], is stored as the
    frames of the animations in order, every frame with the duration
    [1000 // fps] but the last of each animation, which lasts
    [int(1000 * pause_seconds)] longer. *)
Theorem save_animation_holds_last_frames {A : Type} (fps pause_seconds : Q)
  (anims : list (list A)) :
  Qeq_bool fps 0 = false -> Forall (fun a => a <> []) anims ->
  Illustrate.save_animation fps pause_seconds
    (concat (map Illustrate.add_pause anims))
  = Done (concat anims,
          concat (map (fun a => held (Qfloor (1000 / fps))
                                  (py_int_of_float (1000 * pause_seconds))
                                  (length a))
                    anims)).
Proof.
  intros Hfps Hall. unfold Illustrate.save_animation.
  now rewrite save_animation_loop_animations.
Qed.

Lemma save_animation_holds_last_frames_witness :
  Qeq_bool 25 0 = false /\
  Forall (fun a : list Z => a <> []) [[1; 2; 3]; [4]] /\
  Illustrate.save_animation 25 (1 # 2)
    (concat (map Illustrate.add_pause [[1; 2; 3]; [4]]))
  = Done ([1; 2; 3; 4], [40; 40; 540; 540]).
Proof.
  split; [reflexivity|].
  split; [repeat constructor; discriminate|].
  apply (save_animation_holds_last_frames 25 (1 # 2) [[1; 2; 3]; [4]]).
  - reflexivity.
  - repeat constructor; discriminate.
Defined.

(** ** The generators of illustrate.py *)

Section IllustrateDrivers.

Local Open Scope Q_scope.

Variable self : Illustrate.Drawer.
Hypothesis Hpoint : Illustrate._get_point self = Ok tt.

Lemma illustrate_animate_fuel_mono left right start_level fuel fuel' fs :
  (fuel <= fuel')%nat ->
  Illustrate.animate self left right start_level fuel = Ok fs ->
  Illustrate.animate self left right start_level fuel' = Ok fs.
Proof.
  intros Hle. unfold Illustrate.animate.
  rewrite (draw_spikes_ok self Hpoint). cbn [bind].
  destruct (Illustrate._into_parts self left right) as [split| |];
    cbn [bind]; try discriminate.
  rewrite !(while_m_pure _ _ (illustrate_step self left right split)
              (fun s0 => illustrate_body_defined self left right split s0
                           Hpoint)).
  match goal with
  | |- bind ?w _ = _ -> _ => destruct w as [s| |] eqn:Hrun
  end; cbn [bind]; try discriminate.
  intros [= <-]. now rewrite (while_fuel_mono _ _ _ _ _ _ Hle Hrun).
Qed.

Hypothesis Hstep : 0 < Illustrate.level_step self.
Hypothesis Haccel : 0 < Illustrate.accelerate_intact self.
Hypothesis Hlevel : (0 <= Illustrate.max_level self)%Z.

(** One animation from [max_level] down: it returns, within any budget
    from some size on, and is not empty. *)
Lemma illustrate_animate_run left right :
  (0 <= left <= right)%Z ->
  exists fuel frames,
    frames <> [] /\
    forall fuel', (fuel <= fuel')%nat ->
      Illustrate.animate self left right None fuel' = Ok frames.
Proof.
  intros Hlr.
  destruct (illustrate_animate_terminates self left right None Hlr Hpoint
              Hstep Haccel)
    as (fuel & fs & final & Hrun & Hc & Hfinal & _).
  exists fuel, fs. split.
  - intros ->. simpl in Hc. subst final.
    assert (0 <= inject_Z (Illustrate.max_level self)).
    { change 0 with (inject_Z 0). now rewrite <- Zle_Qle. }
    lra.
  - intros fuel' Hle. now apply (illustrate_animate_fuel_mono _ _ _ fuel).
Qed.

Lemma illustrate_generators_run (pause_frames : Z) :
  exists fuel seg fen,
    length seg = 6%nat /\ length fen = 6%nat /\
    Forall (fun a => a <> []) seg /\ Forall (fun a => a <> []) fen /\
    forall fuel', (fuel <= fuel')%nat ->
      Illustrate.generate_segment_tree_frames self pause_frames fuel'
      = Ok (concat (map Illustrate.add_pause seg)) /\
      Illustrate.generate_fenwick_tree_frames self pause_frames fuel'
      = Ok (concat (map Illustrate.add_pause fen)).
Proof.
  destruct (illustrate_animate_run 9 29) as (f1 & a & Na & Ha); [lia|].
  destruct (illustrate_animate_run 3 37) as (f2 & b & Nb & Hb); [lia|].
  destruct (illustrate_animate_run 32 49) as (f3 & c & Nc & Hc); [lia|].
  destruct (illustrate_animate_run 37 64) as (f4 & d & Nd & Hd); [lia|].
  destruct (illustrate_animate_run 0 15) as (f5 & e & Ne & He); [lia|].
  destruct (illustrate_animate_run 0 27) as (f6 & f & Nf & Hf); [lia|].
  destruct (illustrate_animate_run 0 29) as (g1 & a' & Na' & Ha'); [lia|].
  destruct (illustrate_animate_run 0 37) as (g2 & b' & Nb' & Hb'); [lia|].
  destruct (illustrate_animate_run 0 49) as (g3 & c' & Nc' & Hc'); [lia|].
  destruct (illustrate_animate_run 0 64) as (g4 & d' & Nd' & Hd'); [lia|].
  exists (f1 + f2 + f3 + f4 + f5 + f6 + g1 + g2 + g3 + g4)%nat,
    [a; b; c; d; e; f], [a'; b'; c'; d'; e; f].
  split; [reflexivity|]. split; [reflexivity|].
  split; [repeat constructor; assumption|].
  split; [repeat constructor; assumption|].
  intros fuel' Hle.
  unfold Illustrate.generate_segment_tree_frames,
    Illustrate.generate_fenwick_tree_frames.
  rewrite Ha, Hb, Hc, Hd, He, Hf, Ha', Hb', Hc', Hd' by lia.
  cbn [bind map concat]. rewrite !app_nil_r. split; reflexivity.
Qed.

End IllustrateDrivers.



(** ** [draw_fenwick_update] (illustrate.py) *)

Section FenwickUpdate.

Variable self : Illustrate.Drawer.

Lemma strongly_sorted_snoc (l : list Z) a :
  StronglySorted Z.lt l -> Forall (fun x => x < a) l ->
  StronglySorted Z.lt (l ++ [a]).
Proof.
  induction 1 as [|x l Hl IH Hx]; intros Ha; simpl.
  - repeat constructor.
  - inversion Ha as [|? ? Hxa Hla]; subst. constructor; [now apply IH|].
    apply Forall_app. split; [assumption | now constructor].
Qed.

Lemma update_inv_init position :
  0 <= position -> update_inv self position (position + 1,
                                              update_cell self position).
Proof.
  intros Hp. unfold update_inv, covers. cbn [fst snd].
  pose proof (lsb_pos (position + 1)) as Hl.
  change Illustrate._lsb with Animate.lsb.
  split; [lia|]. exists []. cbn [map length].
  split; [now rewrite app_nil_r|]. split; [constructor|].
  split; [|split; [now left | simpl; lia]].
  intros p. split; [intros []|]. intros (H1 & _ & H2).
  pose proof (lsb_pos p). lia.
Qed.

Lemma update_inv_step position s :
  update_inv self position s ->
  Illustrate.fenwick_update_cond self s = true ->
  0 <= position ->
  update_inv self position (fenwick_update_step self s).
Proof.
  destruct s as [cur drawn].
  unfold update_inv, covers, Illustrate.fenwick_update_cond,
    fenwick_update_step.
  cbn [fst snd]. change Illustrate._lsb with Animate.lsb.
  intros (Hcov & ps & Hd & Hs & Hin & Hmax & Hlen) Hc Hpos.
  apply Z.leb_le in Hc.
  assert (Hcur : 0 < cur) by lia.
  pose proof (lsb_pos cur Hcur) as Hl.
  pose proof (lsb_next cur Hcur) as Hn. unfold Animate._next in Hn.
  split; [lia|].
  exists (ps ++ [cur]).
  split; [now rewrite Hd, map_app, app_assoc|].
  split.
  { apply strongly_sorted_snoc; [assumption|].
    apply Forall_forall. intros p Hp. now apply Hin in Hp. }
  assert (Hpow : 2 ^ Z.of_nat (length (ps ++ [cur]))
                 = 2 * 2 ^ Z.of_nat (length ps)).
  { rewrite length_app. cbn [length]. rewrite Nat.add_1_r, Nat2Z.inj_succ.
    apply Z.pow_succ_r. lia. }
  split; [|split; [right | ]; rewrite Hpow; lia].
  intros p. rewrite in_app_iff. cbn [In]. split.
  - intros [Hp|[<-|[]]].
    + apply Hin in Hp. lia.
    + lia.
  - intros (H1 & H2 & H3).
    destruct (Z_lt_le_dec p cur) as [Hlt|Hge]; [left; apply Hin; lia|].
    destruct (Z.eq_dec p cur) as [->|Hne]; [now right; left|].
    exfalso. pose proof (next_below cur p). lia.
Qed.

Hypothesis Hpoint : Illustrate._get_point self = Ok tt.

Lemma fenwick_update_body_defined s :
  Illustrate.fenwick_update_body self s = Ok (fenwick_update_step self s).
Proof.
  unfold Illustrate.fenwick_update_body. cbv zeta.
  now rewrite (draw_segment_defined _ _ _ _ _ Hpoint).
Qed.

Lemma draw_fenwick_update_run position :
  0 <= position ->
  exists ps,
    (forall fuel,
        (Z.to_nat (Illustrate.max_position self) < fuel)%nat ->
        Illustrate.draw_fenwick_update self position fuel
        = Ok (update_cell self position ++ map (update_node self) ps)) /\
    StronglySorted Z.lt ps /\
    (forall p, In p ps <->
               p <= Illustrate.max_position self /\ covers p position) /\
    Z.of_nat (length ps) <= bit_length (Illustrate.max_position self).
Proof.
  intros Hpos.
  assert (Hloop : forall fuel,
             (Z.to_nat (Illustrate.max_position self) < fuel)%nat ->
             exists s',
               while fuel (Illustrate.fenwick_update_cond self)
                 (fenwick_update_step self)
                 (position + 1, update_cell self position) = Ok s' /\
               update_inv self position s' /\
               Illustrate.fenwick_update_cond self s' = false).
  { intros fuel Hfuel.
    apply (while_total (update_inv self position)
             (fun s => Z.to_nat (Illustrate.max_position self + 1 - fst s))).
    - intros s HI Hc. split; [now apply update_inv_step|].
      destruct HI as [Hcov _]. unfold covers in Hcov.
      unfold Illustrate.fenwick_update_cond in Hc. apply Z.leb_le in Hc.
      unfold fenwick_update_step. cbn [fst].
      pose proof (lsb_pos (fst s)) as Hl.
      change Illustrate._lsb with Animate.lsb. lia.
    - now apply update_inv_init.
    - cbn [fst]. lia. }
  destruct (Hloop _ (Nat.lt_succ_diag_r _))
    as ([cur drawn] & Hrun & (Hcov & ps & Hd & Hs & Hin & Hmax & _) & Hc).
  cbn [fst snd] in *.
  unfold Illustrate.fenwick_update_cond in Hc. cbn [fst] in Hc.
  apply Z.leb_gt in Hc.
  exists ps. split; [|split; [exact Hs|split]].
  - intros fuel Hfuel. unfold Illustrate.draw_fenwick_update.
    assert (Hcell : (if negb (position mod 2 =? 0)
                     then seg <- Illustrate._draw_segment self position
                                   (position + 1) 1
                                   (Illustrate.right_color self) ;;
                          Ok [seg]
                     else Ok [])
                    = Ok (update_cell self position)).
    { unfold update_cell.
      rewrite (draw_segment_defined _ _ _ _ _ Hpoint).
      destruct (position mod 2 =? 0); reflexivity. }
    rewrite Hcell. cbn [bind].
    rewrite (while_m_pure _ _ (fenwick_update_step self)
               fenwick_update_body_defined).
    rewrite (while_fuel_mono _ _ _ fuel _ _ Hfuel Hrun). cbn [bind].
    rewrite (draw_spikes_ok self Hpoint). cbn [bind snd]. now rewrite Hd.
  - intros p. rewrite Hin. unfold covers. split; [tauto|].
    intros [H1 H2]. split; [lia | tauto].
  - destruct Hmax as [->|Hmax]; [apply bit_length_nonneg|].
    destruct ps as [|p ps]; [apply bit_length_nonneg|].
    cbn [length] in *. rewrite Nat2Z.inj_succ in *.
    rewrite Z.pow_succ_r in Hmax by lia.
    pose proof (pow2_le_bit_length (Z.of_nat (length ps))
                  (Illustrate.max_position self)). lia.
Qed.

End FenwickUpdate.



Section FenwickUpdateNegative.

Variable self : Illustrate.Drawer.

Lemma lsb_nonpos x : x <= 0 -> x + Animate.lsb x <= 0.
Proof.
  intros Hx. destruct (Z.eq_dec x 0) as [->|Hne]; [rewrite lsb_0; lia|].
  pose proof (lsb_pos (- x)) as H. rewrite lsb_opp in H. lia.
Qed.

(** At or below zero the cursor never gets above zero. *)
Lemma fenwick_update_stuck fuel :
  0 <= Illustrate.max_position self ->
  forall s, fst s <= 0 ->
    while fuel (Illustrate.fenwick_update_cond self)
      (fenwick_update_step self) s = OutOfFuel.
Proof.
  intros Hmax. induction fuel as [|fuel IH]; intros s Hs; [reflexivity|].
  rewrite while_unfold. unfold Illustrate.fenwick_update_cond at 1.
  replace (fst s <=? Illustrate.max_position self) with true
    by (symmetry; apply Z.leb_le; lia).
  apply IH. unfold fenwick_update_step. cbn [fst].
  now apply lsb_nonpos.
Qed.

End FenwickUpdateNegative.



(** ** [draw_left_right] (illustrate.py) *)

Section LeftRight.

Lemma lsb_index_odd x : 0 < x -> (x / Animate.lsb x) mod 2 = 1.
Proof.
  intros Hx. pose proof (lsb_quotient_odd x Hx) as H.
  rewrite Zmod_even, H. reflexivity.
Qed.

Lemma lsb_index_exact x : 0 < x -> x / Animate.lsb x * Animate.lsb x = x.
Proof.
  intros Hx. destruct (lsb_divides x Hx) as [q Hq].
  pose proof (lsb_pos x Hx). rewrite Hq at 1.
  rewrite Z.div_mul by lia. lia.
Qed.

Lemma draw_left_right_run (self : Illustrate.Drawer) (position : Z) :
  Illustrate._get_point self = Ok tt -> 0 < position ->
  let h := Illustrate._lsb position in
  let i := position / h in
  (i - 1) mod 2 = 0 /\
  Illustrate.draw_left_right self position
  = Ok [tree_segment self h (i - 1); tree_segment self h i] /\
  seg_color (tree_segment self h (i - 1)) = Illustrate.left_color self /\
  seg_color (tree_segment self h i) = Illustrate.right_color self.
Proof.
  intros Hpoint Hpos. cbv zeta. change Illustrate._lsb with Animate.lsb.
  pose proof (lsb_index_odd position Hpos) as Hodd.
  pose proof (lsb_index_exact position Hpos) as Hex.
  assert (Heven : (position / Animate.lsb position - 1) mod 2 = 0).
  { rewrite Zminus_mod, Hodd. reflexivity. }
  split; [exact Heven|].
  unfold tree_segment. rewrite Heven, Hodd. cbn [Z.eqb Illustrate._get_color].
  split; [|split; reflexivity].
  unfold Illustrate.draw_left_right. cbv zeta.
  change Illustrate._lsb with Animate.lsb.
  rewrite !(draw_segment_defined _ _ _ _ _ Hpoint). cbn [bind].
  rewrite (draw_spikes_ok self Hpoint). cbn [bind].
  rewrite Z.mul_sub_distr_r, Hex, Z.mul_1_l.
  replace (position - Animate.lsb position + Animate.lsb position)
    with position by lia.
  reflexivity.
Qed.

End LeftRight.



(** ** [draw_segment_tree] (illustrate.py) *)

(** A loop whose body returns wherever an invariant holds. *)
Lemma while_m_pure_inv {S : Type} (I : S -> Prop) (cond : S -> bool)
  (body_m : S -> outcome S) (body : S -> S) :
  (forall s, I s -> cond s = true -> body_m s = Ok (body s) /\ I (body s)) ->
  forall fuel s, I s -> while_m fuel cond body_m s = while fuel cond body s.
Proof.
  intros Hb fuel. induction fuel as [|fuel IH]; intros s HI; simpl;
    [reflexivity|].
  destruct (cond s) eqn:Hc; [|reflexivity].
  destruct (Hb s HI Hc) as [-> HI']. cbn [bind]. now apply IH.
Qed.

Lemma in_indices x first count :
  In x (indices first count) <-> first <= x < first + Z.of_nat count.
Proof.
  revert first. induction count as [|count IH]; intros first.
  - simpl. lia.
  - cbn [indices In]. rewrite IH, Nat2Z.inj_succ. lia.
Qed.

Lemma bit_length_bounds n :
  1 <= n -> 2 ^ (bit_length n - 1) <= n < 2 ^ bit_length n.
Proof.
  intros Hn. rewrite bit_length_log2 by lia.
  replace (Z.log2 n + 1 - 1) with (Z.log2 n) by lia.
  apply Z.log2_spec. lia.
Qed.

Lemma bit_length_le n : 1 <= n -> bit_length n <= n.
Proof.
  intros Hn. destruct (bit_length_bounds n Hn) as [Hlow _].
  rewrite bit_length_log2 in * by lia.
  replace (Z.log2 n + 1 - 1) with (Z.log2 n) in Hlow by lia.
  pose proof (Z.log2_nonneg n).
  pose proof (Z.pow_gt_lin_r 2 (Z.log2 n)). lia.
Qed.

Section SegmentTree.

Variable self : Illustrate.Drawer.
Variables arrows fenwick : bool.

Local Abbreviation maxp := (Illustrate.max_position self).

Hypothesis Hpoint : Illustrate._get_point self = Ok tt.

Lemma segment_tree_body_defined length s :
  Illustrate.segment_tree_body self arrows fenwick length s
  = Ok (segment_tree_step self arrows fenwick length s).
Proof.
  unfold Illustrate.segment_tree_body, segment_tree_step, node_items,
    tree_segment, tree_arrow, Illustrate._draw_arrow.
  cbv zeta. rewrite (draw_segment_defined _ _ _ _ _ Hpoint), Hpoint.
  destruct ((fst s mod 2 =? 0) || negb fenwick);
    destruct (arrows && _); cbn [bind];
    rewrite <- ?app_assoc, ?app_nil_r; reflexivity.
Qed.

(** The inner loop, from block [i] on. *)
Lemma segment_tree_row_run length :
  0 < length ->
  forall count i d fuel,
    0 <= i -> Z.of_nat count = maxp / length - i -> (count < fuel)%nat ->
    while fuel (Illustrate.segment_tree_cond self length)
      (segment_tree_step self arrows fenwick length) (i, d)
    = Ok (i + Z.of_nat count,
          d ++ flat_map (node_items self arrows fenwick length)
                 (indices i count)).
Proof.
  intros Hlen. induction count as [|count IH]; intros i d fuel Hi Hc Hfuel;
    (destruct fuel as [|fuel]; [lia|]); rewrite while_unfold;
    unfold Illustrate.segment_tree_cond at 1; cbn [fst].
  - pose proof (Z.mul_succ_div_gt maxp length Hlen) as Hgt.
    replace (maxp <? i * length + length) with true
      by (symmetry; apply Z.ltb_lt; nia).
    cbn [negb indices flat_map]. rewrite app_nil_r. do 2 f_equal. lia.
  - pose proof (Z.mul_div_le maxp length Hlen) as Hle.
    replace (maxp <? i * length + length) with false
      by (symmetry; apply Z.ltb_ge; nia).
    cbn [negb]. unfold segment_tree_step at 2. cbn [fst snd].
    rewrite (IH (i + 1)) by lia.
    cbn [indices flat_map]. rewrite <- app_assoc. do 2 f_equal. lia.
Qed.

Lemma segment_tree_levels_body_defined s :
  1 <= fst s -> fst s <= maxp ->
  Illustrate.segment_tree_levels_body self arrows fenwick s
  = Ok (segment_tree_levels_step self arrows fenwick s).
Proof.
  intros H1 Hmax. unfold Illustrate.segment_tree_levels_body. cbv zeta.
  rewrite (while_m_pure _ _ (segment_tree_step self arrows fenwick (fst s))
             (segment_tree_body_defined (fst s))).
  rewrite (segment_tree_row_run (fst s))
    with (count := Z.to_nat (maxp / fst s)).
  - reflexivity.
  - lia.
  - lia.
  - pose proof (Z.div_pos maxp (fst s)). lia.
  - unfold Illustrate.segment_tree_fuel.
    assert (maxp / fst s <= maxp).
    { apply Z.div_le_upper_bound; nia. }
    pose proof (Z.div_pos maxp (fst s)). lia.
Qed.

(** The outer loop, from the row of width [2 ^ k] on. *)
Lemma segment_tree_levels_run :
  1 <= maxp ->
  forall count k d fuel,
    0 <= k -> Z.of_nat count = bit_length maxp - k -> (count < fuel)%nat ->
    while fuel (Illustrate.segment_tree_levels_cond self)
      (segment_tree_levels_step self arrows fenwick) (2 ^ k, d)
    = Ok (2 ^ (k + Z.of_nat count),
          d ++ flat_map (fun j => tree_row self arrows fenwick (2 ^ j))
                 (indices k count)).
Proof.
  intros Hmax. destruct (bit_length_bounds maxp Hmax) as [Hlow Hhigh].
  induction count as [|count IH]; intros k d fuel Hk Hc Hfuel;
    (destruct fuel as [|fuel]; [lia|]); rewrite while_unfold;
    unfold Illustrate.segment_tree_levels_cond at 1; cbn [fst].
  - replace k with (bit_length maxp) by lia.
    replace (2 ^ bit_length maxp <=? maxp) with false
      by (symmetry; apply Z.leb_gt; lia).
    cbn [indices flat_map Z.of_nat]. now rewrite app_nil_r, Z.add_0_r.
  - assert (2 ^ k <= 2 ^ (bit_length maxp - 1))
      by (apply Z.pow_le_mono_r; lia).
    replace (2 ^ k <=? maxp) with true by (symmetry; apply Z.leb_le; lia).
    unfold segment_tree_levels_step at 2. cbn [fst snd].
    replace (2 ^ k * 2) with (2 ^ (k + 1))
      by (rewrite Z.pow_add_r by lia; lia).
    rewrite (IH (k + 1)) by lia.
    replace (k + 1 + Z.of_nat count) with (k + Z.of_nat (S count)) by lia.
    cbn [indices flat_map]. now rewrite <- app_assoc.
Qed.

Lemma draw_segment_tree_run :
  1 <= maxp -> fenwick && arrows = false ->
  Illustrate.draw_segment_tree self arrows fenwick
  = Done (tree_picture self arrows fenwick).
Proof.
  intros Hmax Hfa. unfold Illustrate.draw_segment_tree. rewrite Hfa.
  rewrite (while_m_pure_inv (fun s => 1 <= fst s) _ _
             (segment_tree_levels_step self arrows fenwick)).
  - change 1 with (2 ^ 0) at 1.
    rewrite (segment_tree_levels_run Hmax
               (Z.to_nat (bit_length maxp)) 0 []).
    + cbn [bind]. rewrite (draw_spikes_ok self Hpoint). reflexivity.
    + lia.
    + pose proof (bit_length_nonneg maxp). lia.
    + unfold Illustrate.segment_tree_fuel.
      pose proof (bit_length_le maxp Hmax).
      pose proof (bit_length_nonneg maxp). lia.
  - intros s H1 Hc. unfold Illustrate.segment_tree_levels_cond in Hc.
    apply Z.leb_le in Hc.
    split; [now apply segment_tree_levels_body_defined|].
    unfold segment_tree_levels_step. cbn [fst]. lia.
  - cbn [fst]. lia.
Qed.

End SegmentTree.

Section SegmentTreeContents.

Variable self : Illustrate.Drawer.

Local Abbreviation maxp := (Illustrate.max_position self).

Hypothesis Hmax : 1 <= maxp.

(** The blocks of the picture: those that fit below [max_position]. *)
Lemma in_tree_picture arrows fenwick it :
  In it (tree_picture self arrows fenwick) <->
  exists k i,
    0 <= k /\ 0 <= i /\ (i + 1) * 2 ^ k <= maxp /\
    In it (node_items self arrows fenwick (2 ^ k) i).
Proof.
  destruct (bit_length_bounds maxp Hmax) as [_ Hhigh].
  unfold tree_picture, tree_row. rewrite in_flat_map. split.
  - intros (k & Hk & Hin). apply in_indices in Hk.
    apply in_flat_map in Hin. destruct Hin as (i & Hi & Hit).
    apply in_indices in Hi.
    assert (Hp : 0 < 2 ^ k) by (apply Z.pow_pos_nonneg; lia).
    pose proof (Z.mul_div_le maxp (2 ^ k) Hp).
    exists k, i. split; [lia|]. split; [lia|]. split; [nia | exact Hit].
  - intros (k & i & Hk & Hi & Hfit & Hit).
    assert (Hp : 0 < 2 ^ k) by (apply Z.pow_pos_nonneg; lia).
    exists k. split.
    + apply in_indices.
      assert (k < bit_length maxp).
      { apply (Z.pow_lt_mono_r_iff 2); [lia | apply bit_length_nonneg |].
        nia. }
      lia.
    + apply in_flat_map. exists i. split; [|exact Hit].
      apply in_indices.
      assert (i + 1 <= maxp / 2 ^ k)
        by (apply Z.div_le_lower_bound; [assumption | nia]).
      lia.
Qed.

Lemma in_node_items_segment arrows fenwick length i s :
  In (DrawnSegment s) (node_items self arrows fenwick length i) <->
  (i mod 2 =? 0) || negb fenwick = true /\ s = tree_segment self length i.
Proof.
  unfold node_items. rewrite in_app_iff.
  destruct ((i mod 2 =? 0) || negb fenwick); destruct (arrows && _);
    cbn [In]; split.
  all: try (intros [[H|[]]|[H|[]]]; try discriminate; injection H as <-;
            now split).
  all: try (intros [[]|[H|[]]]; discriminate).
  all: try (intros [[H|[]]|[]]; injection H as <-; now split).
  all: try (intros [_ ->]; left; now left).
  all: try (intros [[]|[]]).
  all: intros [H _]; discriminate.
Qed.

Lemma in_node_items_arrow arrows fenwick length i a :
  In (DrawnArrow a) (node_items self arrows fenwick length i) <->
  arrows
  && (Illustrate._as_level (Illustrate.logarithmic self) length
      <? Illustrate.max_level self) = true
  /\ a = tree_arrow self length i.
Proof.
  unfold node_items. rewrite in_app_iff.
  destruct ((i mod 2 =? 0) || negb fenwick); destruct (arrows && _);
    cbn [In]; split.
  all: try (intros [[H|[]]|[H|[]]]; try discriminate; injection H as <-;
            now split).
  all: try (intros [[H|[]]|[]]; discriminate).
  all: try (intros [[]|[H|[]]]; injection H as <-; now split).
  all: try (intros [_ ->]; right; now left).
  all: try (intros [[]|[]]).
  all: intros [H _]; discriminate.
Qed.

(** The block with an even number in the row of width [2 ^ k] is the node
    of the Fenwick tree that ends where the block ends. *)
Lemma tree_segment_fenwick k q :
  0 <= k ->
  tree_segment self (2 ^ k) (2 * q) = update_node self (2 ^ k * (2 * q + 1)).
Proof.
  intros Hk. unfold tree_segment, update_node.
  change Illustrate._lsb with Animate.lsb.
  rewrite lsb_mul_pow2, lsb_odd, Z.mul_1_r by assumption.
  rewrite (Z.mul_comm 2 q), Z_mod_mult. cbn [Z.eqb Illustrate._get_color].
  f_equal; ring.
Qed.

Lemma in_fenwick_picture it :
  In it (tree_picture self false true) <->
  exists p, 1 <= p <= maxp /\ it = DrawnSegment (update_node self p).
Proof.
  rewrite in_tree_picture. split.
  - intros (k & i & Hk & Hi & Hfit & Hit).
    assert (Hp : 0 < 2 ^ k) by (apply Z.pow_pos_nonneg; lia).
    destruct it as [s|a].
    + apply in_node_items_segment in Hit. destruct Hit as [Heven ->].
      rewrite orb_false_r in Heven. apply Z.eqb_eq in Heven.
      pose proof (Z.div_mod i 2) as Hdiv. rewrite Heven in Hdiv.
      exists (2 ^ k * (2 * (i / 2) + 1)). split; [nia|].
      rewrite <- tree_segment_fenwick by assumption.
      do 2 f_equal. lia.
    + apply in_node_items_arrow in Hit. destruct Hit as [Hit _].
      discriminate.
  - intros (p & Hp & ->).
    destruct (lsb_decomp p) as (k & q & Hk & Hq & Hpe & _); [lia|].
    exists k, (2 * q). split; [exact Hk|]. split; [lia|].
    split; [nia|]. apply in_node_items_segment.
    rewrite (Z.mul_comm 2 q), Z_mod_mult. split; [reflexivity|].
    rewrite (Z.mul_comm q 2), tree_segment_fenwick by assumption.
    now rewrite <- Hpe.
Qed.

(** Counting the nodes of the Fenwick tree row by row. *)
Lemma fenwick_row_length length first count :
  Z.of_nat
    (List.length (flat_map (node_items self false true length)
                    (indices first count)))
  = (first + Z.of_nat count + 1) / 2 - (first + 1) / 2.
Proof.
  revert first. induction count as [|count IH]; intros first.
  - cbn [indices flat_map List.length Z.of_nat]. rewrite Z.add_0_r. lia.
  - cbn [indices flat_map]. rewrite length_app, Nat2Z.inj_add, IH.
    unfold node_items. cbn [andb app]. rewrite orb_false_r, app_nil_r.
    rewrite Nat2Z.inj_succ.
    destruct (Z.eqb_spec (first mod 2) 0) as [He|Hne]; cbn [List.length].
    + change (Z.of_nat 1) with 1. Z.div_mod_to_equations. lia.
    + change (Z.of_nat 0) with 0. Z.div_mod_to_equations. lia.
Qed.

Lemma fenwick_rows_length first count :
  0 <= first ->
  Z.of_nat
    (List.length (flat_map (fun k => tree_row self false true (2 ^ k))
                    (indices first count)))
  = maxp / 2 ^ first - maxp / 2 ^ (first + Z.of_nat count).
Proof.
  revert first. induction count as [|count IH]; intros first Hfirst.
  - cbn [indices flat_map List.length Z.of_nat]. rewrite Z.add_0_r. lia.
  - cbn [indices flat_map]. rewrite length_app, Nat2Z.inj_add, IH by lia.
    unfold tree_row at 1. rewrite fenwick_row_length.
    assert (Hp : 0 < 2 ^ first) by (apply Z.pow_pos_nonneg; lia).
    pose proof (Z.div_pos maxp (2 ^ first)) as Hn.
    rewrite Z2Nat.id by lia.
    replace (first + 1 + Z.of_nat count) with (first + Z.of_nat (S count))
      by lia.
    replace (maxp / 2 ^ (first + 1)) with (maxp / 2 ^ first / 2).
    + generalize (maxp / 2 ^ first), (maxp / 2 ^ (first + Z.of_nat (S count))).
      intros n m. Z.div_mod_to_equations. lia.
    + rewrite Z.pow_add_r, Z.pow_1_r by lia. apply Z.div_div; lia.
Qed.

Lemma fenwick_picture_length :
  List.length (tree_picture self false true) = Z.to_nat maxp.
Proof.
  apply Nat2Z.inj. unfold tree_picture.
  rewrite fenwick_rows_length by lia.
  destruct (bit_length_bounds maxp Hmax) as [_ Hhigh].
  pose proof (bit_length_nonneg maxp).
  rewrite Z.add_0_l, !Z2Nat.id by lia.
  rewrite Z.pow_0_r, Z.div_1_r, Z.div_small by lia. lia.
Qed.

End SegmentTreeContents.





Lemma tree_arrow_parent (self : Illustrate.Drawer) (length index : Z) :
  arrow_parent (tree_arrow self length index)
  = index / 2 * (2 * length) + length.
Proof.
  unfold tree_arrow. cbn [arrow_parent].
  pose proof (Z.div_mod index 2) as Hdiv.
  pose proof (Z.mod_pos_bound index 2) as Hmod.
  destruct (Z.eqb_spec (index mod 2) 0) as [He|Hne].
  - rewrite He in Hdiv. rewrite Hdiv at 1 by lia. ring.
  - assert (H1 : index mod 2 = 1) by lia.
    rewrite H1 in Hdiv. rewrite Hdiv at 1 by lia. ring.
Qed.

Lemma tree_arrow_child (self : Illustrate.Drawer) (length index : Z) :
  (arrow_child (tree_arrow self length index) * 2
   == inject_Z (2 * index * length + length))%Q.
Proof.
  unfold tree_arrow. cbn [arrow_child]. rewrite Qred_correct.
  rewrite !inject_Z_plus, !inject_Z_mult. field.
Qed.



(** ** The parts of a range among the blocks of the picture *)

Section PartsInTree.

Lemma chain_within a ps b :
  chain a ps b -> Forall block ps ->
  Forall (fun p => a <= start p /\ end_ p <= b) ps.
Proof.
  revert a. induction ps as [|p ps IH]; intros a Hc Hb; [constructor|].
  destruct Hc as [Hs Hc]. inversion Hb as [|? ? Hp Hb']; subst.
  destruct (chain_le _ _ _ Hc Hb') as [Hle _].
  pose proof (is_pow2_pos _ (proj2 Hp)) as Hh. destruct Hp as [Hw _].
  constructor; [lia|].
  eapply Forall_impl; [|exact (IH _ Hc Hb')].
  intros q [H1 H2]. cbn beta in *. lia.
Qed.

Lemma into_parts_tree_blocks l r split :
  Animate.into_parts l r = Ok split ->
  Forall (fun p => exists k i, tree_block p k i) (parts split).
Proof.
  apply into_parts_forall; intros x flag Hx;
    destruct (lsb_decomp x Hx) as (k & q & Hk & Hq & Hxe & Hl);
    unfold tree_block, Animate._prev, Animate._next;
    cbn [start end_ height]; rewrite Hl.
  - exists k, (2 * q). repeat split; try lia; rewrite Hxe at 1; ring.
  - exists k, (2 * q + 1). repeat split; try lia; rewrite Hxe at 1; ring.
Qed.

Lemma settled_tree_segment (self : Illustrate.Drawer) p k i :
  tree_block p k i -> is_left p = left_child p ->
  settled self p = tree_segment self (2 ^ k) i /\
  is_left p = (i mod 2 =? 0).
Proof.
  intros (Hk & Hi & Hh & Hs & He) Hleft.
  assert (Hp : 0 < 2 ^ k) by (apply Z.pow_pos_nonneg; lia).
  assert (Hflag : is_left p = (i mod 2 =? 0)).
  { rewrite Hleft. unfold left_child. rewrite Hs, Hh, Z.div_mul by lia.
    rewrite Zmod_even. now destruct (Z.even i). }
  split; [|exact Hflag].
  unfold settled, tree_segment. rewrite Hs, He, Hh, Hflag.
  f_equal. ring.
Qed.

Lemma parts_in_pictures (self : Illustrate.Drawer) (arrows : bool)
  (left right : Z) (split : Parts) :
  1 <= Illustrate.max_position self ->
  right <= Illustrate.max_position self ->
  Illustrate._into_parts self left right = Ok split ->
  Forall (fun part =>
            In (DrawnSegment (settled self part))
              (tree_picture self arrows false) /\
            (is_left part = true ->
             In (DrawnSegment (settled self part))
               (tree_picture self false true)))
    (parts split).
Proof.
  intros Hmax Hright Hsplit.
  pose proof (illustrate_is_left_marks_left_children _ _ _ _ Hsplit) as Hleft.
  destruct (illustrate_into_parts_ok _ _ _ _ Hsplit) as (split0 & H0 & ->).
  destruct (into_parts_ok_facts _ _ _ H0) as (_ & Hchain & Hblock & _).
  pose proof (chain_within _ _ _ Hchain Hblock) as Hin.
  pose proof (into_parts_tree_blocks _ _ _ H0) as Htree.
  apply (flip_parts_forall
           (fun p => left <= start p /\ end_ p <= right)) in Hin;
    [|intros p Hp; exact Hp].
  apply (flip_parts_forall (fun p => exists k i, tree_block p k i)) in Htree;
    [|intros p Hp; exact Hp].
  rewrite Forall_forall in *. intros p Hp.
  destruct (Htree p Hp) as (k & i & Hb).
  destruct (settled_tree_segment self p k i Hb (Hleft p Hp)) as [-> Hflag].
  destruct Hb as (Hk & Hi & _ & _ & He). destruct (Hin p Hp) as [_ Hend].
  split.
  - apply (in_tree_picture self Hmax). exists k, i.
    split; [exact Hk|]. split; [exact Hi|]. split; [lia|].
    apply in_node_items_segment. split; [apply orb_true_r | reflexivity].
  - intros Htrue. apply (in_tree_picture self Hmax). exists k, i.
    split; [exact Hk|]. split; [exact Hi|]. split; [lia|].
    apply in_node_items_segment. rewrite <- Hflag, Htrue.
    split; reflexivity.
Qed.

End PartsInTree.



(** ** How [draw_segment_tree] ends *)

Section SegmentTreeEnds.

Variable self : Illustrate.Drawer.
Variables arrows fenwick : bool.

Lemma get_point_cases :
  Illustrate._get_point self = Ok tt \/
  Illustrate._get_point self = Raise ZeroDivisionError.
Proof.
  unfold Illustrate._get_point.
  destruct (Illustrate.max_position self =? 0); [now right|].
  destruct (Qeq_bool _ 0); [now right | now left].
Qed.

Lemma draw_spikes_finishes : Illustrate._draw_spikes self <> OutOfFuel.
Proof.
  unfold Illustrate._draw_spikes.
  destruct get_point_cases as [-> | ->];
    destruct (0 <=? Illustrate.max_position self); cbn [bind];
    destruct (Illustrate.level_ticks self
              && (1 <=? Illustrate.max_level self)); discriminate.
Qed.

Lemma draw_segment_tree_no_row :
  fenwick && arrows = false -> Illustrate.max_position self < 1 ->
  Illustrate.draw_segment_tree self arrows fenwick
  = of_outcome (_ <- Illustrate._draw_spikes self ;; Ok []).
Proof.
  intros Hfa Hmax. unfold Illustrate.draw_segment_tree. rewrite Hfa.
  unfold Illustrate.segment_tree_fuel. cbn [while_m].
  unfold Illustrate.segment_tree_levels_cond at 1. cbn [fst].
  replace (1 <=? Illustrate.max_position self) with false
    by (symmetry; apply Z.leb_gt; lia).
  reflexivity.
Qed.

Lemma draw_segment_tree_no_point :
  fenwick && arrows = false -> 1 <= Illustrate.max_position self ->
  Illustrate._get_point self <> Ok tt ->
  Illustrate.draw_segment_tree self arrows fenwick
  = Failed (Exn ZeroDivisionError).
Proof.
  intros Hfa Hmax Hpoint.
  destruct get_point_cases as [H|H]; [contradiction|].
  unfold Illustrate.draw_segment_tree. rewrite Hfa.
  unfold Illustrate.segment_tree_fuel. cbn [while_m].
  unfold Illustrate.segment_tree_levels_cond at 1. cbn [fst].
  replace (1 <=? Illustrate.max_position self) with true
    by (symmetry; apply Z.leb_le; lia).
  unfold Illustrate.segment_tree_levels_body at 1.
  unfold Illustrate.segment_tree_fuel. cbn [while_m fst snd].
  unfold Illustrate.segment_tree_cond at 1. cbn [fst].
  replace (Illustrate.max_position self <? 0 * 1 + 1) with false
    by (symmetry; apply Z.ltb_ge; lia).
  cbn [negb]. unfold Illustrate.segment_tree_body at 1. cbn [fst snd].
  change (0 mod 2 =? 0) with true. cbn [orb].
  unfold Illustrate._draw_segment at 1. rewrite H. reflexivity.
Qed.

End SegmentTreeEnds.



(** ** The last frame of [Drawer.animate] *)

Section LastFrame.

Local Open Scope Q_scope.

Variables (self : Illustrate.Drawer) (left right : Z) (split : Parts).

Local Abbreviation step := (Illustrate.level_step self).
Local Abbreviation accel := (Illustrate.accelerate_intact self).
Local Abbreviation next := (next_level step accel).
Local Abbreviation body := (illustrate_step self left right split).
Local Abbreviation as_level :=
  (Illustrate._as_level (Illustrate.logarithmic self)).

Lemma countdown_last level0 fs f final :
  countdown next level0 (fs ++ [f]) final -> next f = final.
Proof.
  revert level0. induction fs as [|g fs IH]; intros level0 H; simpl in H.
  - apply H.
  - destruct H as [_ H]. now apply (IH _ H).
Qed.

(** After the loop the frames count down to a negative level, and each one
    is intact or not as its level says. *)
Lemma illustrate_loop_shape fuel level0 s :
  while fuel Illustrate.animate_cond body (Illustrate.mkLoopState [] level0)
  = Ok s ->
  countdown next level0 (Illustrate.frames s) (Illustrate.level s) /\
  Forall (fun f => frame_intact f = is_intact as_level split (frame_level f))
    (Illustrate.frames s) /\
  Illustrate.level s < 0.
Proof.
  intros Hrun.
  apply (while_invariant
           (fun s =>
              countdown next level0 (Illustrate.frames s)
                (Illustrate.level s) /\
              Forall (fun f => frame_intact f
                               = is_intact as_level split (frame_level f))
                (Illustrate.frames s))
           Illustrate.animate_cond body) in Hrun.
  - destruct Hrun as [[Hc Hf] Hstop]. split; [exact Hc|].
    split; [exact Hf|]. now apply Qle_bool_false.
  - intros s0 [Hc Hf] _.
    destruct (illustrate_body_spec self left right split s0)
      as (f & Hfr & Hfl & Hnext & Hint & _).
    rewrite Hfr, Hnext. split.
    + apply countdown_snoc. now rewrite Hfl.
    + apply Forall_app. split; [assumption|].
      constructor; [|constructor]. now rewrite Hfl.
  - split; [reflexivity | constructor].
Qed.

End LastFrame.

Lemma animate_last_frame (self : Illustrate.Drawer) (left right : Z)
  (start_level : option Q) (fuel : nat) (fs : list Frame) :
  (Illustrate.level_step self <= 1)%Q ->
  (Illustrate.level_step self * Illustrate.accelerate_intact self <= 1)%Q ->
  (0 <= match start_level with
        | None => inject_Z (Illustrate.max_level self)
        | Some l => l
        end)%Q ->
  Illustrate.animate self left right start_level fuel = Ok fs ->
  exists split fs' level,
    Illustrate._into_parts self left right = Ok split /\
    fs = fs' ++ [mkFrame level false (map (settled self) (parts split))] /\
    (0 <= level < 1)%Q.
Proof.
  intros Hstep Haccel Hlevel0 Hrun.
  destruct (illustrate_animate_frames _ _ _ _ _ _ Hrun)
    as (split & Hsplit & Hcut).
  unfold Illustrate.animate in Hrun.
  destruct (Illustrate._draw_spikes self) as [[]| |];
    cbn [bind] in Hrun; try discriminate.
  rewrite Hsplit in Hrun. cbn [bind] in Hrun.
  match type of Hrun with
  | bind ?w _ = _ => destruct w as [s| |] eqn:Hloop
  end; cbn [bind] in Hrun; try discriminate.
  injection Hrun as <-.
  apply (while_m_ok _ _ (illustrate_step self left right split)) in Hloop;
    [|intros s0 s1; apply illustrate_body_ok].
  pose proof Hloop as Hloop'.
  apply illustrate_loop_shape in Hloop. destruct Hloop as (Hc & Hint & Hneg).
  apply (while_invariant
           (fun s => Forall (fun f => (0 <= frame_level f)%Q)
                       (Illustrate.frames s) /\
                     (Illustrate.frames s = [] ->
                      (0 <= Illustrate.level s)%Q))
           Illustrate.animate_cond
           (illustrate_step self left right split)) in Hloop'.
  2:{ intros s0 [Hf _] Hcond.
      destruct (illustrate_body_spec self left right split s0)
        as (f & Hfr & Hfl & _).
      rewrite Hfr. split.
      - apply Forall_app. split; [assumption|]. constructor; [|constructor].
        rewrite Hfl. now apply Qle_bool_iff.
      - intros H. apply app_eq_nil in H. destruct H; discriminate. }
  2:{ split; [constructor | intros _; exact Hlevel0]. }
  destruct Hloop' as [[Hpos Hempty] _].
  destruct (illustrate_into_parts_ok _ _ _ _ Hsplit) as (split0 & H0 & Heq).
  destruct (into_parts_ok_facts _ _ _ H0) as (_ & _ & Hb & Hfirst).
  exists split.
  destruct (exists_last (l := Illustrate.frames s)) as (fs' & f & Hfs).
  { intros H. specialize (Hempty H). lra. }
  rewrite Hfs in *. apply countdown_last in Hc.
  apply Forall_app in Hint. destruct Hint as [_ Hint].
  apply Forall_app in Hpos. destruct Hpos as [_ Hpos].
  apply Forall_app in Hcut. destruct Hcut as [_ Hcut].
  inversion Hint as [|? ? Hif _]; subst.
  inversion Hpos as [|? ? Hpf _]; subst.
  inversion Hcut as [|? ? Hcf _]; subst.
  assert (Hlt : (frame_level f < 1)%Q).
  { rewrite <- Hc in Hneg. unfold next_level in Hneg.
    rewrite Qred_correct in Hneg.
    destruct (frame_intact f); lra. }
  assert (Hnot : frame_intact f = false).
  { rewrite Hif. apply not_intact_below_1; [|exact Hlt].
    intros c Hcut0. unfold flip_parts in Hcut0. cbn [first_cut_height] in Hcut0.
    apply (as_level_positive (Illustrate.logarithmic self)), Hfirst, Hcut0. }
  exists fs', (frame_level f). split; [exact Hsplit|].
  split; [|split; [exact Hpf | exact Hlt]].
  f_equal. destruct f as [l i segs]. cbn [frame_level frame_intact segments] in *.
  rewrite (Hcf Hnot), Hnot.
  rewrite cut_segments_settled; [reflexivity | exact Hlt |].
  unfold flip_parts. cbn [parts]. now apply block_flip.
Qed.

(** X25. With [level_step <= 1] and [level_step * accelerate_intact <= 1],
    as in every drawer of the script, an animation of [Drawer.animate]
    that starts at a level that is not negative ends in the decomposition
    itself: its last frame is drawn at a level below 1 and shows every
    part of [_into_parts] at its own level in its own colour, the picture
    that [start_level=0] yields at once. *)
Theorem animate_ends_settled (self : Illustrate.Drawer) (left right : Z)
  (start_level : option Q) (fuel : nat) (fs : list Frame) :
  (Illustrate.level_step self <= 1)%Q ->
  (Illustrate.level_step self * Illustrate.accelerate_intact self <= 1)%Q ->
  (0 <= match start_level with
        | None => inject_Z (Illustrate.max_level self)
        | Some l => l
        end)%Q ->
  Illustrate.animate self left right start_level fuel = Ok fs ->
  exists split fs' level,
    Illustrate._into_parts self left right = Ok split /\
    fs = fs' ++ [mkFrame level false (map (settled self) (parts split))] /\
    (0 <= level < 1)%Q.
Proof. apply animate_last_frame. Qed.

Lemma animate_ends_settled_witness :
  exists fs,
    (Illustrate.level_step log_drawer <= 1)%Q /\
    (Illustrate.level_step log_drawer
     * Illustrate.accelerate_intact log_drawer <= 1)%Q /\
    (0 <= inject_Z (Illustrate.max_level log_drawer))%Q /\
    Illustrate.animate log_drawer 3 37 None 40 = Ok fs /\
    exists split fs' level,
      Illustrate._into_parts log_drawer 3 37 = Ok split /\
      fs = fs' ++ [mkFrame level false
                     (map (settled log_drawer) (parts split))] /\
      (0 <= level < 1)%Q.
Proof.
  eexists. split; [vm_compute; discriminate|].
  split; [vm_compute; discriminate|]. split; [vm_compute; discriminate|].
  split; [vm_compute; reflexivity|].
  apply (animate_ends_settled log_drawer 3 37 None 40);
    [vm_compute; discriminate | vm_compute; discriminate
    | vm_compute; discriminate | vm_compute; reflexivity].
Defined.

(** ** The lowest set bit, and the drawers of the constructor *)

Lemma lsb_lowest_bit x :
  x <> 0 ->
  exists k,
    0 <= k /\ Animate.lsb x = 2 ^ k /\ (2 ^ k | x) /\ ~ (2 ^ (k + 1) | x).
Proof.
  assert (Hpos : forall y, 0 < y ->
            exists k, 0 <= k /\ Animate.lsb y = 2 ^ k /\ (2 ^ k | y) /\
                      ~ (2 ^ (k + 1) | y)).
  { intros y Hy.
    destruct (lsb_decomp y Hy) as (k & q & Hk & Hq & Hye & Hl).
    assert (Hp : 0 < 2 ^ k) by (apply Z.pow_pos_nonneg; lia).
    exists k. split; [exact Hk|]. split; [exact Hl|]. split.
    - exists (2 * q + 1). lia.
    - intros [z Hz]. rewrite Z.pow_add_r, Z.pow_1_r in Hz by lia.
      assert (2 * q + 1 = 2 * z); [|lia].
      apply Z.mul_cancel_l with (p := 2 ^ k); lia. }
  intros Hx. destruct (Z_lt_le_dec 0 x) as [Hlt|Hle]; [now apply Hpos|].
  destruct (Hpos (- x)) as (k & Hk & Hl & Hd & Hn); [lia|].
  rewrite lsb_opp in Hl. exists k.
  split; [exact Hk|]. split; [exact Hl|].
  split.
  - destruct Hd as [z Hz]. exists (- z). lia.
  - intros [z Hz]. apply Hn. exists (- z). lia.
Qed.

(** X26. For every [x] but zero, [lsb(x) = x & -x], in both scripts, is the
    largest power of two that divides [x]; [lsb(0)] is [0], and [x] and
    [-x] have the same one. *)
Theorem lsb_largest_power_of_two (x : Z) :
  Animate.lsb 0 = 0 /\
  Illustrate._lsb x = Animate.lsb x /\
  Animate.lsb (- x) = Animate.lsb x /\
  (x <> 0 ->
   exists k,
     0 <= k /\ Animate.lsb x = 2 ^ k /\ (2 ^ k | x) /\ ~ (2 ^ (k + 1) | x)).
Proof.
  split; [reflexivity|]. split; [reflexivity|].
  split; [apply lsb_opp | apply lsb_lowest_bit].
Qed.

Lemma lsb_largest_power_of_two_witness :
  12 <> 0 /\
  exists k,
    0 <= k /\ Animate.lsb 12 = 2 ^ k /\ (2 ^ k | 12) /\ ~ (2 ^ (k + 1) | 12).
Proof.
  split; [lia|].
  apply (proj2 (proj2 (proj2 (lsb_largest_power_of_two 12)))). lia.
Defined.

Lemma constructor_run (max_position width : Z) (height : pyval)
  (vertical_stretch level_step : Q) (accelerate_intact : option Q)
  (logarithmic : bool) (intact_color left_color right_color : Color)
  (level_ticks : bool) :
  1 <= max_position ->
  (0 <= vertical_stretch)%Q -> (0 < level_step)%Q ->
  (forall a, accelerate_intact = Some a -> (0 < a)%Q) ->
  exists self,
    Illustrate.__init__ (PyInt max_position) width height vertical_stretch
      level_step accelerate_intact logarithmic intact_color left_color
      right_color level_ticks = Ok self /\
    1 <= Illustrate.max_level self /\
    Illustrate._get_point self = Ok tt /\
    forall left right,
      0 <= left <= right ->
      exists fuel frames,
        frames <> [] /\
        forall fuel', (fuel <= fuel')%nat ->
          Illustrate.animate self left right None fuel' = Ok frames.
Proof.
  intros Hmp Hvs Hls Hacc.
  destruct (round_up_next_pow2 max_position Hmp) as (r & Hr & Hpow & _).
  apply is_pow2_pos in Hpow.
  pose proof (as_level_positive logarithmic r Hpow) as Hlevel.
  change Animate.as_level with Illustrate._as_level in Hlevel.
  assert (Hh : exists h,
             (if py_truthy height then py_int height
              else if max_position =? 0 then Raise ZeroDivisionError
                   else Ok (Qfloor
                              (inject_Z width
                               * (1 + (inject_Z
                                         (Illustrate._as_level logarithmic r)
                                       - 1) * vertical_stretch)
                               / inject_Z max_position)%Q))
             = Ok h).
  { destruct height as [|h]; cbn [py_truthy].
    - replace (max_position =? 0) with false
        by (symmetry; apply Z.eqb_neq; lia).
      eexists. reflexivity.
    - destruct (negb (h =? 0)); [eexists; reflexivity|].
      replace (max_position =? 0) with false
        by (symmetry; apply Z.eqb_neq; lia).
      eexists. reflexivity. }
  destruct Hh as [h Hh].
  eexists. split.
  { unfold Illustrate.__init__. rewrite Hr. cbn [bind py_int].
    rewrite Hh. cbn [bind]. reflexivity. }
  cbn [Illustrate.max_level].
  split; [exact Hlevel|].
  assert (Hpoint : Illustrate._get_point
                     (Illustrate.mkDrawer max_position logarithmic
                        (Illustrate._as_level logarithmic r) width
                        vertical_stretch h level_step
                        match accelerate_intact with
                        | Some a => a
                        | None => if logarithmic then 1%Q else 2%Q
                        end intact_color left_color right_color level_ticks)
                   = Ok tt).
  { apply get_point_ok; cbn [Illustrate.max_position Illustrate.max_level
                             Illustrate.vertical_stretch]; [lia|].
    pose proof (one_le_inject_Z _ Hlevel) as H1. intros H0. nra. }
  split; [exact Hpoint|].
  intros left right Hlr.
  apply illustrate_animate_run; try assumption;
    cbn [Illustrate.level_step Illustrate.accelerate_intact
         Illustrate.max_level]; try lia.
  destruct accelerate_intact as [a|]; [now apply Hacc|].
  destruct logarithmic; reflexivity.
Qed.


